(** * Tree model over a nested dictionary

  Shallow embedding of [qiskit_metal/_gui/tree_model_base.py]
  (class [QTreeModel_Base]): a Qt item model that mirrors a nested
  options dictionary as a tree of branch and leaf nodes. *)

From Stdlib Require Import ZArith Lia.
From stdpp Require Import base option list strings pretty.

Open Scope string_scope.
Open Scope list_scope.
Open Scope Z_scope.

(** ** Python values *)

Module Py.

(** Scalars of the options dictionary. Python's [==] between two such
    values is structural equality. *)
Inductive scalar :=
| SNone
| SInt (z : Z)
| SStr (s : string).

#[export] Instance scalar_eq_dec : EqDecision scalar.
Proof. solve_decision. Defined.

(** A nested dictionary: string keys, values that are scalars or again
    dictionaries. The item list is the insertion order of the dict. *)
#[local] Unset Elimination Schemes.
Inductive pyvalue :=
| Scalar (s : scalar)
| Dict (items : list (string * pyvalue)).

#[local] Set Elimination Schemes.

Definition dict := list (string * pyvalue).

(** Python [str(x)] on a scalar. *)
Definition str (s : scalar) : string :=
  match s with
  | SNone => "None"
  | SInt z => pretty z
  | SStr s => s
  end.

(** Python [x == s] for a scalar [s]: a mapping equals no scalar. *)
Definition equals (x : pyvalue) (s : scalar) : bool :=
  match x with
  | Scalar s' => bool_decide (s' = s)
  | Dict _ => false
  end.

(** Exceptions the modelled code can raise. *)
Inductive exn := AssertionError | KeyError | TypeError | AttributeError | IndexError.

Inductive result (A : Type) :=
| Ok (a : A)
| Raise (e : exn).
Arguments Ok {A} a.
Arguments Raise {A} e.

(** [d[k]] *)
Fixpoint getitem (d : dict) (k : string) : result pyvalue :=
  match d with
  | [] => Raise KeyError
  | (k', v) :: d' => if String.eqb k k' then Ok v else getitem d' k
  end.

(** [d[k] = v]: an existing key keeps its position, a new key goes
    last. *)
Fixpoint setitem (d : dict) (k : string) (v : pyvalue) : dict :=
  match d with
  | [] => [(k, v)]
  | (k', v') :: d' =>
      if String.eqb k k' then (k', v) :: d' else (k', v') :: setitem d' k v
  end.

(** Keys of a Python dict are pairwise distinct, at every level. *)
Fixpoint wf_value (v : pyvalue) : bool :=
  match v with
  | Scalar _ => true
  | Dict items =>
      bool_decide (NoDup (map fst items)) && forallb (fun kv => wf_value (snd kv)) items
  end.

Definition wf_dict (d : dict) : bool := wf_value (Dict d).

(** Python slices of a list: [l[:-1]] and [l[-1]]. *)
Definition but_last {A} (l : list A) : list A := removelast l.

Definition last_item {A} (l : list A) : result A :=
  match last l with
  | Some x => Ok x
  | None => Raise IndexError
  end.

End Py.
Export Py.


(** ** Node classes

    The module imports [BranchNode] and [LeafNode] from
    [widgets/edit_component/tree_model_options.py]; objects live in a
    store and are referred to by address, so that parent links and the
    child lists of several holders alias the same node. *)

(** Addresses of node objects. *)
Abbreviation ref := nat (only parsing).

(** Modelled from the spec: class [BranchNode] (not in this file). A
    name, a parent link and the ordered list of [(KEY, NODE)] children.
    Its [_data] attribute always aliases the model's source dictionary
    and is therefore not stored per node. *)
Record BranchNode := mkBranchNode {
  name : string;
  b_parent : option ref;
  children : list (string * ref)
}.

(** Modelled from the spec: class [LeafNode] (not in this file). One
    scalar key-value pair: label, key path from the dictionary root,
    parent link. The constructor takes these three and no value: the
    value is the current scalar, read through the path on every access
    (see [value] below). *)
Record LeafNode := mkLeafNode {
  label : string;
  l_parent : option ref;
  path : list string
}.

Inductive node :=
| Branch (b : BranchNode)
| Leaf (l : LeafNode).

Abbreviation heap := (list node) (only parsing).

Definition node_parent (n : node) : option ref :=
  match n with
  | Branch b => b_parent b
  | Leaf l => l_parent l
  end.

Definition set_parent (p : option ref) (n : node) : node :=
  match n with
  | Branch b => Branch (mkBranchNode (name b) p (children b))
  | Leaf l => Leaf (mkLeafNode (label l) p (path l))
  end.

(** Modelled from the spec: the key under which a node is filed in its
    parent's child list, the name of a branch and the label of a leaf. *)
Definition node_key (n : node) : string :=
  match n with
  | Branch b => name b
  | Leaf l => label l
  end.

(** ** Qt vocabulary *)

Record QModelIndex := mkIndex {
  row : Z;
  column : Z;
  internalPointer : option ref;
  has_model : bool
}.

(** [QModelIndex()] *)
Definition QModelIndex_null : QModelIndex := mkIndex (-1) (-1) None false.

Definition isValid (i : QModelIndex) : bool :=
  (0 <=? row i) && (0 <=? column i) && has_model i.

Inductive ItemDataRole := DisplayRole | EditRole | FontRole | TextAlignmentRole | OtherRole.

#[export] Instance role_eq_dec : EqDecision ItemDataRole.
Proof. solve_decision. Defined.

Inductive Orientation := Horizontal | Vertical.

(** What [data] and [headerData] hand back. [VStrOf d] is the string
    [str(d)] of a mapping [d], whose characters are not spelled out. *)
Inductive variant :=
| QVariant_null
| VStr (s : string)
| VStrOf (d : dict)
| VFont (bold : bool)
| VInt (z : Z).

(** [str(x)] as a cell text. *)
Definition text (x : pyvalue) : variant :=
  match x with
  | Scalar s => VStr (str s)
  | Dict d => VStrOf d
  end.

Definition ItemIsSelectable : Z := 1.
Definition ItemIsEditable : Z := 2.
Definition ItemIsEnabled : Z := 32.
Definition AlignLeft : Z := 1.
Definition AlignTop : Z := 32.

Inductive event :=
| TimerStart (ms : Z)
| ModelAboutToBeReset
| ModelReset
| AutoresizeColumns.

(** A root-to-leaf path as [getPaths] records it: the Python list
    [keys ++ [v]]. *)
Definition leafpath := (list string * scalar)%type.

(** ** Model state

    The source dictionary belongs to the design and is shared with the
    rest of the application; the model reaches it through
    [self.design.renderers.gds.options]. It is a field of the state, so
    that a change made from outside is a change of that field. The
    nested dictionaries are taken to be distinct objects, one per
    mapping-valued entry. *)

Record model := mkModel {
  data_dict : dict;          (* self.design.renderers.gds.options *)
  store : heap;              (* the node objects *)
  root : ref;                (* self.root *)
  headers : list string;
  paths : list leafpath;
  _rowCount : Z;
  _view : bool;              (* whether a view is attached *)
  emitted : list event       (* signals and view calls, oldest first *)
}.

Definition refreshtime : Z := 500.

Definition M (A : Type) : Type := model -> result A * model.

Definition ret {A} (a : A) : M A := fun st => (Ok a, st).
Definition raise {A} (e : exn) : M A := fun st => (Raise e, st).
Definition bind {A B} (m : M A) (f : A -> M B) : M B :=
  fun st => match m st with
            | (Ok a, st') => f a st'
            | (Raise e, st') => (Raise e, st')
            end.
Definition gets {A} (f : model -> A) : M A := fun st => (Ok (f st), st).
Definition lift {A} (r : result A) : M A := fun st => (r, st).

Notation "'do' x <- m ; f" := (bind m (fun x => f))
  (at level 10, x name, m at level 100, f at level 200, only parsing).
Notation "'do' ' p <- m ; f" := (bind m (fun x => match x with p => f end))
  (at level 10, p pattern, m at level 100, f at level 200, only parsing).
Notation "'run' m ; f" := (bind m (fun _ => f))
  (at level 10, m at level 100, f at level 200, only parsing).

Definition with_store (h : heap) (st : model) : model :=
  mkModel (data_dict st) h (root st) (headers st) (paths st)
          (_rowCount st) (_view st) (emitted st).
Definition set_store (h : heap) : M unit := fun st => (Ok tt, with_store h st).
Definition with_data_dict (d : dict) (st : model) : model :=
  mkModel d (store st) (root st) (headers st) (paths st)
          (_rowCount st) (_view st) (emitted st).
Definition set_data_dict (d : dict) : M unit := fun st => (Ok tt, with_data_dict d st).
Definition set_paths (ps : list leafpath) : M unit := fun st =>
  (Ok tt, mkModel (data_dict st) (store st) (root st) (headers st) ps
                  (_rowCount st) (_view st) (emitted st)).
Definition set_rowCount (n : Z) : M unit := fun st =>
  (Ok tt, mkModel (data_dict st) (store st) (root st) (headers st) (paths st)
                  n (_view st) (emitted st)).
Definition emit (e : event) : M unit := fun st =>
  (Ok tt, mkModel (data_dict st) (store st) (root st) (headers st) (paths st)
                  (_rowCount st) (_view st) (emitted st ++ [e])).

(** ** Node methods *)

(** Dereference an object reference. A dangling address has no
    counterpart in Python; the model reports it as an attribute error. *)
Definition deref (r : ref) : M node := fun st =>
  match store st !! r with
  | Some n => (Ok n, st)
  | None => (Raise AttributeError, st)
  end.

(** Allocation of a fresh object. *)
Definition new (n : node) : M ref := fun st =>
  (Ok (length (store st)), with_store (store st ++ [n]) st).

(** Python truth value of a node object: [BranchNode] defines [__len__]
    ([rowCount] calls [len(node)]), so an empty branch is falsy; a leaf
    has the default truth value. *)
Definition node_truth (n : node) : bool :=
  match n with
  | Branch b => negb (Nat.eqb (length (children b)) 0)
  | Leaf _ => true
  end.

(** [bool(x)] for [x] a node or [None]. *)
Definition truth (o : option ref) : M bool :=
  match o with
  | None => ret false
  | Some r => do n <- deref r; ret (node_truth n)
  end.

(** Modelled from the spec: [BranchNode.childWithKey], the first child
    filed under [key], or [None]. *)
Definition childWithKey (self : ref) (key : string) : M (option ref) :=
  do n <- deref self;
  match n with
  | Branch b =>
      ret (match find (fun c => String.eqb key (fst c)) (children b) with
           | Some c => Some (snd c)
           | None => None
           end)
  | Leaf _ => raise AttributeError
  end.

(** Modelled from the spec: [BranchNode.insertChild], which sets the
    child's parent link and appends the pair of the child's key and the
    child. *)
Definition insertChild (self child : ref) : M unit :=
  do n <- deref self;
  match n with
  | Branch _ =>
      do c <- deref child;
      do h <- gets store;
      run set_store (<[child := set_parent (Some self) c]> h);
      do n' <- deref self;
      match n' with
      | Branch b =>
          do h' <- gets store;
          set_store (<[self := Branch (mkBranchNode (name b) (b_parent b)
                                         (children b ++ [(node_key c, child)]))]> h')
      | Leaf _ => raise AttributeError
      end
  | Leaf _ => raise AttributeError
  end.

(** Modelled from the spec: [BranchNode.childAtRow], total, [None]
    outside [0 <= row < len(children)]. *)
Definition childAtRow (self : ref) (row : Z) : M (option ref) :=
  do n <- deref self;
  match n with
  | Branch b =>
      ret (if (0 <=? row) && (row <? Z.of_nat (length (children b)))
           then snd <$> (children b !! Z.to_nat row)
           else None)
  | Leaf _ => raise AttributeError
  end.

Fixpoint index_of (child : ref) (l : list (string * ref)) (i : Z) : Z :=
  match l with
  | [] => -1
  | c :: l' => if Nat.eqb (snd c) child then i else index_of child l' (i + 1)
  end.

(** Modelled from the spec: [BranchNode.rowOfChild], the position of
    the child object in the child list, [-1] when it is not there. *)
Definition rowOfChild (self child : ref) : M Z :=
  do n <- deref self;
  match n with
  | Branch b => ret (index_of child (children b) 0)
  | Leaf _ => raise AttributeError
  end.

(** Modelled from the spec: successive mapping lookups from a
    dictionary root along a key path. *)
Fixpoint get_nested_dict_item (v : pyvalue) (p : list string) : result pyvalue :=
  match p with
  | [] => Ok v
  | x :: p' =>
      match v with
      | Dict d =>
          match getitem d x with
          | Ok v' => get_nested_dict_item v' p'
          | Raise e => Raise e
          end
      | Scalar _ => Raise TypeError
      end
  end.

(** What successive lookups along the key path of a leaf find in the
    dictionary [d]. *)
Definition value_in (d : dict) (l : LeafNode) : result pyvalue :=
  get_nested_dict_item (Dict d) (path l).

(** Modelled from the spec: the attribute [LeafNode.value], the current
    scalar of the pair. [load] hands the source dictionary to the root
    and to every branch ([_data]) and to a leaf only its parent and its
    key path, so the value is what the lookups along the path find in
    that dictionary at the moment it is read; a key that is gone is a
    [KeyError], a scalar in the way a [TypeError]. *)
Definition value (l : LeafNode) : M pyvalue :=
  do d <- gets data_dict;
  lift (value_in d l).

(** Modelled from the spec: the [LeafNode] constructor, called with
    label, parent and key path. *)
Definition LeafNode_new (lbl : string) (parent : ref) (p : list string) : M ref :=
  new (Leaf (mkLeafNode lbl (Some parent) p)).

(** [BranchNode(key, data=self.data_dict)] *)
Definition BranchNode_new (key : string) : M ref :=
  new (Branch (mkBranchNode key None [])).

(** ** The model class *)

Definition createIndex (r c : Z) (p : option ref) : QModelIndex := mkIndex r c p true.

(** Paths below one dictionary value filed under [curpath]. *)
Fixpoint paths_of (v : pyvalue) (curpath : list string) : list leafpath :=
  match v with
  | Scalar s => [(curpath, s)]
  | Dict items => flat_map (fun kv => paths_of (snd kv) (curpath ++ [fst kv])) items
  end.

(** [getPaths]: every recursive call appends to [self.paths], depth
    first and in item order. *)
Definition getPaths (curdict : dict) (curpath : list string) : M unit :=
  do ps <- gets paths;
  set_paths (ps ++ paths_of (Dict curdict) curpath).

(** The body of the inner loop of [load]: look for the child filed
    under [key]; a falsy result gets a new branch, inserted below
    [root]. The result is the new value of both [branch] and [root]. *)
Definition find_or_create (root : ref) (key : string) : M ref :=
  do found <- childWithKey root key;
  do t <- truth found;
  match found with
  | Some b =>
      if t then ret b
      else (do b' <- BranchNode_new key; run insertChild root b'; ret b')
  | None => do b' <- BranchNode_new key; run insertChild root b'; ret b'
  end.

(** The inner loop of [load], [for key in path[:-2]], on the loop
    variables [root] and [branch]. *)
Fixpoint load_descend (keys : list string) (root : ref) (branch : option ref)
  : M (ref * option ref) :=
  match keys with
  | [] => ret (root, branch)
  | key :: keys' =>
      do b <- find_or_create root key;
      load_descend keys' b (Some b)
  end.

(** Looking up the method [insertChild] on an object, which only a
    branch has. *)
Definition insertChild_of (self : ref) : M unit :=
  do n <- deref self;
  match n with
  | Branch _ => ret tt
  | Leaf _ => raise AttributeError
  end.

(** The end of an iteration of [for path in self.paths]: the leaf goes
    below [root] when [branch] is falsy, below [branch] otherwise. The
    method is looked up on the receiver before the leaf is built. *)
Definition load_attach (p : leafpath) (root1 : ref) (branch : option ref) : M unit :=
  do t <- truth branch;
  do target <- (if negb t then ret root1
                else match branch with Some b => ret b | None => ret root1 end);
  run insertChild_of target;
  do lbl <- lift (last_item (fst p));
  do leaf <- LeafNode_new lbl target (fst p);
  insertChild target leaf.

(** One iteration of [for path in self.paths]. *)
Definition load_path (p : leafpath) : M unit :=
  do root0 <- gets root;
  do rb <- load_descend (but_last (fst p)) root0 None;
  load_attach p (fst rb) (snd rb).

Fixpoint for_each {A} (l : list A) (body : A -> M unit) : M unit :=
  match l with
  | [] => ret tt
  | x :: l' => run body x; for_each l' body
  end.

(** [self.root.children.clear()] *)
Definition clear_root_children : M unit :=
  do r <- gets root;
  do n <- deref r;
  match n with
  | Branch b =>
      do h <- gets store;
      set_store (<[r := Branch (mkBranchNode (name b) (b_parent b) [])]> h)
  | Leaf _ => raise AttributeError
  end.

Definition load : M unit :=
  run emit ModelAboutToBeReset;
  run set_paths [];
  run clear_root_children;
  do d <- gets data_dict;
  run getPaths d [];
  do ps <- gets paths;
  run for_each ps load_path;
  emit ModelReset.

Definition nodeFromIndex (index : QModelIndex) : M (option ref) :=
  if isValid index then ret (internalPointer index)
  else do r <- gets root; ret (Some r).

Definition rowCount (parent : QModelIndex) : M Z :=
  do node <- nodeFromIndex parent;
  match node with
  | None => ret 0
  | Some r =>
      do n <- deref r;
      match n with
      | Leaf _ => ret 0
      | Branch b => ret (Z.of_nat (length (children b)))
      end
  end.

Definition columnCount (parent : QModelIndex) : M Z :=
  do hs <- gets headers; ret (Z.of_nat (length hs)).

(** [data] for the display role, the part after [role == Qt.DisplayRole]. *)
Definition data_display (index : QModelIndex) : M variant :=
  do node <- nodeFromIndex index;
  do t <- truth node;
  match node with
  | Some r =>
      if t then
        do n <- deref r;
        match n with
        | Branch b => if column index =? 0 then ret (VStr (name b)) else ret (VStr "")
        | Leaf l =>
            if column index =? 0 then ret (VStr (label l))
            else if column index =? 1 then do v <- value l; ret (text v)
            else ret QVariant_null
        end
      else ret QVariant_null
  | None => ret QVariant_null
  end.

Definition data (index : QModelIndex) (role : ItemDataRole) : M variant :=
  if negb (isValid index) then ret QVariant_null
  else match role with
       | EditRole => data_display index
       | FontRole =>
           if column index =? 0 then ret (VFont true) else ret QVariant_null
       | TextAlignmentRole => ret (VInt (Z.lor AlignTop AlignLeft))
       | DisplayRole => data_display index
       | OtherRole => ret QVariant_null
       end.

(** The write of [setData] into the source dictionary: walk
    [walk] by successive lookups, then assign under [k]. The nested
    dictionaries are shared objects, so the assignment shows from the
    root. *)
Fixpoint assign_nested (d : dict) (walk : list string) (k : string) (v : pyvalue)
  : result dict :=
  match walk with
  | [] => Ok (setitem d k v)
  | x :: walk' =>
      match getitem d x with
      | Ok (Dict d') =>
          match assign_nested d' walk' k v with
          | Ok d'' => Ok (setitem d x (Dict d''))
          | Raise e => Raise e
          end
      | Ok (Scalar _) => Raise TypeError
      | Raise e => Raise e
      end
  end.

(** The dictionary write of [setData] for a leaf with key path [p] and
    label [lbl]. *)
Definition leaf_write (dic : dict) (p : list string) (lbl : string) (v : scalar)
  : result dict :=
  match p with
  | [] => Ok (setitem dic lbl (Scalar v))
  | _ :: _ =>
      match last_item p with
      | Ok k => assign_nested dic (but_last p) k (Scalar v)
      | Raise e => Raise e
      end
  end.

Definition setData (index : QModelIndex) (v : scalar) (role : ItemDataRole) : M bool :=
  if negb (isValid index) then ret false
  else match role with
       | EditRole =>
           if column index =? 1 then
             do node <- nodeFromIndex index;
             match node with
             | None => ret false
             | Some r =>
                 do n <- deref r;
                 match n with
                 | Leaf l =>
                     do old_value <- value l;
                     if equals old_value v then ret false
                     else
                       do dic <- gets data_dict;
                       let lbl := label l in
                       do dic' <- lift (leaf_write dic (path l) lbl v);
                       run set_data_dict dic';
                       ret true
                 | Branch _ => ret false
                 end
             end
           else ret false
       | _ => ret false
       end.

Definition headerData (section : Z) (orientation : Orientation) (role : ItemDataRole)
  : M variant :=
  match orientation with
  | Horizontal =>
      match role with
      | DisplayRole =>
          do hs <- gets headers;
          if (0 <=? section) && (section <? Z.of_nat (length hs)) then
            match hs !! Z.to_nat section with
            | Some h => ret (VStr h)
            | None => raise IndexError
            end
          else ret QVariant_null
      | FontRole => ret (VFont true)
      | _ => ret QVariant_null
      end
  | Vertical => ret QVariant_null
  end.

Definition index (row column : Z) (parent : QModelIndex) : M QModelIndex :=
  do r <- gets root;
  do t <- truth (Some r);
  if negb t then raise AssertionError
  else
    do branch <- nodeFromIndex parent;
    match branch with
    | None => raise AssertionError
    | Some b =>
        do c <- childAtRow b row;
        ret (createIndex row column c)
    end.

Definition parent (child : QModelIndex) : M QModelIndex :=
  do node <- nodeFromIndex child;
  match node with
  | None => ret QModelIndex_null
  | Some r =>
      do n <- deref r;
      match node_parent n with
      | None => ret QModelIndex_null
      | Some p =>
          do pn <- deref p;
          match node_parent pn with
          | None => ret QModelIndex_null
          | Some g =>
              do row <- rowOfChild g p;
              if row =? -1 then raise AssertionError
              else ret (createIndex row 0 (Some p))
          end
      end
  end.

Definition flags (index : QModelIndex) : M Z :=
  let flags := Z.lor ItemIsSelectable ItemIsEnabled in
  if column index =? 1 then
    do node <- nodeFromIndex index;
    match node with
    | None => ret flags
    | Some r =>
        do n <- deref r;
        match n with
        | Leaf _ => ret (Z.lor flags ItemIsEditable)
        | Branch _ => ret flags
        end
    end
  else ret flags.

Definition auto_refresh : M unit :=
  do newRowCount <- rowCount (createIndex 0 0 None);
  do old <- gets _rowCount;
  if negb (old =? newRowCount) then
    run emit ModelReset;
    run set_rowCount newRowCount;
    do v <- gets _view;
    if v then emit AutoresizeColumns else ret tt
  else ret tt.

Definition refresh : M unit :=
  run load;
  emit ModelReset.

Definition _start_timer : M unit := emit (TimerStart refreshtime).

(** [__init__]: the state in which the constructor body runs, then the
    body. *)
Definition fresh (design : dict) (view : bool) : model :=
  mkModel design [Branch (mkBranchNode "" None [])] 0%nat ["Name"; "Value"] []
          (-1) view [].

Definition init (design : dict) (view : bool) : result unit * model :=
  (run _start_timer; load) (fresh design view).

(** ** Reading the tree off the store *)

(** The tree hanging from a node, with the address of every node. *)
#[local] Unset Elimination Schemes.
Inductive atree :=
| ALeaf (r : ref) (l : LeafNode)
| ABranch (r : ref) (nm : string) (par : option ref) (kids : list atree).
#[local] Set Elimination Schemes.

Definition aref (t : atree) : ref :=
  match t with
  | ALeaf r _ => r
  | ABranch r _ _ _ => r
  end.

Definition aname (t : atree) : string :=
  match t with
  | ALeaf _ l => label l
  | ABranch _ nm _ _ => nm
  end.

Fixpoint all_some {A} (l : list (option A)) : option (list A) :=
  match l with
  | [] => Some []
  | Some x :: l' =>
      match all_some l' with
      | Some xs => Some (x :: xs)
      | None => None
      end
  | None :: _ => None
  end.

(** Follow the child lists from address [r], at most [fuel] levels
    deep. *)
Fixpoint reify (fuel : nat) (h : heap) (r : ref) : option atree :=
  match fuel with
  | O => None
  | S fuel' =>
      match h !! r with
      | None => None
      | Some (Leaf l) => Some (ALeaf r l)
      | Some (Branch b) =>
          match all_some (map (fun c => reify fuel' h (snd c)) (children b)) with
          | Some kids => Some (ABranch r (name b) (b_parent b) kids)
          | None => None
          end
      end
  end.

(** The current tree of the model. No chain of children is longer than
    the store. *)
Definition tree (st : model) : option atree :=
  reify (length (store st)) (store st) (root st).

(** Shape and contents of a tree, without addresses and parent links:
    the name of a branch; label, key path and value of a leaf, the
    value being what reading it gives. *)
#[local] Unset Elimination Schemes.
Inductive shape :=
| SLeaf (lbl : string) (p : list string) (v : result pyvalue)
| SBranch (nm : string) (kids : list shape).
#[local] Set Elimination Schemes.

(** The tree as it shows over the dictionary [d]. *)
Fixpoint erase (d : dict) (t : atree) : shape :=
  match t with
  | ALeaf _ l => SLeaf (label l) (path l) (value_in d l)
  | ABranch _ nm _ kids => SBranch nm (map (erase d) kids)
  end.

(** A (path, value) pair as a tree gives it: the keys, and what reading
    the value gives. *)
Definition pathvalue := (list string * result pyvalue)%type.

(** A recorded path whose scalar is read without error. *)
Definition reads (p : leafpath) : pathvalue := (fst p, Ok (Scalar (snd p))).

(** Flattening back to (path, value) pairs, depth first, by position:
    the keys of a leaf are the names of the branches passed on the way
    down from below [prefix], then its label; the value is the leaf's. *)
Fixpoint flatten_below (prefix : list string) (s : shape) : list pathvalue :=
  match s with
  | SLeaf lbl _ v => [(prefix ++ [lbl], v)]
  | SBranch nm kids => flat_map (flatten_below (prefix ++ [nm])) kids
  end.

(** Flattening a whole tree; the root stands for the dictionary itself
    and adds no key. *)
Definition flatten (s : shape) : list pathvalue :=
  match s with
  | SLeaf _ _ _ => flatten_below [] s
  | SBranch _ kids => flat_map (flatten_below []) kids
  end.

(** The (path, value) pair each leaf holds by itself: its own key path
    and its value. *)
Fixpoint fields (s : shape) : list pathvalue :=
  match s with
  | SLeaf _ p v => [(p, v)]
  | SBranch _ kids => flat_map fields kids
  end.

Definition tree_shape (st : model) : option shape :=
  erase (data_dict st) <$> tree st.

(** ** Functional account of tree construction *)

Definition sname (s : shape) : string :=
  match s with
  | SLeaf lbl _ _ => lbl
  | SBranch nm _ => nm
  end.

(** First child filed under [key], with its row. *)
Fixpoint find_kid (key : string) (kids : list shape) (i : nat) : option (nat * shape) :=
  match kids with
  | [] => None
  | k :: kids' =>
      if String.eqb key (sname k) then Some (i, k) else find_kid key kids' (S i)
  end.

(** What one iteration of the outer loop of [load] does to the child
    list of the node it stands on: find or create the branch for every
    key, then append the leaf. A branch found empty counts as not
    found; walking into a leaf is an attribute error. *)
Fixpoint ins (keys : list string) (lf : shape) (kids : list shape)
  : result (list shape) :=
  match keys with
  | [] => Ok (kids ++ [lf])
  | key :: keys' =>
      match find_kid key kids 0 with
      | Some (i, SBranch nm (k :: sub)) =>
          match ins keys' lf (k :: sub) with
          | Ok sub' => Ok (<[i := SBranch nm sub']> kids)
          | Raise e => Raise e
          end
      | Some (_, SLeaf _ _ _) => Raise AttributeError
      | _ =>
          match ins keys' lf [] with
          | Ok sub' => Ok (kids ++ [SBranch key sub'])
          | Raise e => Raise e
          end
      end
  end.

(** Insertion of a recorded path into the node [depth] levels below the
    root. *)
Definition ins_path (depth : nat) (acc : result (list shape)) (p : leafpath)
  : result (list shape) :=
  match acc, last (fst p) with
  | Ok kids, Some lbl =>
      ins (drop depth (but_last (fst p))) (SLeaf lbl (fst p) (Ok (Scalar (snd p)))) kids
  | Ok _, None => Raise IndexError
  | Raise e, _ => Raise e
  end.

Arguments ins_path : simpl never.

Definition build (depth : nat) (ps : list leafpath) (kids : list shape)
  : result (list shape) :=
  fold_left (ins_path depth) ps (Ok kids).

(** The tree the dictionary calls for: a leaf per scalar entry, a
    branch per mapping entry that holds a scalar at some depth, in item
    order. A mapping with no scalar below it gets no node. *)
Fixpoint mirror_value (k : string) (v : pyvalue) (prefix : list string) : list shape :=
  match v with
  | Scalar s => [SLeaf k (prefix ++ [k]) (Ok (Scalar s))]
  | Dict items =>
      match flat_map (fun kv => mirror_value (fst kv) (snd kv) (prefix ++ [k])) items with
      | [] => []
      | sub => [SBranch k sub]
      end
  end.

Definition mirror_items (items : dict) (prefix : list string) : list shape :=
  flat_map (fun kv => mirror_value (fst kv) (snd kv) prefix) items.

Definition mirror (d : dict) : shape := SBranch "" (mirror_items d []).

(** ** Store invariant *)

Fixpoint addrs (t : atree) : list ref :=
  match t with
  | ALeaf r _ => [r]
  | ABranch r _ _ kids => r :: flat_map addrs kids
  end.

Fixpoint subtrees (t : atree) : list atree :=
  match t with
  | ALeaf _ _ => [t]
  | ABranch _ _ _ kids => t :: flat_map subtrees kids
  end.

Definition entry (t : atree) : string * ref := (aname t, aref t).

(** The store holds tree [t] below a node whose parent link is [pr]:
    every node sits at its address, lists its children in order and
    points back at its parent. *)
Fixpoint rep (h : heap) (pr : option ref) (t : atree) : Prop :=
  match t with
  | ALeaf r l => h !! r = Some (Leaf l) /\ l_parent l = pr
  | ABranch r nm par kids =>
      par = pr /\
      h !! r = Some (Branch (mkBranchNode nm par (map entry kids))) /\
      (fix all (l : list atree) : Prop :=
         match l with
         | [] => True
         | k :: l' => rep h (Some r) k /\ all l'
         end) kids
  end.

(** The relative keys of a path recorded below [pre]. *)
Definition under (pre : list string) (p : leafpath) : Prop :=
  exists r lbl, fst p = pre ++ r ++ [lbl].

(** The paths below one entry build the mirror of that entry. *)
Definition builds (v : pyvalue) : Prop :=
  forall k prefix kids,
    wf_value v = true -> ~ In k (map sname kids) ->
    build (length prefix) (paths_of v (prefix ++ [k])) kids
    = Ok (kids ++ mirror_value k v prefix).

(** The rest of an iteration of the outer loop of [load], from the
    point where the inner loop stands on [r]. *)
Definition walk (keys : list string) (r : ref) (branch : option ref) (p : leafpath)
  : M unit :=
  do rb <- load_descend keys r branch;
  load_attach p (fst rb) (snd rb).

(** Outcome of running the rest of an iteration on a store that holds
    the branch [r] with children [kids]: the store afterwards holds [r]
    with children [kids'], and differs from the old one only inside the
    tree or by fresh addresses. *)
Definition walk_result (st : model) (r : ref) (nm : string) (par : option ref)
    (kids : list atree) (out : result unit * model) (ks' : list shape) : Prop :=
  exists h' kids',
    out = (Ok tt, with_store h' st) /\
    rep h' par (ABranch r nm par kids') /\
    NoDup (addrs (ABranch r nm par kids')) /\
    map (erase (data_dict st)) kids' = ks' /\
    (length (store st) <= length h')%nat /\
    (forall a, (a < length (store st))%nat ->
               ~ In a (addrs (ABranch r nm par kids)) -> h' !! a = store st !! a) /\
    (forall a, In a (addrs (ABranch r nm par kids')) ->
               In a (addrs (ABranch r nm par kids)) \/ (length (store st) <= a)%nat).

(** Number of levels of a tree. *)
Fixpoint depth (t : atree) : nat :=
  match t with
  | ALeaf _ _ => 1
  | ABranch _ _ _ kids => S (foldr (fun k m => Nat.max (depth k) m) 0%nat kids)
  end.

(** The root object is the one [__init__] made: a branch with the empty
    name and no parent. *)
Definition root_ok (st : model) : bool :=
  match store st !! root st with
  | Some (Branch b) =>
      String.eqb (name b) "" && match b_parent b with None => true | Some _ => false end
  | _ => false
  end.

(** The store holds a tree below the root object. *)
Definition tree_inv (st : model) (t : atree) : Prop :=
  aref t = root st /\ rep (store st) None t /\ NoDup (addrs t).

(** ** What the specification says, and sample models *)

(** The tree as the shape contract words it: a mapping with a single
    leaf directly inside is represented by that leaf alone, every other
    mapping by a branch. *)
Fixpoint claimed_value (k : string) (v : pyvalue) (prefix : list string) : list shape :=
  match v with
  | Scalar s => [SLeaf k (prefix ++ [k]) (Ok (Scalar s))]
  | Dict [(k', Scalar s)] => [SLeaf k' ((prefix ++ [k]) ++ [k']) (Ok (Scalar s))]
  | Dict items =>
      [SBranch k (flat_map (fun kv => claimed_value (fst kv) (snd kv) (prefix ++ [k])) items)]
  end.

Definition claimed_mirror (d : dict) : shape :=
  SBranch "" (flat_map (fun kv => claimed_value (fst kv) (snd kv) []) d).

(** No two children of a branch are filed under the same name. *)
Fixpoint distinct_names (s : shape) : bool :=
  match s with
  | SLeaf _ _ _ => true
  | SBranch _ kids =>
      bool_decide (NoDup (map sname kids)) && forallb distinct_names kids
  end.

(** The parent-navigation sentence for leaves: a leaf has no parent. *)
Definition leaves_have_no_parent (st : model) : Prop :=
  forall idx r l,
    isValid idx = true -> internalPointer idx = Some r ->
    store st !! r = Some (Leaf l) ->
    parent idx st = (Ok QModelIndex_null, st).

(** An index without a node: not valid, or valid with a null internal
    pointer (a row that is out of range, a detached position). *)
Definition nodeless (idx : QModelIndex) : Prop :=
  isValid idx = false \/ internalPointer idx = None.

(** The error-handling sentence: on such an index every query returns,
    and returns its empty answer. *)
Definition answers_empty (st : model) (idx : QModelIndex) : Prop :=
  rowCount idx st = (Ok 0, st) /\
  data idx DisplayRole st = (Ok QVariant_null, st) /\
  (forall v, setData idx v EditRole st = (Ok false, st)) /\
  parent idx st = (Ok QModelIndex_null, st) /\
  (exists f, flags idx st = (Ok f, st)) /\
  (forall r c, exists i, index r c idx st = (Ok i, st)).

(** The part of the state that makes up the tree. *)
Definition tree_part (st : model) : heap * ref * list leafpath :=
  (store st, root st, paths st).

(** A computation leaves an observation of the state as it was. *)
Definition keeps {A B} (f : model -> B) (m : M A) : Prop :=
  forall st, f (snd (m st)) = f st.

Definition D_flat : dict := [("a", Scalar (SInt 1))].
Definition D_nested : dict := [("x", Dict [("y", Scalar (SInt 2))])].
Definition D_mixed : dict :=
  [("a", Scalar (SInt 1)); ("x", Dict [("y", Scalar (SInt 2)); ("z", Scalar (SInt 3))])].
Definition D_hollow : dict := [("e", Dict [])].

(** The model right after construction over each sample dictionary. *)
Definition st_flat : model := snd (init D_flat true).
Definition st_nested : model := snd (init D_nested true).

(** The first timer tick after construction over [D_flat], then a key
    ["b"] added to the dictionary from outside the model. *)
Definition st_ticked : model := snd (auto_refresh st_flat).
Definition st_grown : model :=
  with_data_dict (D_flat ++ [("b", Scalar (SInt 2))]) st_ticked.

(** The node an index stands for, as [nodeFromIndex] finds it. *)
Definition node_at (idx : QModelIndex) (st : model) : option ref :=
  if isValid idx then internalPointer idx else Some (root st).


(** ** Histories of the model *)

(** What can happen to a model between two moments: one of its state
    changing methods is called, or the application puts other content
    into the source dictionary. *)
Inductive action :=
| ActLoad
| ActRefresh
| ActTick
| ActSetData (idx : QModelIndex) (v : scalar) (role : ItemDataRole)
| ActOutside (d : dict).

Definition act (st : model) (a : action) : model :=
  match a with
  | ActLoad => snd (load st)
  | ActRefresh => snd (refresh st)
  | ActTick => snd (auto_refresh st)
  | ActSetData idx v role => snd (setData idx v role st)
  | ActOutside d => with_data_dict d st
  end.

(** Content put in from outside is a Python dict, so its keys are
    distinct. *)
Definition allowed (a : action) : bool :=
  match a with
  | ActOutside d => wf_dict d
  | _ => true
  end.

Definition model_inv (st : model) : bool :=
  root_ok st && wf_dict (data_dict st)
  && bool_decide (headers st = ["Name"; "Value"])
  && ((_rowCount st =? -1) || (_rowCount st =? 0)).

(** Replacing the value recorded for key path [q]. *)
Definition upd (q : list string) (v : scalar) (p : leafpath) : leafpath :=
  if bool_decide (fst p = q) then (fst p, v) else p.

(** The key path of every leaf spells the names of the branches above
    it and ends in the leaf's label. *)
Fixpoint spelled (prefix : list string) (s : shape) : bool :=
  match s with
  | SLeaf lbl p _ => bool_decide (p = prefix ++ [lbl])
  | SBranch nm kids => forallb (spelled (prefix ++ [nm])) kids
  end.

(** No branch is without children. *)
Fixpoint populated (s : shape) : bool :=
  match s with
  | SLeaf _ _ _ => true
  | SBranch _ kids =>
      match kids with [] => false | _ :: _ => true end && forallb populated kids
  end.

Definition kids_of (s : shape) : list shape :=
  match s with
  | SLeaf _ _ _ => []
  | SBranch _ kids => kids
  end.

(** A value that holds a scalar at some depth. *)
Definition holds_scalar (v : pyvalue) : bool :=
  match paths_of v [] with
  | [] => false
  | _ :: _ => true
  end.

(** The model over [D_nested] after [7] has been written over the [2]
    of its one leaf. *)
Definition st_edited : model :=
  snd (setData (mkIndex 0 1 (Some 2%nat) true) (SInt 7) EditRole st_nested).

(** The sentence on a repeated write: once a write of [v] has
    succeeded, writing [v] again succeeds again. *)
Definition rewrite_succeeds (st : model) (idx : QModelIndex) (v : scalar) : Prop :=
  forall st1,
    setData idx v EditRole st = (Ok true, st1) ->
    exists st2, setData idx v EditRole st1 = (Ok true, st2).

(** The model over [D_nested] after the application emptied the
    dictionary, and after it removed only the key ["y"] inside ["x"];
    the tree is not rebuilt in either. *)
Definition st_emptied : model := with_data_dict [] st_nested.
Definition st_pruned : model := with_data_dict [("x", Dict [])] st_nested.

(** Every leaf object carries a key path that ends in its label. *)
Definition leaf_ok (n : node) : bool :=
  match n with
  | Leaf l => bool_decide (last (path l) = Some (label l))
  | Branch _ => true
  end.

Definition leaves_ok (st : model) : bool := forallb leaf_ok (store st).

(** A computation maintains a property of the state, whether it
    returns or raises. *)
Definition maintains (P : model -> Prop) {A} (m : M A) : Prop :=
  forall st, P st -> P (snd (m st)).

(** * Proofs *)

(** ** Dictionaries *)

Lemma pyvalue_ind (P : pyvalue -> Prop) :
  (forall s, P (Scalar s)) ->
  (forall items, Forall (fun kv => P (snd kv)) items -> P (Dict items)) ->
  forall v, P v.
Proof.
  intros Hs Hd. fix IH 1. intros [s|items]; [apply Hs|].
  apply Hd. induction items as [|[k v] items IHi]; constructor; [apply IH|apply IHi].
Qed.

Lemma wf_value_Dict items :
  wf_value (Dict items) = true ->
  NoDup (map fst items) /\ Forall (fun kv => wf_value (snd kv) = true) items.
Proof.
  simpl. intros [Hn Hf]%andb_prop. split.
  - by apply bool_decide_eq_true in Hn.
  - apply Forall_forall. intros kv Hin.
    rewrite forallb_forall in Hf. apply Hf. by apply list_elem_of_In.
Qed.

Lemma eqb_refl' (k : string) : String.eqb k k = true.
Proof. apply String.eqb_refl. Qed.

Lemma getitem_In (d : dict) k v :
  NoDup (map fst d) -> In (k, v) d -> getitem d k = Ok v.
Proof.
  induction d as [|[k' v'] d IH]; simpl; [done|].
  intros Hnd [Heq|Hin].
  - inversion Heq; subst. by rewrite eqb_refl'.
  - apply NoDup_cons in Hnd as [Hnotin Hnd].
    destruct (String.eqb_spec k k') as [->|Hne].
    + exfalso. apply Hnotin. apply list_elem_of_In.
      change k' with (fst (k', v)). by apply in_map.
    + by apply IH.
Qed.

Lemma getitem_setitem d k v : getitem (setitem d k v) k = Ok v.
Proof.
  induction d as [|[k' v'] d IH]; simpl.
  - by rewrite eqb_refl'.
  - destruct (String.eqb_spec k k') as [->|Hne]; simpl.
    + by rewrite eqb_refl'.
    + destruct (String.eqb_spec k k'); [done|]. apply IH.
Qed.

Lemma setitem_same d k v : getitem d k = Ok v -> setitem d k v = d.
Proof.
  induction d as [|[k' v'] d IH]; simpl; [done|].
  destruct (String.eqb_spec k k') as [->|Hne].
  - by intros [= ->].
  - intros H. by rewrite IH.
Qed.

(** ** Recorded paths *)

Lemma paths_of_prefix v cur p :
  In p (paths_of v cur) -> exists rel, fst p = cur ++ rel.
Proof.
  revert cur p. induction v as [s|items IH] using pyvalue_ind; intros cur p; simpl.
  - intros [<-|[]]. exists []. by rewrite app_nil_r.
  - rewrite in_flat_map. intros [[k v] [Hin Hp]]. simpl in Hp.
    rewrite Forall_forall in IH.
    destruct (IH (k, v) (proj2 (list_elem_of_In _ _) Hin) _ _ Hp) as [rel Hrel].
    exists (k :: rel). rewrite Hrel. by rewrite <- app_assoc.
Qed.

(** Every path recorded below a dictionary ends in a key of its own. *)
Lemma paths_of_Dict_under items cur p :
  In p (paths_of (Dict items) cur) ->
  exists r lbl, fst p = cur ++ r ++ [lbl].
Proof.
  simpl. rewrite in_flat_map. intros [[k v] [_ Hp]]. simpl in Hp.
  apply paths_of_prefix in Hp as [rel Hrel].
  destruct (@exists_last _ (k :: rel)) as [r [lbl Hr]]; [done|].
  exists r, lbl. rewrite Hrel, <- app_assoc. simpl. by rewrite Hr.
Qed.

Lemma paths_of_lookup v cur rel s :
  wf_value v = true ->
  In (cur ++ rel, s) (paths_of v cur) ->
  get_nested_dict_item v rel = Ok (Scalar s).
Proof.
  revert cur rel. induction v as [s'|items IH] using pyvalue_ind; intros cur rel Hwf; simpl.
  - intros [Heq|[]]. inversion Heq as [[Hc Hs]].
    assert (rel = []) as ->.
    { apply (f_equal length) in Hc. rewrite length_app in Hc.
      destruct rel; [done|simpl in Hc; lia]. }
    done.
  - apply wf_value_Dict in Hwf as [Hnd Hwf].
    rewrite in_flat_map. intros [[k v] [Hin Hp]]. simpl in Hp.
    destruct (paths_of_prefix _ _ _ Hp) as [rel' Hrel']. simpl in Hrel'.
    rewrite <- app_assoc in Hrel'. apply app_inv_head in Hrel'. subst rel.
    simpl. rewrite (getitem_In _ _ _ Hnd Hin).
    rewrite Forall_forall in IH, Hwf.
    pose proof (proj2 (list_elem_of_In _ _) Hin) as Hin'.
    apply (IH _ Hin' (cur ++ [k])); [by apply Hwf|].
    simpl. by rewrite <- app_assoc.
Qed.

(** ** Insertion on shapes *)

Lemma find_kid_None key kids i :
  ~ In key (map sname kids) -> find_kid key kids i = None.
Proof.
  revert i. induction kids as [|k kids IH]; intros i Hn; simpl; [done|].
  destruct (String.eqb_spec key (sname k)) as [->|Hne].
  - exfalso. apply Hn. by left.
  - apply IH. intros Hin. apply Hn. by right.
Qed.

Lemma find_kid_last key kids k i :
  ~ In key (map sname kids) -> sname k = key ->
  find_kid key (kids ++ [k]) i = Some ((i + length kids)%nat, k).
Proof.
  revert i. induction kids as [|k0 kids IH]; intros i Hn Hk; simpl.
  - rewrite Hk, eqb_refl'. do 2 f_equal. lia.
  - destruct (String.eqb_spec key (sname k0)) as [->|Hne].
    + exfalso. apply Hn. by left.
    + rewrite IH; [|intros Hin; apply Hn; by right|done]. do 2 f_equal. lia.
Qed.

Lemma insert_last {A} (l : list A) (x y : A) :
  <[length l := y]> (l ++ [x]) = l ++ [y].
Proof. induction l; simpl; [done|]. by f_equal. Qed.

Lemma ins_nonempty keys lf kids kids' :
  ins keys lf kids = Ok kids' -> kids' <> [].
Proof.
  destruct keys as [|key keys]; simpl.
  - intros [= <-]. by destruct kids.
  - destruct (find_kid key kids 0) as [[i [l p v|nm [|k sub]]]|] eqn:Hf.
    + done.
    + destruct (ins keys lf []); [|done]. intros [= <-]. by destruct kids.
    + destruct (ins keys lf (k :: sub)); [|done]. intros [= <-].
      intros Hnil. apply (f_equal length) in Hnil.
      rewrite length_insert in Hnil.
      destruct kids; [|done]. done.
    + destruct (ins keys lf []); [|done]. intros [= <-]. by destruct kids.
Qed.

Lemma build_Raise depth ps e :
  fold_left (ins_path depth) ps (Raise e) = Raise e.
Proof. induction ps as [|p ps IH]; simpl; [done|apply IH]. Qed.

Lemma build_app depth ps qs kids :
  build depth (ps ++ qs) kids =
  match build depth ps kids with
  | Ok kids' => build depth qs kids'
  | Raise e => Raise e
  end.
Proof.
  unfold build. rewrite fold_left_app.
  destruct (fold_left (ins_path depth) ps (Ok kids)); [done|apply build_Raise].
Qed.

Lemma build_nonempty depth p ps kids kids' :
  build depth (p :: ps) kids = Ok kids' -> kids' <> [].
Proof.
  unfold build. revert p kids. induction ps as [|q ps IH]; intros p kids.
  - simpl. unfold ins_path. destruct (last (fst p)); [|done]. apply ins_nonempty.
  - intros H. change (fold_left (ins_path depth) (q :: ps)
                        (ins_path depth (Ok kids) p) = Ok kids') in H.
    destruct (ins_path depth (Ok kids) p) as [kids1|e] eqn:H1.
    + apply (IH q kids1). exact H.
    + by rewrite build_Raise in H.
Qed.

Lemma under_ins_path pre p kids :
  under pre p ->
  exists r lbl, fst p = pre ++ r ++ [lbl] /\
    ins_path (length pre) (Ok kids) p = ins r (SLeaf lbl (fst p) (Ok (Scalar (snd p)))) kids.
Proof.
  intros (r & lbl & Hp). exists r, lbl. split; [done|].
  unfold ins_path, but_last. rewrite Hp.
  rewrite app_assoc, last_snoc, removelast_last.
  by rewrite drop_app_length.
Qed.

Lemma under_snoc pre k p r lbl :
  fst p = (pre ++ [k]) ++ r ++ [lbl] -> under pre p.
Proof. intros Hp. exists (k :: r), lbl. rewrite Hp. by rewrite <- app_assoc. Qed.

(** Paths that all pass through key [k] build one branch [k], whose
    children are what the paths build one level down. *)
Lemma build_lift_started pre k ps kids sub :
  Forall (under (pre ++ [k])) ps ->
  ~ In k (map sname kids) -> sub <> [] ->
  build (length pre) ps (kids ++ [SBranch k sub]) =
  match build (S (length pre)) ps sub with
  | Ok sub' => Ok (kids ++ [SBranch k sub'])
  | Raise e => Raise e
  end.
Proof.
  intros Hall Hk. revert sub. induction Hall as [|p ps Hp Hall IH]; intros sub Hsub.
  - done.
  - unfold build. simpl.
    destruct (under_ins_path _ p sub Hp) as (r & lbl & Hfst & Hins).
    rewrite length_app in Hins. simpl in Hins.
    replace (length pre + 1)%nat with (S (length pre)) in Hins by lia.
    rewrite Hins.
    destruct (under_ins_path pre p (kids ++ [SBranch k sub]) (under_snoc _ _ _ _ _ Hfst))
      as (r' & lbl' & Hfst' & Hins').
    rewrite Hfst in Hfst'. rewrite <- app_assoc in Hfst'.
    apply app_inv_head in Hfst'. simpl in Hfst'.
    change (k :: r ++ [lbl]) with ((k :: r) ++ [lbl]) in Hfst'.
    apply app_inj_tail in Hfst' as [<- <-].
    rewrite Hins'. simpl.
    rewrite (find_kid_last k kids (SBranch k sub) 0 Hk eq_refl). simpl.
    destruct sub as [|k1 sub1]; [done|].
    destruct (ins r (SLeaf lbl (fst p) (Ok (Scalar (snd p)))) (k1 :: sub1)) as [sub'|e] eqn:Hr.
    + rewrite insert_last. apply IH. apply (ins_nonempty _ _ _ _ Hr).
    + by rewrite !build_Raise.
Qed.

Lemma build_lift pre k p ps kids :
  Forall (under (pre ++ [k])) (p :: ps) ->
  ~ In k (map sname kids) ->
  build (length pre) (p :: ps) kids =
  match build (S (length pre)) (p :: ps) [] with
  | Ok sub' => Ok (kids ++ [SBranch k sub'])
  | Raise e => Raise e
  end.
Proof.
  intros Hall Hk. inversion Hall as [|? ? Hp Hall']; subst.
  unfold build. simpl.
  destruct (under_ins_path _ p [] Hp) as (r & lbl & Hfst & Hins).
  rewrite length_app in Hins. simpl in Hins.
  replace (length pre + 1)%nat with (S (length pre)) in Hins by lia.
  rewrite Hins.
  destruct (under_ins_path pre p kids (under_snoc _ _ _ _ _ Hfst))
    as (r' & lbl' & Hfst' & Hins').
  rewrite Hfst in Hfst'. rewrite <- app_assoc in Hfst'.
  apply app_inv_head in Hfst'. simpl in Hfst'.
  change (k :: r ++ [lbl]) with ((k :: r) ++ [lbl]) in Hfst'.
  apply app_inj_tail in Hfst' as [<- <-].
  rewrite Hins'. simpl.
  rewrite (find_kid_None k kids 0 Hk).
  destruct (ins r (SLeaf lbl (fst p) (Ok (Scalar (snd p)))) []) as [sub'|e] eqn:Hr.
  - apply (build_lift_started pre k ps kids sub' Hall' Hk).
    apply (ins_nonempty _ _ _ _ Hr).
  - by rewrite !build_Raise.
Qed.

(** ** The paths of a dictionary build its mirror *)

Lemma mirror_value_names k v prefix :
  forall s, In s (mirror_value k v prefix) -> sname s = k.
Proof.
  destruct v as [s0|items]; simpl.
  - intros s [<-|[]]. done.
  - destruct (flat_map _ items); simpl; [done|]. intros s' [<-|[]]. done.
Qed.

Lemma build_items items :
  Forall (fun kv => builds (snd kv)) items ->
  forall prefix kids,
    NoDup (map fst items) ->
    Forall (fun kv => wf_value (snd kv) = true) items ->
    (forall k, In k (map fst items) -> ~ In k (map sname kids)) ->
    build (length prefix)
          (flat_map (fun kv => paths_of (snd kv) (prefix ++ [fst kv])) items) kids
    = Ok (kids ++ mirror_items items prefix).
Proof.
  induction 1 as [|[k v] items Hv Hitems IH]; intros prefix kids Hnd Hwf Hfresh.
  - simpl. unfold mirror_items. simpl. by rewrite app_nil_r.
  - simpl. rewrite build_app. simpl in Hv. unfold builds in Hv.
    apply NoDup_cons in Hnd as [Hk Hnd].
    apply Forall_cons in Hwf as [Hwfv Hwf].
    rewrite (Hv k prefix kids Hwfv); [|apply Hfresh; by left].
    rewrite IH; [|done|done|].
    + unfold mirror_items. simpl. by rewrite app_assoc.
    + intros k' Hk' Hin. rewrite map_app, in_app_iff in Hin.
      destruct Hin as [Hin|Hin].
      * apply (Hfresh k'); [by right|done].
      * apply in_map_iff in Hin as (s & Hs & Hin).
        apply mirror_value_names in Hin. simpl in Hin.
        apply Hk. apply list_elem_of_In. rewrite <- Hin, Hs. exact Hk'.
Qed.

Lemma build_value v : builds v.
Proof.
  induction v as [s|items IH] using pyvalue_ind; intros k prefix kids Hwf Hk.
  - simpl. unfold build. simpl. unfold ins_path, but_last. simpl.
    rewrite last_snoc, removelast_last, drop_all. done.
  - apply wf_value_Dict in Hwf as [Hnd Hwf].
    pose proof (build_items items IH (prefix ++ [k]) [] Hnd Hwf) as Hsub.
    rewrite length_app in Hsub. simpl in Hsub.
    replace (length prefix + 1)%nat with (S (length prefix)) in Hsub by lia.
    specialize (Hsub (fun _ _ H => H)). simpl in Hsub.
    change (mirror_value k (Dict items) prefix)
      with (match mirror_items items (prefix ++ [k]) with
            | [] => []
            | sub => [SBranch k sub]
            end).
    assert (Forall (under (prefix ++ [k]))
              (paths_of (Dict items) (prefix ++ [k]))) as Hunder.
    { apply Forall_forall. intros p Hp. apply list_elem_of_In in Hp.
      by apply paths_of_Dict_under in Hp. }
    simpl in Hunder. simpl.
    destruct (flat_map (fun kv => paths_of (snd kv) ((prefix ++ [k]) ++ [fst kv])) items)
      as [|p ps] eqn:Hps.
    + unfold build in Hsub. simpl in Hsub. injection Hsub as <-.
      unfold build. simpl. by rewrite app_nil_r.
    + rewrite (build_lift prefix k p ps kids Hunder Hk). rewrite Hsub.
      pose proof (build_nonempty _ _ _ _ _ Hsub) as Hne.
      destruct (mirror_items items (prefix ++ [k])); [done|done].
Qed.

Lemma build_dict (d : dict) :
  wf_dict d = true ->
  build 0 (paths_of (Dict d) []) [] = Ok (mirror_items d []).
Proof.
  intros Hwf. apply wf_value_Dict in Hwf as [Hnd Hwf].
  apply (build_items d) with (prefix := []) (kids := []); try done.
  - apply Forall_forall. intros kv _. apply build_value.
  - intros k _ [].
Qed.

Lemma flatten_mirror_value k v prefix :
  flat_map (flatten_below prefix) (mirror_value k v prefix)
  = map reads (paths_of v (prefix ++ [k])).
Proof.
  revert k prefix. induction v as [s|items IH] using pyvalue_ind; intros k prefix.
  - done.
  - change (mirror_value k (Dict items) prefix)
      with (match mirror_items items (prefix ++ [k]) with
            | [] => []
            | sub => [SBranch k sub]
            end).
    assert (flat_map (flatten_below (prefix ++ [k])) (mirror_items items (prefix ++ [k]))
            = map reads (paths_of (Dict items) (prefix ++ [k]))) as Hsub.
    { simpl. unfold mirror_items. generalize (prefix ++ [k]) as pre. intros pre.
      induction IH as [|[k' v'] items Hv _ IHi]; simpl; [done|].
      rewrite flat_map_app, map_app. by rewrite Hv, IHi. }
    destruct (mirror_items items (prefix ++ [k])) as [|s sub] eqn:Hm.
    + by rewrite <- Hsub.
    + rewrite <- Hsub. simpl. by rewrite app_nil_r.
Qed.

Lemma flatten_mirror (d : dict) : flatten (mirror d) = map reads (paths_of (Dict d) []).
Proof.
  simpl. unfold mirror_items. induction d as [|[k v] d IH]; simpl; [done|].
  rewrite flat_map_app, map_app. by rewrite flatten_mirror_value, IH.
Qed.

(** ** The store invariant *)

Lemma atree_ind (P : atree -> Prop) :
  (forall r l, P (ALeaf r l)) ->
  (forall r nm par kids, Forall P kids -> P (ABranch r nm par kids)) ->
  forall t, P t.
Proof.
  intros Hl Hb. fix IH 1. intros [r l|r nm par kids]; [apply Hl|].
  apply Hb. induction kids as [|k kids IHk]; constructor; [apply IH|apply IHk].
Qed.

Lemma rep_branch h pr r nm par kids :
  rep h pr (ABranch r nm par kids) <->
  par = pr /\
  h !! r = Some (Branch (mkBranchNode nm par (map entry kids))) /\
  Forall (rep h (Some r)) kids.
Proof.
  simpl. split; intros (Hp & Hr & Hk); (split; [done|split; [done|]]); clear Hr.
  - induction kids as [|k kids IH]; [constructor|].
    destruct Hk as [Hk1 Hk2]. constructor; [done|by apply IH].
  - induction Hk as [|k kids Hk _ IH]; [done|by split].
Qed.

Lemma rep_bound h pr t a : rep h pr t -> In a (addrs t) -> (a < length h)%nat.
Proof.
  revert pr. induction t as [r l|r nm par kids IH] using atree_ind; intros pr.
  - simpl. intros [Hr _] [<-|[]]. by eapply lookup_lt_Some.
  - rewrite rep_branch. intros (_ & Hr & Hk). simpl. intros [<-|Hin].
    + by eapply lookup_lt_Some.
    + apply in_flat_map in Hin as (k & Hk1 & Hk2).
      apply list_elem_of_In in Hk1.
      rewrite Forall_forall in IH, Hk. by eapply IH; [|apply Hk|].
Qed.

Lemma rep_frame h h' pr t :
  (forall a, In a (addrs t) -> h' !! a = h !! a) ->
  rep h pr t -> rep h' pr t.
Proof.
  revert pr. induction t as [r l|r nm par kids IH] using atree_ind; intros pr Hfr.
  - simpl. intros [Hr Hp]. split; [|done]. rewrite Hfr; [done|by left].
  - rewrite !rep_branch. intros (Hp & Hr & Hk). split; [done|]. split.
    + rewrite Hfr; [done|by left].
    + rewrite Forall_forall in IH, Hk. apply Forall_forall. intros k Hin.
      apply IH; [done| |by apply Hk].
      intros a Ha. apply Hfr. simpl. right. apply in_flat_map.
      exists k. split; [by apply list_elem_of_In|done].
Qed.

Lemma sname_erase d t : sname (erase d t) = aname t.
Proof. by destruct t. Qed.

(** Lookup by key in the child list of a node and in the shapes of its
    children agree. *)
Lemma find_kid_entry d key kids :
  match find_kid key (map (erase d) kids) 0 with
  | Some (i, s) =>
      exists l1 k l2, kids = l1 ++ k :: l2 /\ i = length l1 /\ s = erase d k /\
        aname k = key /\
        find (fun c => String.eqb key (fst c)) (map entry kids) = Some (entry k)
  | None =>
      find (fun c => String.eqb key (fst c)) (map entry kids) = None /\
      ~ In key (map sname (map (erase d) kids))
  end.
Proof.
  assert (forall i,
    match find_kid key (map (erase d) kids) i with
    | Some (j, s) =>
        exists l1 k l2, kids = l1 ++ k :: l2 /\ j = (i + length l1)%nat /\ s = erase d k /\
          aname k = key /\
          find (fun c => String.eqb key (fst c)) (map entry kids) = Some (entry k)
    | None =>
        find (fun c => String.eqb key (fst c)) (map entry kids) = None /\
        ~ In key (map sname (map (erase d) kids))
    end) as H.
  { induction kids as [|k kids IH]; intros i; simpl.
    - split; [done|tauto].
    - rewrite sname_erase.
      destruct (String.eqb_spec key (aname k)) as [Heq|Hne].
      + exists [], k, kids. simpl. repeat split; try done; lia.
      + specialize (IH (S i)).
        destruct (find_kid key (map (erase d) kids) (S i)) as [[j s]|].
        * destruct IH as (l1 & k' & l2 & -> & -> & -> & Hk' & Hf).
          exists (k :: l1), k', l2. simpl. repeat split; try done; lia.
        * destruct IH as [Hf Hn]. split; [done|]. intros [Heq|Hin]; [|done].
          congruence. }
  specialize (H 0%nat). destruct (find_kid key (map (erase d) kids) 0) as [[j s]|]; [|done].
  destruct H as (l1 & k & l2 & ? & ? & ?). exists l1, k, l2. repeat split; tauto.
Qed.

Lemma addrs_kids_split l1 (k : atree) l2 :
  flat_map addrs (l1 ++ k :: l2) = flat_map addrs l1 ++ addrs k ++ flat_map addrs l2.
Proof. by rewrite flat_map_app. Qed.

Lemma NoDup_mid_inv (A1 K A2 : list ref) (r : ref) :
  NoDup (r :: A1 ++ K ++ A2) ->
  ~ In r K /\
  (forall a, In a A1 \/ In a A2 -> ~ In a K) /\
  NoDup (r :: A1 ++ A2).
Proof.
  rewrite !NoDup_cons, !NoDup_app, !not_elem_of_app.
  intros ((Hr1 & Hr2 & Hr3) & H1 & H12 & HK & HK2 & H2).
  split; [by rewrite <- list_elem_of_In|]. split.
  - intros a [Ha|Ha] HaK; rewrite <- !list_elem_of_In in *.
    + apply (H12 a Ha). apply elem_of_app. by left.
    + by apply (HK2 a HaK).
  - repeat split; try done.
    intros a Ha Ha2. apply (H12 a Ha). apply elem_of_app. by right.
Qed.

Lemma NoDup_mid_intro (A1 K' A2 : list ref) (r : ref) :
  NoDup (r :: A1 ++ A2) -> NoDup K' ->
  ~ In r K' ->
  (forall a, In a A1 \/ In a A2 -> ~ In a K') ->
  NoDup (r :: A1 ++ K' ++ A2).
Proof.
  rewrite !NoDup_cons, !NoDup_app, !not_elem_of_app.
  intros ((Hr1 & Hr2) & H1 & H12 & H2) HK HrK Hdis.
  repeat split; try done.
  - by rewrite list_elem_of_In.
  - intros a Ha [HaK|Ha2]%elem_of_app.
    + apply (Hdis a); [left|]; by apply list_elem_of_In.
    + by apply (H12 a).
  - intros a HaK Ha2. apply (Hdis a); [right|]; by apply list_elem_of_In.
Qed.

(** Replacing one child by a tree at the same address, built in a store
    that agrees with the old one outside that child. *)
Lemma rep_replace_kid h h' r nm par l1 k l2 k' :
  rep h par (ABranch r nm par (l1 ++ k :: l2)) ->
  NoDup (addrs (ABranch r nm par (l1 ++ k :: l2))) ->
  entry k' = entry k ->
  rep h' (Some r) k' -> NoDup (addrs k') ->
  (forall a, (a < length h)%nat -> ~ In a (addrs k) -> h' !! a = h !! a) ->
  (forall a, In a (addrs k') -> In a (addrs k) \/ (length h <= a)%nat) ->
  rep h' par (ABranch r nm par (l1 ++ k' :: l2)) /\
  NoDup (addrs (ABranch r nm par (l1 ++ k' :: l2))) /\
  (forall a, In a (addrs (ABranch r nm par (l1 ++ k' :: l2))) ->
             In a (addrs (ABranch r nm par (l1 ++ k :: l2))) \/ (length h <= a)%nat).
Proof.
  intros Hrep Hnd Hentry Hk' Hndk' Hframe Hnew.
  pose proof (rep_bound _ _ _ r Hrep (or_introl eq_refl)) as Hrlt.
  assert (forall a, In a (addrs (ABranch r nm par (l1 ++ k :: l2))) ->
                    (a < length h)%nat) as Hbound.
  { intros a. by apply rep_bound with (pr := par). }
  apply rep_branch in Hrep as (_ & Hr & Hkids).
  simpl in Hnd, Hbound. rewrite addrs_kids_split in Hnd, Hbound.
  apply NoDup_mid_inv in Hnd as (HrK & Hdis & Hnd).
  apply Forall_app in Hkids as [Hl1 Hl2]. apply Forall_cons in Hl2 as [Hk Hl2].
  assert (forall l, Forall (rep h (Some r)) l ->
            (forall a, In a (flat_map addrs l) -> (a < length h)%nat /\ ~ In a (addrs k)) ->
            Forall (rep h' (Some r)) l) as Hmove.
  { intros l Hl Hin. rewrite Forall_forall in Hl. apply Forall_forall. intros x Hx.
    apply rep_frame with (h := h); [|by apply Hl].
    intros a Ha. destruct (Hin a) as [Hlt Hn].
    { apply in_flat_map. exists x. split; [by apply list_elem_of_In|done]. }
    by apply Hframe. }
  split; [|split].
  - apply rep_branch. split; [done|]. split.
    + rewrite Hframe; [|done|done].
      replace (map entry (l1 ++ k' :: l2)) with (map entry (l1 ++ k :: l2)); [done|].
      rewrite !map_app. simpl. by rewrite Hentry.
    + apply Forall_app. split; [|apply Forall_cons; split; [done|]].
      * apply Hmove; [done|]. intros a Ha. split.
        -- apply Hbound. right. rewrite !in_app_iff. by left.
        -- apply Hdis. by left.
      * apply Hmove; [done|]. intros a Ha. split.
        -- apply Hbound. right. rewrite !in_app_iff. right. by right.
        -- apply Hdis. by right.
  - simpl. rewrite addrs_kids_split. apply NoDup_mid_intro; [done|done| |].
    + intros Hin. destruct (Hnew _ Hin) as [?|?]; [done|lia].
    + intros a Ha Hin. destruct (Hnew _ Hin) as [HaK|Hge].
      * by apply (Hdis a).
      * assert (a < length h)%nat; [|lia].
        apply Hbound. right. rewrite !in_app_iff. tauto.
  - simpl. rewrite !addrs_kids_split. intros a [->|Ha]; [by left; left|].
    rewrite !in_app_iff in Ha. destruct Ha as [Ha|[Ha|Ha]].
    + left. right. rewrite !in_app_iff. tauto.
    + destruct (Hnew _ Ha) as [?|?]; [|by right].
      left. right. rewrite !in_app_iff. tauto.
    + left. right. rewrite !in_app_iff. tauto.
Qed.

(** ** Running the node methods *)

Lemma bind_run {A B} (m : M A) (f : A -> M B) st a st' :
  m st = (Ok a, st') -> bind m f st = f a st'.
Proof. unfold bind. by intros ->. Qed.

Lemma bind_assoc {A B C} (m : M A) (f : A -> M B) (g : B -> M C) st :
  bind (bind m f) g st = bind m (fun a => bind (f a) g) st.
Proof. unfold bind. destruct (m st) as [[a|e] st']; done. Qed.

Lemma deref_run st r n : store st !! r = Some n -> deref r st = (Ok n, st).
Proof. unfold deref. by intros ->. Qed.

Lemma truth_run st r n :
  store st !! r = Some n -> truth (Some r) st = (Ok (node_truth n), st).
Proof. intros H. unfold truth. by rewrite (bind_run _ _ _ _ _ (deref_run _ _ _ H)). Qed.

Lemma insertChild_run st r c b cn :
  store st !! r = Some (Branch b) -> store st !! c = Some cn -> r <> c ->
  insertChild r c st =
  (Ok tt, with_store (<[r := Branch (mkBranchNode (name b) (b_parent b)
                                       (children b ++ [(node_key cn, c)]))]>
                        (<[c := set_parent (Some r) cn]> (store st))) st).
Proof.
  intros Hr Hc Hne. unfold insertChild.
  rewrite (bind_run _ _ _ _ _ (deref_run _ _ _ Hr)).
  rewrite (bind_run _ _ _ _ _ (deref_run _ _ _ Hc)).
  unfold bind at 1. simpl. unfold bind at 1. simpl.
  assert (store (with_store (<[c:=set_parent (Some r) cn]> (store st)) st) !! r
          = Some (Branch b)) as Hr'.
  { simpl. by rewrite list_lookup_insert_ne. }
  rewrite (bind_run _ _ _ _ _ (deref_run _ _ _ Hr')).
  done.
Qed.

Lemma new_branch_run st r b key :
  store st !! r = Some (Branch b) ->
  (do b' <- BranchNode_new key; run insertChild r b'; ret b') st =
  (Ok (length (store st)),
   with_store (<[r := Branch (mkBranchNode (name b) (b_parent b)
                                (children b ++ [(key, length (store st))]))]>
                 (<[length (store st) := Branch (mkBranchNode key (Some r) [])]>
                    (store st ++ [Branch (mkBranchNode key None [])]))) st).
Proof.
  intros Hr. unfold BranchNode_new.
  pose proof (lookup_lt_Some _ _ _ Hr) as Hlt.
  rewrite (bind_run (new (Branch (mkBranchNode key None []))) _ st _ _ eq_refl).
  set (st1 := with_store (store st ++ [Branch (mkBranchNode key None [])]) st).
  assert (store st1 !! r = Some (Branch b)) as Hr1.
  { simpl. rewrite lookup_app_l; [done|lia]. }
  assert (store st1 !! length (store st) = Some (Branch (mkBranchNode key None []))) as Hc1.
  { simpl. rewrite lookup_app_r; [|lia]. by rewrite Nat.sub_diag. }
  rewrite (bind_run _ _ _ _ _ (insertChild_run st1 r _ b _ Hr1 Hc1 ltac:(lia))).
  reflexivity.
Qed.

(** Appending a freshly allocated single node to the children of [r]. *)
Lemma rep_append_kid h r nm par kids k nd x :
  rep h par (ABranch r nm par kids) ->
  NoDup (addrs (ABranch r nm par kids)) ->
  addrs k = [length h] ->
  (forall h', h' !! length h = Some nd -> rep h' (Some r) k) ->
  let h1 := <[r := Branch (mkBranchNode nm par (map entry kids ++ [entry k]))]>
              (<[length h := nd]> (h ++ [x])) in
  rep h1 par (ABranch r nm par (kids ++ [k])) /\
  NoDup (addrs (ABranch r nm par (kids ++ [k]))) /\
  length h1 = S (length h) /\
  (forall a, (a < length h)%nat -> a <> r -> h1 !! a = h !! a).
Proof.
  intros Hrep Hnd Hk Hnew h1.
  pose proof (rep_bound _ _ _ r Hrep (or_introl eq_refl)) as Hrlt.
  assert (forall a, In a (addrs (ABranch r nm par kids)) -> (a < length h)%nat) as Hbound.
  { intros a. by apply rep_bound with (pr := par). }
  assert (length h1 = S (length h)) as Hlen.
  { unfold h1. rewrite !length_insert, length_app. simpl. lia. }
  assert (forall a, (a < length h)%nat -> a <> r -> h1 !! a = h !! a) as Hframe.
  { intros a Ha Hne. unfold h1.
    rewrite list_lookup_insert_ne; [|done].
    rewrite list_lookup_insert_ne; [|lia].
    by rewrite lookup_app_l. }
  apply rep_branch in Hrep as (_ & Hr & Hkids).
  split; [|split; [|done]].
  - apply rep_branch. split; [done|]. split.
    + unfold h1. rewrite list_lookup_insert_eq.
      * by rewrite map_app.
      * rewrite length_insert, length_app. simpl. lia.
    + apply Forall_app. split.
      * rewrite Forall_forall in Hkids. apply Forall_forall. intros y Hy.
        apply rep_frame with (h := h); [|by apply Hkids].
        intros a Ha.
        assert (In a (flat_map addrs kids)) as Hin.
        { apply in_flat_map. exists y. split; [by apply list_elem_of_In|done]. }
        apply Hframe.
        -- apply Hbound. by right.
        -- intros ->. simpl in Hnd. apply NoDup_cons in Hnd as [Hnot _].
           apply Hnot. by apply list_elem_of_In.
      * apply Forall_singleton. apply Hnew. unfold h1.
        rewrite list_lookup_insert_ne; [|lia].
        rewrite list_lookup_insert_eq; [done|].
        rewrite length_app. simpl. lia.
  - simpl. rewrite flat_map_app. simpl. rewrite Hk, app_nil_r.
    simpl in Hnd. apply NoDup_cons in Hnd as [Hnot Hnd].
    apply NoDup_cons. split.
    + rewrite not_elem_of_app. split; [done|].
      rewrite list_elem_of_singleton. lia.
    + apply NoDup_app. split; [done|]. split; [|apply NoDup_singleton].
      intros a Ha. rewrite list_elem_of_singleton. intros ->.
      assert (length h < length h)%nat; [|lia].
      apply Hbound. right. by apply list_elem_of_In.
Qed.

(** ** One path, on the store *)

Lemma attach_run st r nm par kids branch p lbl :
  rep (store st) par (ABranch r nm par kids) ->
  branch = None \/ branch = Some r ->
  last (fst p) = Some lbl ->
  load_attach p r branch st =
  (Ok tt,
   with_store
     (<[r := Branch (mkBranchNode nm par (map entry kids ++ [(lbl, length (store st))]))]>
        (<[length (store st) := Leaf (mkLeafNode lbl (Some r) (fst p))]>
           (store st ++ [Leaf (mkLeafNode lbl (Some r) (fst p))]))) st).
Proof.
  intros Hrep Hbr Hlast.
  apply rep_branch in Hrep as (_ & Hr & _).
  pose proof (lookup_lt_Some _ _ _ Hr) as Hlt.
  unfold load_attach.
  assert (exists t, truth branch st = (Ok t, st) /\
            (if negb t then ret r
             else match branch with Some b => ret b | None => ret r end) st
            = (Ok r, st)) as (t & Ht & Htarget).
  { destruct Hbr as [->| ->].
    - exists false. done.
    - eexists. split; [by apply truth_run|]. by destruct (negb _). }
  rewrite (bind_run _ _ _ _ _ Ht), (bind_run _ _ _ _ _ Htarget).
  assert (insertChild_of r st = (Ok tt, st)) as Hmeth.
  { unfold insertChild_of. by rewrite (bind_run _ _ _ _ _ (deref_run _ _ _ Hr)). }
  rewrite (bind_run _ _ _ _ _ Hmeth).
  assert (lift (last_item (fst p)) st = (Ok lbl, st)) as Hlbl.
  { unfold lift, last_item. by rewrite Hlast. }
  rewrite (bind_run _ _ _ _ _ Hlbl).
  set (leaf := Leaf (mkLeafNode lbl (Some r) (fst p))).
  assert (LeafNode_new lbl r (fst p) st
          = (Ok (length (store st)), with_store (store st ++ [leaf]) st)) as Hnew
    by reflexivity.
  rewrite (bind_run _ _ _ _ _ Hnew).
  set (st1 := with_store (store st ++ [leaf]) st).
  assert (store st1 !! r = Some (Branch (mkBranchNode nm par (map entry kids)))) as Hr1.
  { simpl. rewrite lookup_app_l; [done|lia]. }
  assert (store st1 !! length (store st) = Some leaf) as Hc1.
  { simpl. rewrite lookup_app_r; [|lia]. by rewrite Nat.sub_diag. }
  rewrite (insertChild_run st1 r _ _ _ Hr1 Hc1 ltac:(lia)).
  reflexivity.
Qed.

Lemma find_or_create_found st r nm par l1 rk nmk park k1 sub l2 key :
  rep (store st) par (ABranch r nm par (l1 ++ ABranch rk nmk park (k1 :: sub) :: l2)) ->
  find (fun c => String.eqb key (fst c))
       (map entry (l1 ++ ABranch rk nmk park (k1 :: sub) :: l2))
  = Some (nmk, rk) ->
  find_or_create r key st = (Ok rk, st).
Proof.
  intros Hrep Hfind. apply rep_branch in Hrep as (_ & Hr & Hkids).
  apply Forall_app in Hkids as [_ Hkids]. apply Forall_cons in Hkids as [Hk _].
  apply rep_branch in Hk as (_ & Hrk & _).
  unfold find_or_create.
  assert (childWithKey r key st = (Ok (Some rk), st)) as Hc.
  { unfold childWithKey. rewrite (bind_run _ _ _ _ _ (deref_run _ _ _ Hr)).
    simpl. by rewrite Hfind. }
  rewrite (bind_run _ _ _ _ _ Hc).
  rewrite (bind_run _ _ _ _ _ (truth_run _ _ _ Hrk)).
  done.
Qed.

Lemma find_or_create_new st r nm par kids key :
  rep (store st) par (ABranch r nm par kids) ->
  match find (fun c => String.eqb key (fst c)) (map entry kids) with
  | Some c => store st !! snd c = Some (Branch (mkBranchNode (fst c) (Some r) []))
  | None => True
  end ->
  find_or_create r key st =
  (Ok (length (store st)),
   with_store (<[r := Branch (mkBranchNode nm par (map entry kids ++ [(key, length (store st))]))]>
                 (<[length (store st) := Branch (mkBranchNode key (Some r) [])]>
                    (store st ++ [Branch (mkBranchNode key None [])]))) st).
Proof.
  intros Hrep Hfind. apply rep_branch in Hrep as (_ & Hr & Hkids).
  unfold find_or_create.
  destruct (find _ (map entry kids)) as [c|] eqn:Hf.
  - assert (childWithKey r key st = (Ok (Some (snd c)), st)) as Hc.
    { unfold childWithKey. rewrite (bind_run _ _ _ _ _ (deref_run _ _ _ Hr)).
      simpl. by rewrite Hf. }
    rewrite (bind_run _ _ _ _ _ Hc).
    rewrite (bind_run _ _ _ _ _ (truth_run _ _ _ Hfind)). simpl.
    by rewrite (new_branch_run st r _ key Hr).
  - assert (childWithKey r key st = (Ok None, st)) as Hc.
    { unfold childWithKey. rewrite (bind_run _ _ _ _ _ (deref_run _ _ _ Hr)).
      simpl. by rewrite Hf. }
    rewrite (bind_run _ _ _ _ _ Hc).
    rewrite (bind_run (truth None) _ st false st eq_refl).
    by rewrite (new_branch_run st r _ key Hr).
Qed.

Lemma walk_cons key keys r branch p st :
  walk (key :: keys) r branch p st =
  bind (find_or_create r key) (fun b => walk keys b (Some b) p) st.
Proof. unfold walk. simpl. apply bind_assoc. Qed.

Lemma walk_spec keys :
  forall st r nm par kids branch p lbl v ks',
    rep (store st) par (ABranch r nm par kids) ->
    NoDup (addrs (ABranch r nm par kids)) ->
    branch = None \/ branch = Some r ->
    last (fst p) = Some lbl ->
    get_nested_dict_item (Dict (data_dict st)) (fst p) = Ok (Scalar v) ->
    ins keys (SLeaf lbl (fst p) (Ok (Scalar v))) (map (erase (data_dict st)) kids) = Ok ks' ->
    walk_result st r nm par kids (walk keys r branch p st) ks'.
Proof.
  induction keys as [|key keys IH];
    intros st r nm par kids branch p lbl v ks' Hrep Hnd Hbr Hlast Hget Hins.
  - (* the leaf is attached *)
    simpl in Hins. injection Hins as <-.
    unfold walk. rewrite (bind_run (load_descend [] r branch) _ st _ _ eq_refl). simpl.
    rewrite (attach_run st r nm par kids branch p lbl Hrep Hbr Hlast).
    set (lf := mkLeafNode lbl (Some r) (fst p)).
    destruct (rep_append_kid (store st) r nm par kids (ALeaf (length (store st)) lf)
                (Leaf lf) (Leaf lf) Hrep Hnd eq_refl)
      as (Hrep' & Hnd' & Hlen & Hframe).
    { intros h' Hh'. simpl. done. }
    eexists _, (kids ++ [ALeaf (length (store st)) lf]).
    split; [reflexivity|]. split; [exact Hrep'|]. split; [exact Hnd'|].
    split; [rewrite map_app; simpl; unfold value_in; simpl; by rewrite Hget|].
    split; [exact (eq_ind_r (fun n => (length (store st) <= n)%nat)
                            (Nat.le_succ_diag_r _) Hlen)|].
    split.
    + intros a Ha Hn. apply Hframe; [done|]. intros ->. apply Hn. by left.
    + simpl. rewrite flat_map_app. simpl. intros a [->|Ha]; [by left; left|].
      rewrite in_app_iff in Ha. destruct Ha as [Ha|[<-|[]]].
      * left. by right.
      * right. lia.
  - (* one level down *)
    rewrite walk_cons.
    assert (forall sub',
              match find (fun c => String.eqb key (fst c)) (map entry kids) with
              | Some c => store st !! snd c = Some (Branch (mkBranchNode (fst c) (Some r) []))
              | None => True
              end ->
              ins keys (SLeaf lbl (fst p) (Ok (Scalar v))) [] = Ok sub' ->
              walk_result st r nm par kids
                (bind (find_or_create r key) (fun b => walk keys b (Some b) p) st)
                (map (erase (data_dict st)) kids ++ [SBranch key sub'])) as Hcreate.
    { intros sub' Hfind Hsub.
      rewrite (bind_run _ _ _ _ _ (find_or_create_new st r nm par kids key Hrep Hfind)).
      set (n := length (store st)).
      set (k0 := ABranch n key (Some r) []).
      destruct (rep_append_kid (store st) r nm par kids k0
                  (Branch (mkBranchNode key (Some r) []))
                  (Branch (mkBranchNode key None [])) Hrep Hnd eq_refl)
        as (Hrep1 & Hnd1 & Hlen1 & Hframe1).
      { intros h' Hh'. apply rep_branch. done. }
      simpl in Hrep1, Hlen1, Hframe1. fold n in Hrep1, Hlen1, Hframe1.
      match goal with
      | |- walk_result _ _ _ _ _ (walk _ _ _ _ ?s) _ => set (st1 := s)
      end.
      assert (rep (store st1) (Some r) k0) as Hk0.
      { apply rep_branch in Hrep1 as (_ & _ & Hk).
        apply Forall_app in Hk as [_ Hk]. apply Forall_cons in Hk as [Hk _]. exact Hk. }
      destruct (IH st1 n key (Some r) [] (Some n) p lbl v sub' Hk0)
        as (h' & kk' & Hrun & Hrep' & Hnd' & Herase & Hlen' & Hframe' & Hnew');
        [apply NoDup_singleton|by right|done|done|done|].
      destruct (rep_replace_kid (store st1) h' r nm par kids k0 [] (ABranch n key (Some r) kk')
                  Hrep1 Hnd1 eq_refl Hrep' Hnd' Hframe' Hnew')
        as (Hrep2 & Hnd2 & Hnew2).
      exists h', (kids ++ [ABranch n key (Some r) kk']).
      split; [by rewrite Hrun|]. split; [done|]. split; [done|].
      split; [rewrite map_app; simpl; simpl in Herase; by rewrite Herase|].
      assert (length (store st1) = S n) as Hl1 by exact Hlen1.
      split; [fold n; lia|]. split.
      - intros a Ha Hn. fold n in Ha.
        rewrite Hframe'; [|rewrite Hl1; lia|simpl; lia].
        apply Hframe1; [done|]. intros ->. apply Hn. by left.
      - intros a Ha. destruct (Hnew2 a Ha) as [Hold|Hge].
        + simpl in Hold. rewrite flat_map_app in Hold. simpl in Hold.
          destruct Hold as [->|Hold]; [by left; left|].
          rewrite in_app_iff in Hold. destruct Hold as [Hold|[<-|[]]].
          * left. by right.
          * right. fold n. lia.
        + right. fold n. rewrite Hl1 in Hge. lia. }
    simpl in Hins.
    pose proof (find_kid_entry (data_dict st) key kids) as Hfk.
    destruct (find_kid key (map (erase (data_dict st)) kids) 0) as [[i s]|].
    + destruct Hfk as (l1 & k & l2 & -> & -> & -> & Hname & Hfind).
      destruct k as [rk lf|rk nmk park [|k1 sub]]; simpl in Hins; [done| |].
      * (* an empty branch counts as missing *)
        destruct (ins keys (SLeaf lbl (fst p) (Ok (Scalar v))) []) as [sub'|e] eqn:Hsub; [|done].
        injection Hins as <-. simpl in Hname. subst nmk.
        apply Hcreate; [|done]. rewrite Hfind. simpl.
        apply rep_branch in Hrep as (_ & _ & Hk).
        apply Forall_app in Hk as [_ Hk]. apply Forall_cons in Hk as [Hk _].
        apply rep_branch in Hk as (-> & Hrk & _). done.
      * (* an existing branch is reused *)
        destruct (ins keys (SLeaf lbl (fst p) (Ok (Scalar v))) (erase (data_dict st) k1 :: map (erase (data_dict st)) sub))
          as [sub'|e] eqn:Hsub; [|done].
        injection Hins as <-.
        rewrite (bind_run _ _ _ _ _
                   (find_or_create_found st r nm par l1 rk nmk park k1 sub l2 key Hrep Hfind)).
        assert (rep (store st) park (ABranch rk nmk park (k1 :: sub))) as Hk.
        { apply rep_branch in Hrep as (_ & _ & Hk).
          apply Forall_app in Hk as [_ Hk]. apply Forall_cons in Hk as [Hk _].
          pose proof Hk as Hk'. apply rep_branch in Hk' as (-> & _). done. }
        assert (NoDup (addrs (ABranch rk nmk park (k1 :: sub)))) as Hndk.
        { simpl in Hnd. rewrite addrs_kids_split in Hnd.
          apply NoDup_cons in Hnd as [_ Hnd].
          apply NoDup_app in Hnd as (_ & _ & Hnd).
          by apply NoDup_app in Hnd as (Hnd & _ & _). }
        destruct (IH st rk nmk park (k1 :: sub) (Some rk) p lbl v sub' Hk Hndk)
          as (h' & kk' & Hrun & Hrep' & Hnd' & Herase & Hlen' & Hframe' & Hnew');
          [by right|done|done|done|].
        assert (park = Some r) as ->.
        { apply rep_branch in Hrep as (_ & _ & Hk0).
          apply Forall_app in Hk0 as [_ Hk0]. apply Forall_cons in Hk0 as [Hk0 _].
          by apply rep_branch in Hk0 as (-> & _). }
        destruct (rep_replace_kid (store st) h' r nm par l1 _ l2 (ABranch rk nmk (Some r) kk')
                    Hrep Hnd eq_refl Hrep' Hnd' Hframe' Hnew')
          as (Hrep2 & Hnd2 & Hnew2).
        exists h', (l1 ++ ABranch rk nmk (Some r) kk' :: l2).
        split; [done|]. split; [done|]. split; [done|]. split.
        { rewrite !map_app. simpl. rewrite Herase.
          rewrite <- (length_map (erase (data_dict st)) l1). by rewrite insert_app_r_alt, Nat.sub_diag. }
        split; [done|]. split; [|done].
        intros a Ha Hn. apply Hframe'; [done|]. intros Hin. apply Hn.
        simpl. right. rewrite addrs_kids_split, !in_app_iff. right. by left.
    + destruct Hfk as [Hfind Hnone].
      destruct (ins keys (SLeaf lbl (fst p) (Ok (Scalar v))) []) as [sub'|e] eqn:Hsub; [|done].
      injection Hins as <-.
      apply Hcreate; [by rewrite Hfind|done].
Qed.

(** ** All paths, and [load] *)

Lemma load_path_walk p st :
  load_path p st = walk (but_last (fst p)) (root st) None p st.
Proof. reflexivity. Qed.

Lemma for_each_load ps :
  forall st nm kids ks',
    rep (store st) None (ABranch (root st) nm None kids) ->
    NoDup (addrs (ABranch (root st) nm None kids)) ->
    Forall (fun p => get_nested_dict_item (Dict (data_dict st)) (fst p)
                     = Ok (Scalar (snd p))) ps ->
    build 0 ps (map (erase (data_dict st)) kids) = Ok ks' ->
    exists h' kids',
      for_each ps load_path st = (Ok tt, with_store h' st) /\
      rep h' None (ABranch (root st) nm None kids') /\
      NoDup (addrs (ABranch (root st) nm None kids')) /\
      map (erase (data_dict st)) kids' = ks'.
Proof.
  induction ps as [|p ps IH]; intros st nm kids ks' Hrep Hnd Hget Hbuild.
  - exists (store st), kids. unfold build in Hbuild. simpl in Hbuild.
    injection Hbuild as <-. split; [by destruct st|done].
  - apply Forall_cons in Hget as [Hp Hget].
    unfold build in Hbuild. simpl in Hbuild.
    destruct (ins_path 0 (Ok (map (erase (data_dict st)) kids)) p) as [ks1|e] eqn:Hins;
      [|by rewrite build_Raise in Hbuild].
    unfold ins_path in Hins. destruct (last (fst p)) as [lbl|] eqn:Hlast; [|done].
    rewrite drop_0 in Hins.
    destruct (walk_spec (but_last (fst p)) st (root st) nm None kids None p lbl (snd p) ks1
                Hrep Hnd (or_introl eq_refl) Hlast Hp Hins)
      as (h1 & kids1 & Hrun & Hrep1 & Hnd1 & Herase1 & _).
    rewrite <- load_path_walk in Hrun.
    change (for_each (p :: ps) load_path st)
      with (bind (load_path p) (fun _ => for_each ps load_path) st).
    rewrite (bind_run _ _ _ _ _ Hrun).
    destruct (IH (with_store h1 st) nm kids1 ks' Hrep1 Hnd1 Hget)
      as (h' & kids' & Hrun' & Hrep' & Hnd' & Herase').
    { simpl. by rewrite Herase1. }
    exists h', kids'. rewrite Hrun'. done.
Qed.

Lemma paths_of_dict_lookup (d : dict) :
  wf_dict d = true ->
  Forall (fun p => get_nested_dict_item (Dict d) (fst p) = Ok (Scalar (snd p)))
         (paths_of (Dict d) []).
Proof.
  intros Hwf. apply Forall_forall. intros [ks v] Hin. apply list_elem_of_In in Hin.
  simpl. by apply (paths_of_lookup (Dict d) [] ks v Hwf).
Qed.

Lemma root_ok_inv st :
  root_ok st = true ->
  exists kids, store st !! root st = Some (Branch (mkBranchNode "" None kids)).
Proof.
  unfold root_ok. destruct (store st !! root st) as [[[nm par kids]|l]|]; try done.
  simpl. intros [Hn Hp]%andb_prop. apply String.eqb_eq in Hn. subst nm.
  destruct par; [done|]. by exists kids.
Qed.

(** [load] runs to the end and leaves, below the root object, a tree
    with the shape of the dictionary's mirror. *)
Lemma load_spec st :
  root_ok st = true -> wf_dict (data_dict st) = true ->
  exists h' kids',
    load st =
      (Ok tt, mkModel (data_dict st) h' (root st) (headers st)
                      (paths_of (Dict (data_dict st)) []) (_rowCount st) (_view st)
                      ((emitted st ++ [ModelAboutToBeReset]) ++ [ModelReset])) /\
    rep h' None (ABranch (root st) "" None kids') /\
    NoDup (addrs (ABranch (root st) "" None kids')) /\
    map (erase (data_dict st)) kids' = mirror_items (data_dict st) [].
Proof.
  intros Hroot Hwf. destruct (root_ok_inv st Hroot) as [kids0 Hr].
  pose proof (lookup_lt_Some _ _ _ Hr) as Hlt.
  unfold load.
  rewrite (bind_run (emit ModelAboutToBeReset) _ st _ _ eq_refl).
  match goal with |- context [bind (set_paths []) _ ?s] => set (st1 := s) end.
  rewrite (bind_run (set_paths []) _ st1 _ _ eq_refl).
  match goal with |- context [bind clear_root_children _ ?s] => set (st2 := s) end.
  set (h0 := <[root st := Branch (mkBranchNode "" None [])]> (store st)).
  assert (clear_root_children st2 = (Ok tt, with_store h0 st2)) as Hclear.
  { unfold clear_root_children.
    rewrite (bind_run (gets root) _ st2 _ _ eq_refl).
    rewrite (bind_run _ _ _ _ _ (deref_run st2 (root st) _ Hr)). reflexivity. }
  rewrite (bind_run _ _ _ _ _ Hclear).
  rewrite (bind_run (gets data_dict) _ (with_store h0 st2) _ _ eq_refl).
  rewrite (bind_run (getPaths _ _) _ (with_store h0 st2) _ _ eq_refl).
  match goal with |- context [bind (gets paths) _ ?s] => set (st3 := s) end.
  rewrite (bind_run (gets paths) _ st3 _ _ eq_refl).
  destruct (for_each_load (paths_of (Dict (data_dict st)) []) st3 "" []
              (mirror_items (data_dict st) []))
    as (h' & kids' & Hrun & Hrep & Hnd & Herase).
  - apply rep_branch. split; [done|]. split; [|constructor].
    simpl. unfold h0. by rewrite list_lookup_insert_eq.
  - simpl. apply NoDup_singleton.
  - by apply paths_of_dict_lookup.
  - by apply build_dict.
  - exists h', kids'. split; [|done].
    change (paths st3) with (paths_of (Dict (data_dict st)) []).
    rewrite (bind_run _ _ _ _ _ Hrun). reflexivity.
Qed.

(** ** Reading the tree back *)

Lemma depth_le_addrs t : (depth t <= length (addrs t))%nat.
Proof.
  induction t as [r l|r nm par kids IH] using atree_ind; simpl; [lia|].
  apply le_n_S. induction IH as [|k kids Hk _ IHk]; simpl; [lia|].
  rewrite length_app. lia.
Qed.

Lemma addrs_le_store h pr t :
  rep h pr t -> NoDup (addrs t) -> (length (addrs t) <= length h)%nat.
Proof.
  intros Hrep Hnd.
  assert (addrs t ⊆+ seq 0 (length h)) as Hsub.
  { apply NoDup_submseteq; [done|].
    intros a Ha. apply elem_of_seq. apply list_elem_of_In in Ha.
    pose proof (rep_bound _ _ _ _ Hrep Ha). lia. }
  apply submseteq_length in Hsub. by rewrite length_seq in Hsub.
Qed.

Lemma all_some_map {A B} (f : A -> option B) (g : B -> A) (l : list B) :
  Forall (fun x => f (g x) = Some x) l -> all_some (map f (map g l)) = Some l.
Proof. induction 1 as [|x l Hx _ IH]; simpl; [done|]. by rewrite Hx, IH. Qed.

Lemma reify_rep h t :
  forall fuel pr, rep h pr t -> (depth t <= fuel)%nat -> reify fuel h (aref t) = Some t.
Proof.
  induction t as [r l|r nm par kids IH] using atree_ind; intros fuel pr Hrep Hd.
  - destruct fuel; [simpl in Hd; lia|]. simpl in *. destruct Hrep as [-> _]. done.
  - destruct fuel; [simpl in Hd; lia|].
    apply rep_branch in Hrep as (_ & Hr & Hkids).
    simpl. rewrite Hr. simpl.
    rewrite (all_some_map (fun c => reify fuel h (snd c)) entry kids); [done|].
    simpl in Hd. apply le_S_n in Hd. clear Hr.
    revert Hd. induction IH as [|k kids Hk _ IHk]; intros Hd; [constructor|].
    apply Forall_cons in Hkids as [Hk1 Hk2]. simpl in Hd.
    constructor.
    + simpl. apply (Hk fuel (Some r)); [done|]. by eapply Nat.max_lub_l.
    + apply IHk; [done|]. by eapply Nat.max_lub_r.
Qed.

Lemma tree_inv_tree st t : tree_inv st t -> tree st = Some t.
Proof.
  intros (Href & Hrep & Hnd). unfold tree. rewrite <- Href.
  apply reify_rep with (pr := None); [done|].
  pose proof (depth_le_addrs t). pose proof (addrs_le_store _ _ _ Hrep Hnd). lia.
Qed.

Lemma getitem_Ok_In (d : dict) k v : getitem d k = Ok v -> In (k, v) d.
Proof.
  induction d as [|[k' v'] d IH]; simpl; [done|].
  destruct (String.eqb_spec k k') as [->|Hne].
  - intros [= ->]. by left.
  - intros H. right. by apply IH.
Qed.

Lemma lookup_paths_of v cur rel s :
  get_nested_dict_item v rel = Ok (Scalar s) -> In (cur ++ rel, s) (paths_of v cur).
Proof.
  revert cur rel. induction v as [s'|items IH] using pyvalue_ind; intros cur rel.
  - destruct rel; simpl; [|done]. intros [= ->]. left. by rewrite app_nil_r.
  - destruct rel as [|x rel]; simpl; [done|].
    destruct (getitem items x) as [v'|e] eqn:Hx; [|done].
    intros Hget. apply getitem_Ok_In in Hx.
    apply in_flat_map. exists (x, v'). split; [done|]. simpl.
    rewrite Forall_forall in IH.
    specialize (IH (x, v') (proj2 (list_elem_of_In _ _) Hx) (cur ++ [x]) rel Hget).
    by rewrite <- app_assoc in IH.
Qed.

(** The recorded paths are exactly the key paths that lead to a scalar. *)
Lemma paths_of_iff (d : dict) ks v :
  wf_dict d = true ->
  In (ks, v) (paths_of (Dict d) []) <->
  get_nested_dict_item (Dict d) ks = Ok (Scalar v).
Proof.
  intros Hwf. split.
  - intros Hin. by apply (paths_of_lookup (Dict d) [] ks v Hwf).
  - intros Hget. by apply (lookup_paths_of (Dict d) [] ks v).
Qed.

(** After [load], the model holds the mirror of the dictionary. *)
Lemma load_tree st :
  root_ok st = true -> wf_dict (data_dict st) = true ->
  exists st' t,
    load st = (Ok tt, st') /\
    tree_inv st' t /\
    erase (data_dict st) t = mirror (data_dict st) /\
    data_dict st' = data_dict st /\
    root st' = root st /\
    paths st' = paths_of (Dict (data_dict st)) [] /\
    root_ok st' = true.
Proof.
  intros Hroot Hwf.
  destruct (load_spec st Hroot Hwf) as (h' & kids' & Hrun & Hrep & Hnd & Herase).
  eexists _, (ABranch (root st) "" None kids'). split; [exact Hrun|].
  split; [done|]. split; [simpl; by rewrite Herase|].
  repeat split; try done.
  apply rep_branch in Hrep as (_ & Hr & _). unfold root_ok. simpl. by rewrite Hr.
Qed.

(** ** Writing into the dictionary *)

Lemma get_nested_snoc_Dict v p k x :
  get_nested_dict_item v (p ++ [k]) = Ok x -> exists d, v = Dict d.
Proof. destruct v as [s'|d]; [by destruct p|by exists d]. Qed.

Lemma assign_nested_ok pre :
  forall d k s v,
    get_nested_dict_item (Dict d) (pre ++ [k]) = Ok s ->
    exists d', assign_nested d pre k v = Ok d' /\
               get_nested_dict_item (Dict d') (pre ++ [k]) = Ok v.
Proof.
  induction pre as [|x pre IH]; intros d k s v; simpl.
  - intros _. eexists. split; [done|]. by rewrite getitem_setitem.
  - destruct (getitem d x) as [v1|e] eqn:Hx; [|done]. intros Hget.
    destruct (get_nested_snoc_Dict _ _ _ _ Hget) as [d1 ->].
    destruct (IH d1 k s v Hget) as (d1' & Hassign & Hget').
    rewrite Hassign. eexists. split; [done|]. by rewrite getitem_setitem.
Qed.

(** ** Nodes of the tree *)

Lemma rep_subtree h t :
  forall pr s, rep h pr t -> In s (subtrees t) -> exists pr', rep h pr' s.
Proof.
  induction t as [r l|r nm par kids IH] using atree_ind; intros pr s Hrep.
  - simpl. intros [<-|[]]. by exists pr.
  - simpl. intros [<-|Hin]; [by exists pr|].
    apply rep_branch in Hrep as (_ & _ & Hkids).
    apply in_flat_map in Hin as (k & Hk & Hs).
    apply list_elem_of_In in Hk.
    rewrite Forall_forall in IH, Hkids. by apply (IH k Hk (Some r)); [apply Hkids|].
Qed.

(** The key path and the value of every leaf, as the leaves hold
    them. *)
Lemma leaf_fields d t r l :
  In (ALeaf r l) (subtrees t) -> In (path l, value_in d l) (fields (erase d t)).
Proof.
  induction t as [r' l'|r' nm par kids IH] using atree_ind.
  - simpl. intros [[= <- <-]|[]]. by left.
  - simpl. intros [|Hin]; [done|].
    apply in_flat_map in Hin as (k & Hk & Hs). apply in_flat_map.
    exists (erase d k). split; [by apply in_map|].
    rewrite Forall_forall in IH. apply IH; [by apply list_elem_of_In|done].
Qed.

Lemma fields_mirror_value k v prefix :
  flat_map fields (mirror_value k v prefix) = map reads (paths_of v (prefix ++ [k])).
Proof.
  revert k prefix. induction v as [s|items IH] using pyvalue_ind; intros k prefix.
  - done.
  - change (mirror_value k (Dict items) prefix)
      with (match mirror_items items (prefix ++ [k]) with
            | [] => []
            | sub => [SBranch k sub]
            end).
    assert (flat_map fields (mirror_items items (prefix ++ [k]))
            = map reads (paths_of (Dict items) (prefix ++ [k]))) as Hsub.
    { simpl. unfold mirror_items. generalize (prefix ++ [k]) as pre. intros pre.
      induction IH as [|[k' v'] items Hv _ IHi]; simpl; [done|].
      rewrite flat_map_app, map_app. by rewrite Hv, IHi. }
    destruct (mirror_items items (prefix ++ [k])) as [|s sub] eqn:Hm.
    + by rewrite <- Hsub.
    + rewrite <- Hsub. simpl. by rewrite app_nil_r.
Qed.

Lemma fields_mirror (d : dict) : fields (mirror d) = map reads (paths_of (Dict d) []).
Proof.
  simpl. unfold mirror_items. induction d as [|[k v] d IH]; simpl; [done|].
  rewrite flat_map_app, map_app. by rewrite fields_mirror_value, IH.
Qed.

(** A leaf of a loaded tree sits at its address, and its path is a
    recorded one, which resolves to the recorded scalar. *)
Lemma loaded_leaf st t r l :
  tree_inv st t -> erase (data_dict st) t = mirror (data_dict st) ->
  In (ALeaf r l) (subtrees t) ->
  store st !! r = Some (Leaf l) /\
  exists s, value_in (data_dict st) l = Ok (Scalar s) /\
            In (path l, s) (paths_of (Dict (data_dict st)) []).
Proof.
  intros (_ & Hrep & _) Herase Hin. split.
  - destruct (rep_subtree _ _ _ _ Hrep Hin) as [pr' [Hr _]]. done.
  - pose proof (leaf_fields (data_dict st) t r l Hin) as Hf.
    rewrite Herase, fields_mirror in Hf.
    apply in_map_iff in Hf as ([ks s] & [= Hks Hs] & Hp). simpl in *. subst ks.
    exists s. by split.
Qed.

(** ** Editing a leaf *)

Lemma value_run st l : value l st = (value_in (data_dict st) l, st).
Proof. reflexivity. Qed.

Lemma value_ok st l x : value l st = (Ok x, st) <-> value_in (data_dict st) l = Ok x.
Proof. rewrite value_run. split; [by intros [= ->]|by intros ->]. Qed.

Lemma equals_true x v : equals x v = true <-> x = Scalar v.
Proof.
  destruct x as [s|d]; simpl; [|by split].
  rewrite bool_decide_eq_true. split; [by intros ->|by intros [= ->]].
Qed.

Lemma equals_false x v : equals x v = false <-> x <> Scalar v.
Proof.
  rewrite <- equals_true. by destruct (equals x v); split.
Qed.

Lemma setData_leaf_run st idx r l v :
  isValid idx = true -> column idx = 1 -> internalPointer idx = Some r ->
  store st !! r = Some (Leaf l) ->
  setData idx v EditRole st =
  match value_in (data_dict st) l with
  | Ok old =>
      if equals old v then (Ok false, st)
      else match leaf_write (data_dict st) (path l) (label l) v with
           | Ok d' => (Ok true, with_data_dict d' st)
           | Raise e => (Raise e, st)
           end
  | Raise e => (Raise e, st)
  end.
Proof.
  intros Hv Hc Hp Hr. unfold setData. rewrite Hv, Hc. simpl.
  assert (nodeFromIndex idx st = (Ok (Some r), st)) as Hn.
  { unfold nodeFromIndex. by rewrite Hv, Hp. }
  rewrite (bind_run _ _ _ _ _ Hn).
  rewrite (bind_run _ _ _ _ _ (deref_run _ _ _ Hr)).
  unfold bind at 1. rewrite value_run.
  destruct (value_in (data_dict st) l) as [old|e]; [|done].
  destruct (equals old v); [done|].
  rewrite (bind_run (gets data_dict) _ st _ _ eq_refl).
  unfold bind, lift. by destruct (leaf_write _ _ _ _).
Qed.

(** Writing along a key path that resolves. *)
Lemma leaf_write_ok d p lbl x v :
  p <> [] ->
  get_nested_dict_item (Dict d) p = Ok x ->
  exists d', leaf_write d p lbl v = Ok d' /\
             get_nested_dict_item (Dict d') p = Ok (Scalar v).
Proof.
  destruct p as [|x0 p0]; [done|]. intros _ Hget.
  change (leaf_write d (x0 :: p0) lbl v)
    with (match last_item (x0 :: p0) with
          | Ok k => assign_nested d (but_last (x0 :: p0)) k (Scalar v)
          | Raise e => Raise e
          end).
  destruct (@exists_last _ (x0 :: p0)) as [pre [k Hp]]; [done|].
  rewrite Hp in *. unfold last_item, but_last.
  rewrite last_snoc, removelast_last.
  apply (assign_nested_ok pre d k x (Scalar v) Hget).
Qed.

(** * The claims *)

(** ** Flattening (C1) *)

(** C1. For every source dictionary, [load] runs to the end, and
    flattening the tree it leaves, every leaf under the names of the
    branches above it and with the value it reads, gives the
    (path, value) pairs that [getPaths] records for the dictionary, in
    the same order; every leaf holds as its own key path the one of its
    position; and these pairs are exactly the key paths that lead from
    the dictionary root to a scalar. *)
Theorem load_flatten st :
  root_ok st = true -> wf_dict (data_dict st) = true ->
  exists st' s,
    load st = (Ok tt, st') /\
    tree_shape st' = Some s /\
    flatten s = map reads (paths_of (Dict (data_dict st)) []) /\
    map reads (paths st') = flatten s /\
    fields s = flatten s /\
    (forall ks v, In (ks, Ok (Scalar v)) (flatten s) <->
                  get_nested_dict_item (Dict (data_dict st)) ks = Ok (Scalar v)).
Proof.
  intros Hroot Hwf.
  destruct (load_tree st Hroot Hwf) as (st' & t & Hrun & Hinv & Herase & Hd & _ & Hpaths & _).
  exists st', (erase (data_dict st) t). split; [done|].
  unfold tree_shape. rewrite (tree_inv_tree _ _ Hinv), Hd. split; [done|].
  rewrite Herase, flatten_mirror, fields_mirror, Hpaths.
  split; [done|]. split; [done|]. split; [done|].
  intros ks v. rewrite <- paths_of_iff by done. rewrite in_map_iff. split.
  - by intros ([ks' v'] & [= -> ->] & Hin).
  - intros Hin. by exists (ks, v).
Qed.

Lemma load_flatten_witness :
  exists st' s,
    load (fresh D_mixed true) = (Ok tt, st') /\
    tree_shape st' = Some s /\
    flatten s = map reads (paths_of (Dict D_mixed) []) /\
    map reads (paths st') = flatten s /\
    fields s = flatten s /\
    (forall ks v, In (ks, Ok (Scalar v)) (flatten s) <->
                  get_nested_dict_item (Dict D_mixed) ks = Ok (Scalar v)).
Proof. apply (load_flatten (fresh D_mixed true)); vm_compute; reflexivity. Defined.

(** ** Shape of the tree (C3) *)

(** C3, as stated, fails: a mapping with a single leaf inside gets a
    branch of its own, and a mapping without any scalar below it gets
    no node at all. *)
Lemma single_leaf_mapping_gets_branch :
  tree_shape st_nested
    = Some (SBranch "" [SBranch "x" [SLeaf "y" ["x"; "y"] (Ok (Scalar (SInt 2)))]]) /\
  tree_shape st_nested <> Some (claimed_mirror D_nested) /\
  tree_shape (snd (init D_hollow true)) = Some (SBranch "" []) /\
  tree_shape (snd (init D_hollow true)) <> Some (claimed_mirror D_hollow).
Proof. vm_compute. repeat split; discriminate. Qed.

(** C3, amended. After [load] the tree is the mirror of the dictionary:
    one leaf per scalar entry, one branch per mapping entry that holds a
    scalar at some depth (a single leaf included), in item order, and no
    node for a mapping without scalars. *)
Theorem load_mirror st :
  root_ok st = true -> wf_dict (data_dict st) = true ->
  exists st',
    load st = (Ok tt, st') /\
    tree_shape st' = Some (mirror (data_dict st)).
Proof.
  intros Hroot Hwf.
  destruct (load_tree st Hroot Hwf) as (st' & t & Hrun & Hinv & Herase & Hd & _).
  exists st'. split; [done|].
  unfold tree_shape. by rewrite (tree_inv_tree _ _ Hinv), Hd, <- Herase.
Qed.

Lemma load_mirror_witness :
  exists st',
    load (fresh D_nested true) = (Ok tt, st') /\
    tree_shape st' = Some (mirror D_nested).
Proof. apply (load_mirror (fresh D_nested true)); vm_compute; reflexivity. Defined.

(** ** Loading twice (C6) *)

Lemma mirror_items_names items prefix :
  NoDup (map fst items) -> NoDup (map sname (mirror_items items prefix)).
Proof.
  unfold mirror_items. induction items as [|[k v] items IH]; simpl; [constructor|].
  intros [Hk Hnd]%NoDup_cons. rewrite map_app. apply NoDup_app.
  split; [|split; [|by apply IH]].
  - destruct v as [s|its]; simpl; [apply NoDup_singleton|].
    destruct (flat_map _ its); simpl; [constructor|apply NoDup_singleton].
  - intros x Hx Hx'. apply list_elem_of_In in Hx, Hx'.
    apply in_map_iff in Hx as (s & <- & Hs).
    apply mirror_value_names in Hs. rewrite Hs in Hx'.
    apply Hk. apply list_elem_of_In.
    apply in_map_iff in Hx' as (s' & Hs' & Hin').
    apply in_flat_map in Hin' as ([k' v'] & Hkv & Hin'). simpl in Hin'.
    apply mirror_value_names in Hin'. apply in_map_iff.
    exists (k', v'). split; [simpl; congruence|done].
Qed.

Lemma distinct_names_branch k sub :
  distinct_names (SBranch k sub)
  = bool_decide (NoDup (map sname sub)) && forallb distinct_names sub.
Proof. reflexivity. Qed.

Lemma forallb_single {A} (f : A -> bool) x : forallb f [x] = f x.
Proof. simpl. apply andb_true_r. Qed.

Lemma mirror_value_distinct v :
  wf_value v = true ->
  forall k prefix, forallb distinct_names (mirror_value k v prefix) = true.
Proof.
  induction v as [s|items IH] using pyvalue_ind; intros Hwf k prefix; [done|].
  apply wf_value_Dict in Hwf as [Hnd Hwf].
  change (mirror_value k (Dict items) prefix)
    with (match mirror_items items (prefix ++ [k]) with
          | [] => []
          | sub => [SBranch k sub]
          end).
  pose proof (mirror_items_names items (prefix ++ [k]) Hnd) as Hnames.
  assert (forallb distinct_names (mirror_items items (prefix ++ [k])) = true) as Hall.
  { unfold mirror_items. clear Hnd Hnames.
    induction IH as [|[k' v'] items Hv _ IHi]; simpl; [done|].
    apply Forall_cons in Hwf as [Hwfv Hwf].
    rewrite forallb_app. rewrite (Hv Hwfv). by rewrite IHi. }
  destruct (mirror_items items (prefix ++ [k])) as [|s sub]; [done|].
  rewrite forallb_single, distinct_names_branch, Hall.
  by rewrite (bool_decide_eq_true_2 _ Hnames).
Qed.

Lemma mirror_distinct (d : dict) : wf_dict d = true -> distinct_names (mirror d) = true.
Proof.
  intros Hwf. apply wf_value_Dict in Hwf as [Hnd Hwf].
  unfold mirror. rewrite distinct_names_branch.
  rewrite (bool_decide_eq_true_2 _ (mirror_items_names d [] Hnd)). simpl.
  unfold mirror_items.
  induction d as [|[k v] d IH]; simpl; [done|].
  apply Forall_cons in Hwf as [Hwfv Hwf]. apply NoDup_cons in Hnd as [_ Hnd].
  rewrite forallb_app. rewrite (mirror_value_distinct v Hwfv). by apply IH.
Qed.

(** C6. Calling [load] twice in a row on an unchanged dictionary runs
    to the end both times and leaves a tree of the same shape and
    contents (names, labels, values, paths) and the same recorded paths
    as calling it once; in that tree no branch has two children filed
    under one key, so looking a key up again has reused the branch. *)
Theorem load_idempotent st :
  root_ok st = true -> wf_dict (data_dict st) = true ->
  exists st1 st2,
    load st = (Ok tt, st1) /\
    load st1 = (Ok tt, st2) /\
    tree_shape st1 = Some (mirror (data_dict st)) /\
    tree_shape st2 = tree_shape st1 /\
    paths st2 = paths st1 /\
    data_dict st2 = data_dict st /\
    distinct_names (mirror (data_dict st)) = true.
Proof.
  intros Hroot Hwf.
  destruct (load_tree st Hroot Hwf)
    as (st1 & t1 & Hrun1 & Hinv1 & Herase1 & Hd1 & _ & Hp1 & Hroot1).
  assert (wf_dict (data_dict st1) = true) as Hwf1 by by rewrite Hd1.
  destruct (load_tree st1 Hroot1 Hwf1)
    as (st2 & t2 & Hrun2 & Hinv2 & Herase2 & Hd2 & _ & Hp2 & _).
  exists st1, st2. split; [done|]. split; [done|].
  unfold tree_shape.
  rewrite (tree_inv_tree _ _ Hinv1), (tree_inv_tree _ _ Hinv2). simpl.
  rewrite Hd2, Hd1, Herase1.
  rewrite Hd1 in Herase2. rewrite Herase2. split; [done|]. split; [done|].
  split; [by rewrite Hp1, Hp2, Hd1|]. split; [done|].
  by apply mirror_distinct.
Qed.

Lemma load_idempotent_witness :
  exists st1 st2,
    load (fresh D_mixed true) = (Ok tt, st1) /\
    load st1 = (Ok tt, st2) /\
    tree_shape st1 = Some (mirror D_mixed) /\
    tree_shape st2 = tree_shape st1 /\
    paths st2 = paths st1 /\
    data_dict st2 = D_mixed /\
    distinct_names (mirror D_mixed) = true.
Proof. apply (load_idempotent (fresh D_mixed true)); vm_compute; reflexivity. Defined.

(** ** Edits (C4, C5, C9) *)

(** C4. In every state, for every leaf object with a key path, and
    every value other than the one the leaf reads now, [setData] on the
    leaf's column-1 index in the edit role returns [True], and the
    source dictionary then yields the new value along the leaf's path,
    which is also what the leaf reads from then on; the tree is left as
    it was. ([load] gives every leaf a key path, which ends in the
    leaf's label.) *)
Theorem setData_roundtrip st idx r l old v :
  isValid idx = true -> column idx = 1 -> internalPointer idx = Some r ->
  store st !! r = Some (Leaf l) -> path l <> [] ->
  value l st = (Ok old, st) -> old <> Scalar v ->
  exists st',
    setData idx v EditRole st = (Ok true, st') /\
    get_nested_dict_item (Dict (data_dict st')) (path l) = Ok (Scalar v) /\
    value l st' = (Ok (Scalar v), st') /\
    tree_part st' = tree_part st.
Proof.
  intros Hvalid Hcol Hptr Hr Hpath Hold Hne.
  apply value_ok in Hold.
  rewrite (setData_leaf_run st idx r l v Hvalid Hcol Hptr Hr), Hold.
  rewrite (proj2 (equals_false old v) Hne).
  destruct (leaf_write_ok _ _ (label l) _ v Hpath Hold) as (d' & Hw & Hget').
  rewrite Hw. exists (with_data_dict d' st).
  split; [done|]. split; [done|]. split; [by apply value_ok|done].
Qed.

Lemma setData_roundtrip_witness :
  exists st',
    setData (mkIndex 0 1 (Some 2%nat) true) (SInt 2) EditRole st_edited = (Ok true, st') /\
    get_nested_dict_item (Dict (data_dict st')) ["x"; "y"] = Ok (Scalar (SInt 2)) /\
    value (mkLeafNode "y" (Some 1%nat) ["x"; "y"]) st' = (Ok (Scalar (SInt 2)), st') /\
    tree_part st' = tree_part st_edited.
Proof.
  apply (setData_roundtrip st_edited (mkIndex 0 1 (Some 2%nat) true) 2%nat
           (mkLeafNode "y" (Some 1%nat) ["x"; "y"]) (Scalar (SInt 7)) (SInt 2)).
  - reflexivity.
  - reflexivity.
  - reflexivity.
  - vm_compute. reflexivity.
  - discriminate.
  - vm_compute. reflexivity.
  - discriminate.
Defined.

(** C5. In every state, writing to a leaf the value it reads now
    returns [False], with no exception, and changes neither the
    dictionary nor anything else. *)
Theorem setData_same_value st idx r l v :
  isValid idx = true -> column idx = 1 -> internalPointer idx = Some r ->
  store st !! r = Some (Leaf l) ->
  value l st = (Ok (Scalar v), st) ->
  setData idx v EditRole st = (Ok false, st).
Proof.
  intros Hvalid Hcol Hptr Hr Hold. apply value_ok in Hold.
  rewrite (setData_leaf_run st idx r l _ Hvalid Hcol Hptr Hr), Hold.
  by rewrite (proj2 (equals_true _ _) eq_refl).
Qed.

Lemma setData_same_value_witness :
  setData (mkIndex 0 1 (Some 2%nat) true) (SInt 7) EditRole st_edited = (Ok false, st_edited).
Proof.
  apply (setData_same_value st_edited (mkIndex 0 1 (Some 2%nat) true) 2%nat
           (mkLeafNode "y" (Some 1%nat) ["x"; "y"]) (SInt 7));
    vm_compute; reflexivity.
Defined.

(** C9, as stated, fails: after [7] has been written over [2], the leaf
    reads [7], and writing [7] again is reported as no change. *)
Lemma second_write_is_no_change :
  setData (mkIndex 0 1 (Some 2%nat) true) (SInt 7) EditRole st_nested = (Ok true, st_edited) /\
  setData (mkIndex 0 1 (Some 2%nat) true) (SInt 7) EditRole st_edited = (Ok false, st_edited) /\
  ~ rewrite_succeeds st_nested (mkIndex 0 1 (Some 2%nat) true) (SInt 7).
Proof.
  assert (setData (mkIndex 0 1 (Some 2%nat) true) (SInt 7) EditRole st_nested
          = (Ok true, st_edited)) as H1 by (vm_compute; reflexivity).
  assert (setData (mkIndex 0 1 (Some 2%nat) true) (SInt 7) EditRole st_edited
          = (Ok false, st_edited)) as H2 by (vm_compute; reflexivity).
  split; [done|]. split; [done|].
  intros H. destruct (H st_edited H1) as [st2 H3]. rewrite H2 in H3. discriminate.
Qed.

(** C9, amended. A successful [setData] changes the dictionary and
    nothing in the store; the leaf reads its value from the dictionary,
    so it reads the new value, and writing the same value again is a
    no-change: it returns [False] and leaves the state, the dictionary
    included, as the first write left it. *)
Theorem setData_twice st idx r l old v :
  isValid idx = true -> column idx = 1 -> internalPointer idx = Some r ->
  store st !! r = Some (Leaf l) -> path l <> [] ->
  value l st = (Ok old, st) -> old <> Scalar v ->
  exists st1,
    setData idx v EditRole st = (Ok true, st1) /\
    data_dict st1 <> data_dict st /\
    get_nested_dict_item (Dict (data_dict st1)) (path l) = Ok (Scalar v) /\
    store st1 = store st /\
    value l st1 = (Ok (Scalar v), st1) /\
    setData idx v EditRole st1 = (Ok false, st1).
Proof.
  intros Hvalid Hcol Hptr Hr Hpath Hold Hne.
  apply value_ok in Hold.
  rewrite (setData_leaf_run st idx r l v Hvalid Hcol Hptr Hr), Hold.
  rewrite (proj2 (equals_false old v) Hne).
  destruct (leaf_write_ok _ _ (label l) _ v Hpath Hold) as (d' & Hw & Hget').
  rewrite Hw. exists (with_data_dict d' st).
  split; [done|]. split.
  { simpl. intros Heq. rewrite Heq in Hget'. unfold value_in in Hold. congruence. }
  split; [done|]. split; [done|]. split; [by apply value_ok|].
  rewrite (setData_leaf_run (with_data_dict d' st) idx r l v Hvalid Hcol Hptr Hr).
  unfold value_in. simpl. rewrite Hget'.
  by rewrite (proj2 (equals_true _ _) eq_refl).
Qed.

Lemma setData_twice_witness :
  exists st1,
    setData (mkIndex 0 1 (Some 2%nat) true) (SInt 7) EditRole st_nested = (Ok true, st1) /\
    data_dict st1 <> data_dict st_nested /\
    get_nested_dict_item (Dict (data_dict st1)) ["x"; "y"] = Ok (Scalar (SInt 7)) /\
    store st1 = store st_nested /\
    value (mkLeafNode "y" (Some 1%nat) ["x"; "y"]) st1 = (Ok (Scalar (SInt 7)), st1) /\
    setData (mkIndex 0 1 (Some 2%nat) true) (SInt 7) EditRole st1 = (Ok false, st1).
Proof.
  apply (setData_twice st_nested (mkIndex 0 1 (Some 2%nat) true) 2%nat
           (mkLeafNode "y" (Some 1%nat) ["x"; "y"]) (Scalar (SInt 2)) (SInt 7)).
  - reflexivity.
  - reflexivity.
  - reflexivity.
  - vm_compute. reflexivity.
  - discriminate.
  - vm_compute. reflexivity.
  - discriminate.
Defined.

(** ** What each operation leaves alone (C10) *)

Section Keeps.
Context {B : Type} (f : model -> B).

Lemma keeps_ret {A} (a : A) : keeps f (ret a).
Proof. by intros st. Qed.

Lemma keeps_raise {A} e : keeps f (@raise A e).
Proof. by intros st. Qed.

Lemma keeps_gets {A} (g : model -> A) : keeps f (gets g).
Proof. by intros st. Qed.

Lemma keeps_lift {A} (r : result A) : keeps f (lift r).
Proof. by intros st. Qed.

Lemma keeps_bind {A C} (m : M A) (k : A -> M C) :
  keeps f m -> (forall a, keeps f (k a)) -> keeps f (bind m k).
Proof.
  intros Hm Hk st. unfold bind. specialize (Hm st).
  destruct (m st) as [[a|e] st']; simpl in *; [|done].
  by rewrite (Hk a st').
Qed.

Lemma keeps_deref r : keeps f (deref r).
Proof. intros st. unfold deref. by destruct (store st !! r). Qed.

Lemma keeps_for_each {A} (l : list A) (body : A -> M unit) :
  (forall x, keeps f (body x)) -> keeps f (for_each l body).
Proof.
  intros Hb. induction l as [|x l IH]; simpl; [apply keeps_ret|].
  apply keeps_bind; [apply Hb|intros _; apply IH].
Qed.
End Keeps.

Ltac keeps_step :=
  first
    [ apply keeps_ret | apply keeps_raise | apply keeps_gets | apply keeps_lift
    | apply keeps_deref
    | apply keeps_bind; [|intros ?]
    | match goal with
      | |- keeps _ (match ?x with _ => _ end) => destruct x
      | |- keeps _ (if ?b then _ else _) => destruct b
      end ].

Ltac keeps_all := repeat keeps_step.

Lemma keeps_truth {B} (f : model -> B) o : keeps f (truth o).
Proof. unfold truth. keeps_all. Qed.

Lemma keeps_nodeFromIndex {B} (f : model -> B) idx : keeps f (nodeFromIndex idx).
Proof. unfold nodeFromIndex. keeps_all. Qed.

Lemma keeps_childAtRow {B} (f : model -> B) r row : keeps f (childAtRow r row).
Proof. unfold childAtRow. keeps_all. Qed.

Lemma keeps_rowOfChild {B} (f : model -> B) r c : keeps f (rowOfChild r c).
Proof. unfold rowOfChild. keeps_all. Qed.

Lemma keeps_childWithKey {B} (f : model -> B) r k : keeps f (childWithKey r k).
Proof. unfold childWithKey. keeps_all. Qed.

Lemma keeps_rowCount {B} (f : model -> B) idx : keeps f (rowCount idx).
Proof. unfold rowCount. keeps_all. apply keeps_nodeFromIndex. Qed.

Lemma keeps_columnCount {B} (f : model -> B) idx : keeps f (columnCount idx).
Proof. unfold columnCount. keeps_all. Qed.

Lemma keeps_data {B} (f : model -> B) idx role : keeps f (data idx role).
Proof.
  unfold data, data_display.
  keeps_all; first [apply keeps_nodeFromIndex | apply keeps_truth].
Qed.

Lemma keeps_headerData {B} (f : model -> B) sec o role : keeps f (headerData sec o role).
Proof. unfold headerData. keeps_all. Qed.

Lemma keeps_flags {B} (f : model -> B) idx : keeps f (flags idx).
Proof. unfold flags. keeps_all. apply keeps_nodeFromIndex. Qed.

Lemma keeps_parent {B} (f : model -> B) idx : keeps f (parent idx).
Proof.
  unfold parent. keeps_all; first [apply keeps_nodeFromIndex | apply keeps_rowOfChild].
Qed.

Lemma keeps_index {B} (f : model -> B) r c idx : keeps f (index r c idx).
Proof.
  unfold index.
  keeps_all; first [apply keeps_nodeFromIndex | apply keeps_truth | apply keeps_childAtRow].
Qed.

Lemma keeps_set_data_dict_tree d : keeps tree_part (set_data_dict d).
Proof. by intros st. Qed.

Lemma keeps_setData_tree idx v role : keeps tree_part (setData idx v role).
Proof.
  unfold setData.
  keeps_all; first [apply keeps_nodeFromIndex | apply keeps_set_data_dict_tree].
Qed.

Ltac keeps_prim := intros ?; reflexivity.

Lemma keeps_insertChild_dict r c : keeps data_dict (insertChild r c).
Proof. unfold insertChild. keeps_all; keeps_prim. Qed.

Lemma keeps_find_or_create_dict r k : keeps data_dict (find_or_create r k).
Proof.
  unfold find_or_create, BranchNode_new.
  keeps_all;
    first [apply keeps_childWithKey | apply keeps_truth
          | apply keeps_insertChild_dict | keeps_prim].
Qed.

Lemma keeps_load_descend_dict keys : forall r b, keeps data_dict (load_descend keys r b).
Proof.
  induction keys as [|k keys IH]; intros r b; simpl; [apply keeps_ret|].
  apply keeps_bind; [apply keeps_find_or_create_dict|intros a; apply IH].
Qed.

Lemma keeps_load_path_dict p : keeps data_dict (load_path p).
Proof.
  unfold load_path. keeps_all;
    first [apply keeps_load_descend_dict | apply keeps_truth | keeps_prim].
Qed.

Lemma keeps_load_dict : keeps data_dict load.
Proof.
  unfold load, clear_root_children, getPaths.
  keeps_all;
    first [apply keeps_for_each; intros p; apply keeps_load_path_dict | keeps_prim].
Qed.

Lemma keeps_auto_refresh_dict : keeps data_dict auto_refresh.
Proof.
  unfold auto_refresh. keeps_all; first [apply keeps_rowCount | keeps_prim].
Qed.

Lemma keeps_auto_refresh_tree : keeps tree_part auto_refresh.
Proof.
  unfold auto_refresh. keeps_all; first [apply keeps_rowCount | keeps_prim].
Qed.

(** C10. The query operations return the state they were given, whole:
    tree, recorded paths and dictionary, also when they raise.
    [setData] leaves the tree (store, root, recorded paths) alone;
    [load], on its own or through [refresh], leaves the dictionary
    alone, and so does its helper [getPaths], which only appends to the
    recorded paths; [auto_refresh] and the timer start leave both
    alone. So the dictionary changes in [setData] only and the tree in
    [load] only. *)
Theorem frame_conditions :
  (forall idx, keeps (fun st => st) (rowCount idx)) /\
  (forall idx, keeps (fun st => st) (columnCount idx)) /\
  (forall idx role, keeps (fun st => st) (data idx role)) /\
  (forall sec o role, keeps (fun st => st) (headerData sec o role)) /\
  (forall idx, keeps (fun st => st) (flags idx)) /\
  (forall idx, keeps (fun st => st) (parent idx)) /\
  (forall r c idx, keeps (fun st => st) (index r c idx)) /\
  (forall idx, keeps (fun st => st) (nodeFromIndex idx)) /\
  (forall idx v role, keeps tree_part (setData idx v role)) /\
  keeps data_dict load /\
  keeps data_dict refresh /\
  (forall d p, keeps data_dict (getPaths d p)) /\
  (forall d p, keeps (fun st => (store st, root st)) (getPaths d p)) /\
  keeps data_dict auto_refresh /\
  keeps tree_part auto_refresh /\
  keeps data_dict _start_timer /\
  keeps tree_part _start_timer.
Proof.
  split; [intros idx; apply keeps_rowCount|].
  split; [intros idx; apply keeps_columnCount|].
  split; [intros idx role; apply keeps_data|].
  split; [intros sec o role; apply keeps_headerData|].
  split; [intros idx; apply keeps_flags|].
  split; [intros idx; apply keeps_parent|].
  split; [intros r c idx; apply keeps_index|].
  split; [intros idx; apply keeps_nodeFromIndex|].
  split; [intros idx v role; apply keeps_setData_tree|].
  split; [apply keeps_load_dict|].
  split.
  { unfold refresh. apply keeps_bind; [apply keeps_load_dict|intros _; keeps_prim]. }
  split; [intros d p; unfold getPaths; keeps_all; keeps_prim|].
  split; [intros d p; unfold getPaths; keeps_all; keeps_prim|].
  split; [apply keeps_auto_refresh_dict|].
  split; [apply keeps_auto_refresh_tree|].
  split; keeps_prim.
Qed.

(** ** The timer callback (C2) *)

Lemma rowCount_probe st : rowCount (createIndex 0 0 None) st = (Ok 0, st).
Proof. reflexivity. Qed.

(** C2, on the code. [auto_refresh] polls [rowCount] through
    [createIndex(0, 0)], an index that is valid and has no node, so the
    polled count is 0 whatever the tree holds; and when the count does
    differ from the last one it emits the reset signal without calling
    [load]. After a key ["b"] is added to the dictionary of a loaded
    model, a timer tick changes nothing and the tree still lacks ["b"],
    where [refresh] shows it. *)
Theorem auto_refresh_does_not_rebuild :
  (forall st, rowCount (createIndex 0 0 None) st = (Ok 0, st)) /\
  (forall st, tree_part (snd (auto_refresh st)) = tree_part st) /\
  emitted st_ticked = emitted st_flat ++ [ModelReset; AutoresizeColumns] /\
  tree_shape st_ticked = Some (SBranch "" [SLeaf "a" ["a"] (Ok (Scalar (SInt 1)))]) /\
  data_dict st_grown = [("a", Scalar (SInt 1)); ("b", Scalar (SInt 2))] /\
  auto_refresh st_grown = (Ok tt, st_grown) /\
  tree_shape st_grown = Some (SBranch "" [SLeaf "a" ["a"] (Ok (Scalar (SInt 1)))]) /\
  tree_shape (snd (refresh st_grown))
    = Some (SBranch "" [SLeaf "a" ["a"] (Ok (Scalar (SInt 1))); SLeaf "b" ["b"] (Ok (Scalar (SInt 2)))]).
Proof.
  split; [apply rowCount_probe|]. split; [apply keeps_auto_refresh_tree|].
  vm_compute. repeat split.
Qed.

(** ** Parent navigation (C7) *)

Lemma nodeFromIndex_run idx st : nodeFromIndex idx st = (Ok (node_at idx st), st).
Proof. unfold nodeFromIndex, node_at. by destruct (isValid idx). Qed.

Lemma subtree_parent t s :
  In s (subtrees t) ->
  s = t \/ exists rp nmp parp kidsp,
             In (ABranch rp nmp parp kidsp) (subtrees t) /\ In s kidsp.
Proof.
  induction t as [r l|r nm par kids IH] using atree_ind.
  - simpl. intros [<-|[]]. by left.
  - simpl. intros [<-|Hin]; [by left|]. right.
    apply in_flat_map in Hin as (k & Hk & Hs).
    rewrite Forall_forall in IH.
    destruct (IH k (proj2 (list_elem_of_In _ _) Hk) Hs) as [->|(rp & nmp & parp & kidsp & HP & Hin)].
    + exists r, nm, par, kids. split; [by left|done].
    + exists rp, nmp, parp, kidsp. split; [|done]. right.
      apply in_flat_map. by exists k.
Qed.

Lemma addr_subtree t r : In r (addrs t) -> exists s, In s (subtrees t) /\ aref s = r.
Proof.
  induction t as [r' l|r' nm par kids IH] using atree_ind.
  - simpl. intros [<-|[]]. eexists. split; [by left|done].
  - simpl. intros [<-|Hin]; [eexists; split; [by left|done]|].
    apply in_flat_map in Hin as (k & Hk & Hr).
    rewrite Forall_forall in IH.
    destruct (IH k (proj2 (list_elem_of_In _ _) Hk) Hr) as (s & Hs & Href).
    exists s. split; [|done]. right. apply in_flat_map. by exists k.
Qed.

Lemma rep_node h pr s :
  rep h pr s -> exists n, h !! aref s = Some n /\ node_parent n = pr.
Proof.
  destruct s as [r l|r nm par kids].
  - simpl. intros [Hr Hp]. by exists (Leaf l).
  - intros (Hp & Hr & _)%rep_branch. eexists. split; [exact Hr|done].
Qed.

(** A node below a branch of the tree points back at that branch. *)
Lemma rep_kid h pr t rp nmp parp kidsp s :
  rep h pr t -> In (ABranch rp nmp parp kidsp) (subtrees t) -> In s kidsp ->
  h !! rp = Some (Branch (mkBranchNode nmp parp (map entry kidsp))) /\
  rep h (Some rp) s.
Proof.
  intros Hrep HP Hs.
  destruct (rep_subtree _ _ _ _ Hrep HP) as [pr' (_ & Hr & Hkids)%rep_branch].
  split; [done|]. rewrite Forall_forall in Hkids. apply Hkids. by apply list_elem_of_In.
Qed.

Lemma index_of_In c (l : list (string * nat)) :
  forall i, In c (map snd l) ->
    i <= index_of c l i < i + Z.of_nat (length l) /\
    snd <$> (l !! Z.to_nat (index_of c l i - i)) = Some c.
Proof.
  induction l as [|[k c'] l IH]; intros i; simpl; [done|].
  intros Hin. destruct (Nat.eqb_spec c' c) as [->|Hne].
  - split; [lia|]. by rewrite Z.sub_diag.
  - destruct Hin as [Heq|Hin]; [done|].
    destruct (IH (i + 1) Hin) as [Hrange Hlook]. split; [lia|].
    replace (Z.to_nat (index_of c l (i + 1) - i))
      with (S (Z.to_nat (index_of c l (i + 1) - (i + 1)))) by lia.
    done.
Qed.

Lemma entry_snd_In (k : atree) kids : In k kids -> In (aref k) (map snd (map entry kids)).
Proof. intros Hin. rewrite map_map. simpl. by apply (in_map aref). Qed.

(** The answer of [parent] for an index that stands for a node of the
    tree held by the store. *)
Lemma parent_answer st t idx r :
  tree_inv st t -> node_at idx st = Some r -> In r (addrs t) ->
  exists n, store st !! r = Some n /\
    match node_parent n with
    | None => r = root st /\ parent idx st = (Ok QModelIndex_null, st)
    | Some p =>
        exists pn, store st !! p = Some pn /\
          match node_parent pn with
          | None => p = root st /\ parent idx st = (Ok QModelIndex_null, st)
          | Some g =>
              exists row,
                parent idx st = (Ok (createIndex row 0 (Some p)), st) /\
                childAtRow g row st = (Ok (Some p), st)
          end
    end.
Proof.
  intros (Href & Hrep & Hnd) Hnode Hin.
  destruct (addr_subtree _ _ Hin) as (s & Hs & <-).
  unfold parent. rewrite (bind_run _ _ _ _ _ (nodeFromIndex_run idx st)), Hnode.
  destruct (subtree_parent _ _ Hs) as [->|(rp & nmp & parp & kidsp & HP & Hkid)].
  - (* the root *)
    destruct (rep_node _ _ _ Hrep) as (n & Hn & Hpar).
    exists n. split; [done|]. rewrite Hpar. split; [done|].
    by rewrite (bind_run _ _ _ _ _ (deref_run _ _ _ Hn)), Hpar.
  - destruct (rep_kid _ _ _ _ _ _ _ _ Hrep HP Hkid) as [Hrp Hreps].
    destruct (rep_node _ _ _ Hreps) as (n & Hn & Hpar).
    exists n. split; [done|]. rewrite Hpar.
    eexists. split; [exact Hrp|]. simpl.
    rewrite (bind_run _ _ _ _ _ (deref_run _ _ _ Hn)), Hpar.
    rewrite (bind_run _ _ _ _ _ (deref_run _ _ _ Hrp)). simpl.
    destruct (subtree_parent _ _ HP) as [<-|(rg & nmg & parg & kidsg & HG & HPkid)].
    + (* directly under the root *)
      apply rep_branch in Hrep as (-> & _). done.
    + destruct (rep_kid _ _ _ _ _ _ _ _ Hrep HG HPkid) as [Hrg HrepP].
      apply rep_branch in HrepP as (-> & _).
      pose proof (index_of_In rp (map entry kidsg) 0 (entry_snd_In _ _ HPkid))
        as [Hrange Hlook].
      rewrite Z.sub_0_r in Hlook.
      exists (index_of rp (map entry kidsg) 0).
      assert (rowOfChild rg rp st = (Ok (index_of rp (map entry kidsg) 0), st)) as Hrow.
      { unfold rowOfChild. by rewrite (bind_run _ _ _ _ _ (deref_run _ _ _ Hrg)). }
      rewrite (bind_run _ _ _ _ _ Hrow).
      destruct (Z.eqb_spec (index_of rp (map entry kidsg) 0) (-1)) as [Heq|_]; [lia|].
      split; [done|].
      unfold childAtRow. rewrite (bind_run _ _ _ _ _ (deref_run _ _ _ Hrg)). simpl.
      unfold ret. rewrite Hlook.
      destruct (Z.leb_spec 0 (index_of rp (map entry kidsg) 0)); [|lia].
      destruct (Z.ltb_spec (index_of rp (map entry kidsg) 0)
                           (Z.of_nat (length (map entry kidsg)))); [done|lia].
Qed.

(** C7, as stated, fails for leaves: a leaf nested in a branch has a
    parent and a grandparent, and [parent] returns the index of the
    branch. *)
Lemma nested_leaf_has_parent :
  store st_nested !! 2%nat = Some (Leaf (mkLeafNode "y" (Some 1%nat) ["x"; "y"])) /\
  parent (createIndex 0 0 (Some 2%nat)) st_nested
    = (Ok (createIndex 0 0 (Some 1%nat)), st_nested) /\
  ~ leaves_have_no_parent st_nested.
Proof.
  split; [by vm_compute|]. split; [by vm_compute|].
  intros H.
  specialize (H (createIndex 0 0 (Some 2%nat)) 2%nat
                (mkLeafNode "y" (Some 1%nat) ["x"; "y"])
                eq_refl eq_refl).
  vm_compute in H. specialize (H eq_refl). discriminate H.
Qed.

(** C7, amended. In the model that [load] leaves, [parent] never
    raises and returns the state unchanged. It returns the invalid
    index when the index has no node, when the node has no parent (the
    root, and only the root) and when the parent has no parent (the
    nodes directly under the root, leaves and branches alike). For
    every other node of the tree, a nested leaf included, it returns
    the index of the node's parent at column 0 and at the row where the
    grandparent lists that parent. *)
Theorem parent_spec st0 st t idx :
  root_ok st0 = true -> wf_dict (data_dict st0) = true ->
  load st0 = (Ok tt, st) -> tree st = Some t ->
  match node_at idx st with
  | None => parent idx st = (Ok QModelIndex_null, st)
  | Some r =>
      In r (addrs t) ->
      exists n, store st !! r = Some n /\
        match node_parent n with
        | None => r = root st /\ parent idx st = (Ok QModelIndex_null, st)
        | Some p =>
            exists pn, store st !! p = Some pn /\
              match node_parent pn with
              | None => p = root st /\ parent idx st = (Ok QModelIndex_null, st)
              | Some g =>
                  exists row,
                    parent idx st = (Ok (createIndex row 0 (Some p)), st) /\
                    childAtRow g row st = (Ok (Some p), st)
              end
        end
  end.
Proof.
  intros Hroot Hwf Hload Htree.
  destruct (load_tree st0 Hroot Hwf) as (st1 & t1 & Hrun & Hinv & _).
  rewrite Hload in Hrun. injection Hrun as <-.
  rewrite (tree_inv_tree _ _ Hinv) in Htree. injection Htree as ->.
  destruct (node_at idx st) as [r|] eqn:Hnode.
  - intros Hin. by apply parent_answer with (t := t).
  - unfold parent. by rewrite (bind_run _ _ _ _ _ (nodeFromIndex_run idx st)), Hnode.
Qed.

Lemma parent_spec_witness :
  match node_at (createIndex 0 0 (Some 2%nat)) st_nested with
  | None => parent (createIndex 0 0 (Some 2%nat)) st_nested = (Ok QModelIndex_null, st_nested)
  | Some r =>
      In r (addrs (ABranch 0 "" None
                     [ABranch 1 "x" (Some 0%nat)
                        [ALeaf 2 (mkLeafNode "y" (Some 1%nat) ["x"; "y"])]])) ->
      exists n, store st_nested !! r = Some n /\
        match node_parent n with
        | None => r = root st_nested /\
                  parent (createIndex 0 0 (Some 2%nat)) st_nested
                  = (Ok QModelIndex_null, st_nested)
        | Some p =>
            exists pn, store st_nested !! p = Some pn /\
              match node_parent pn with
              | None => p = root st_nested /\
                        parent (createIndex 0 0 (Some 2%nat)) st_nested
                        = (Ok QModelIndex_null, st_nested)
              | Some g =>
                  exists row,
                    parent (createIndex 0 0 (Some 2%nat)) st_nested
                    = (Ok (createIndex row 0 (Some p)), st_nested) /\
                    childAtRow g row st_nested = (Ok (Some p), st_nested)
              end
        end
  end.
Proof.
  apply (parent_spec (snd (_start_timer (fresh D_nested true))) st_nested
           (ABranch 0 "" None
              [ABranch 1 "x" (Some 0%nat)
                 [ALeaf 2 (mkLeafNode "y" (Some 1%nat) ["x"; "y"])]])
           (createIndex 0 0 (Some 2%nat))).
  - vm_compute. reflexivity.
  - vm_compute. reflexivity.
  - vm_compute. reflexivity.
  - vm_compute. reflexivity.
Defined.

(** ** Indexes without a node (C8) *)

(** C8, as stated, fails: with a valid parent index that has no node
    (an out-of-range row), [index] fails its assertion
    [branch is not None]; and for an index that is not valid,
    [rowCount] answers with the number of children of the root. *)
Lemma index_asserts_on_nodeless :
  nodeless (createIndex 5 0 None) /\
  index 0 0 (createIndex 5 0 None) st_flat = (Raise AssertionError, st_flat) /\
  ~ answers_empty st_flat (createIndex 5 0 None) /\
  nodeless QModelIndex_null /\
  rowCount QModelIndex_null st_flat = (Ok 1, st_flat) /\
  ~ answers_empty st_flat QModelIndex_null.
Proof.
  split; [by right|]. split; [by vm_compute|]. split.
  { intros (_ & _ & _ & _ & _ & H). destruct (H 0 0) as [i Hi].
    vm_compute in Hi. discriminate Hi. }
  split; [by left|]. split; [by vm_compute|].
  intros (H & _). vm_compute in H. discriminate H.
Qed.

(** C8, amended. On an index without a node and a model whose root is
    the root branch, [data] (display and edit roles) returns the null
    variant, [setData] returns [False], [parent] returns the invalid
    index and [flags] returns selectable and enabled, all without
    raising and with the state unchanged. [rowCount] returns 0 for a
    valid index without a node and the number of children of the root
    for an index that is not valid. [index] is not total: under a valid
    index without a node it fails an assertion, and under an index that
    is not valid it fails one when the root has no children and
    otherwise returns the index of the root's child at that row, with a
    null pointer when the row is out of range. *)
Theorem nodeless_answers st idx :
  root_ok st = true -> nodeless idx ->
  data idx DisplayRole st = (Ok QVariant_null, st) /\
  data idx EditRole st = (Ok QVariant_null, st) /\
  (forall v role, setData idx v role st = (Ok false, st)) /\
  parent idx st = (Ok QModelIndex_null, st) /\
  flags idx st = (Ok (Z.lor ItemIsSelectable ItemIsEnabled), st) /\
  (isValid idx = true ->
   rowCount idx st = (Ok 0, st) /\
   forall r c, index r c idx st = (Raise AssertionError, st)) /\
  (isValid idx = false ->
   exists b, store st !! root st = Some (Branch b) /\
     rowCount idx st = (Ok (Z.of_nat (length (children b))), st) /\
     forall r c,
       index r c idx st =
       match children b with
       | [] => (Raise AssertionError, st)
       | _ :: _ =>
           (Ok (createIndex r c
                  (if (0 <=? r) && (r <? Z.of_nat (length (children b)))
                   then snd <$> (children b !! Z.to_nat r) else None)), st)
       end).
Proof.
  intros Hroot Hnodeless. destruct (root_ok_inv st Hroot) as [kids Hr].
  assert (node_at idx st = None \/ node_at idx st = Some (root st) /\ isValid idx = false)
    as Hnode.
  { unfold node_at. destruct (isValid idx) eqn:Hv; [|by right].
    destruct Hnodeless as [?| ->]; [congruence|by left]. }
  assert (truth (Some (root st)) st = (Ok (node_truth (Branch (mkBranchNode "" None kids))), st))
    as Htruth by by apply truth_run.
  split; [|split; [|split; [|split; [|split; [|split]]]]].
  - unfold data, data_display. destruct (isValid idx) eqn:Hv; [|done]. simpl.
    rewrite (bind_run _ _ _ _ _ (nodeFromIndex_run idx st)).
    destruct Hnode as [->|[_ ?]]; [done|congruence].
  - unfold data, data_display. destruct (isValid idx) eqn:Hv; [|done]. simpl.
    rewrite (bind_run _ _ _ _ _ (nodeFromIndex_run idx st)).
    destruct Hnode as [->|[_ ?]]; [done|congruence].
  - intros v role. unfold setData. destruct (isValid idx) eqn:Hv; [|done]. simpl.
    destruct role; try done. destruct (column idx =? 1); [|done].
    rewrite (bind_run _ _ _ _ _ (nodeFromIndex_run idx st)).
    destruct Hnode as [->|[_ ?]]; [done|congruence].
  - unfold parent. rewrite (bind_run _ _ _ _ _ (nodeFromIndex_run idx st)).
    destruct Hnode as [->|[-> _]]; [done|].
    by rewrite (bind_run _ _ _ _ _ (deref_run _ _ _ Hr)).
  - unfold flags. destruct (column idx =? 1); [|done].
    rewrite (bind_run _ _ _ _ _ (nodeFromIndex_run idx st)).
    destruct Hnode as [->|[-> _]]; [done|].
    by rewrite (bind_run _ _ _ _ _ (deref_run _ _ _ Hr)).
  - intros Hv. split.
    + unfold rowCount.
      rewrite (bind_run _ _ _ _ _ (nodeFromIndex_run idx st)).
      destruct Hnode as [->|[_ ?]]; [done|congruence].
    + intros r c. unfold index.
      rewrite (bind_run (gets root) _ st _ _ eq_refl).
      rewrite (bind_run _ _ _ _ _ Htruth).
      destruct (negb _); [done|].
      rewrite (bind_run _ _ _ _ _ (nodeFromIndex_run idx st)).
      destruct Hnode as [->|[_ ?]]; [done|congruence].
  - intros Hv. exists (mkBranchNode "" None kids). split; [done|].
    destruct Hnode as [Hn|[Hn _]].
    { unfold node_at in Hn. by rewrite Hv in Hn. }
    split.
    + unfold rowCount. rewrite (bind_run _ _ _ _ _ (nodeFromIndex_run idx st)), Hn.
      by rewrite (bind_run _ _ _ _ _ (deref_run _ _ _ Hr)).
    + intros r c. unfold index.
      rewrite (bind_run (gets root) _ st _ _ eq_refl).
      rewrite (bind_run _ _ _ _ _ Htruth). simpl.
      destruct kids as [|k kids]; [done|]. simpl.
      rewrite (bind_run _ _ _ _ _ (nodeFromIndex_run idx st)), Hn.
      assert (childAtRow (root st) r st
              = (Ok (if (0 <=? r) && (r <? Z.of_nat (length (k :: kids)))
                     then snd <$> ((k :: kids) !! Z.to_nat r) else None), st)) as Hc.
      { unfold childAtRow. by rewrite (bind_run _ _ _ _ _ (deref_run _ _ _ Hr)). }
      by rewrite (bind_run _ _ _ _ _ Hc).
Qed.

Lemma nodeless_answers_witness :
  data (createIndex 5 0 None) DisplayRole st_flat = (Ok QVariant_null, st_flat) /\
  data (createIndex 5 0 None) EditRole st_flat = (Ok QVariant_null, st_flat) /\
  (forall v role, setData (createIndex 5 0 None) v role st_flat = (Ok false, st_flat)) /\
  parent (createIndex 5 0 None) st_flat = (Ok QModelIndex_null, st_flat) /\
  flags (createIndex 5 0 None) st_flat = (Ok (Z.lor ItemIsSelectable ItemIsEnabled), st_flat) /\
  (isValid (createIndex 5 0 None) = true ->
   rowCount (createIndex 5 0 None) st_flat = (Ok 0, st_flat) /\
   forall r c, index r c (createIndex 5 0 None) st_flat = (Raise AssertionError, st_flat)) /\
  (isValid (createIndex 5 0 None) = false ->
   exists b, store st_flat !! root st_flat = Some (Branch b) /\
     rowCount (createIndex 5 0 None) st_flat = (Ok (Z.of_nat (length (children b))), st_flat) /\
     forall r c,
       index r c (createIndex 5 0 None) st_flat =
       match children b with
       | [] => (Raise AssertionError, st_flat)
       | _ :: _ =>
           (Ok (createIndex r c
                  (if (0 <=? r) && (r <? Z.of_nat (length (children b)))
                   then snd <$> (children b !! Z.to_nat r) else None)), st_flat)
       end).
Proof.
  apply (nodeless_answers st_flat (createIndex 5 0 None)).
  - vm_compute. reflexivity.
  - right. reflexivity.
Defined.

(** * Further properties *)

(** ** Construction, refresh and the timer *)

Lemma load_shape st :
  root_ok st = true -> wf_dict (data_dict st) = true ->
  exists h',
    load st =
      (Ok tt, mkModel (data_dict st) h' (root st) (headers st)
                      (paths_of (Dict (data_dict st)) []) (_rowCount st) (_view st)
                      ((emitted st ++ [ModelAboutToBeReset]) ++ [ModelReset])) /\
    tree_shape (with_store h' st) = Some (mirror (data_dict st)) /\
    root_ok (with_store h' st) = true.
Proof.
  intros Hroot Hwf.
  destruct (load_spec st Hroot Hwf) as (h' & kids' & Hrun & Hrep & Hnd & Herase).
  exists h'. split; [done|].
  assert (tree_inv (with_store h' st) (ABranch (root st) "" None kids')) as Hinv by done.
  split.
  - unfold tree_shape. rewrite (tree_inv_tree _ _ Hinv). simpl. by rewrite Herase.
  - apply rep_branch in Hrep as (_ & Hr & _). unfold root_ok. simpl. by rewrite Hr.
Qed.

Lemma init_facts (design : dict) (view : bool) :
  wf_dict design = true ->
  exists st,
    init design view = (Ok tt, st) /\
    tree_shape st = Some (mirror design) /\
    data_dict st = design /\
    paths st = paths_of (Dict design) [] /\
    headers st = ["Name"; "Value"] /\
    _rowCount st = -1 /\
    _view st = view /\
    emitted st = [TimerStart 500; ModelAboutToBeReset; ModelReset] /\
    root_ok st = true.
Proof.
  intros Hwf. set (st0 := snd (_start_timer (fresh design view))).
  destruct (load_shape st0 eq_refl Hwf) as (h' & Hrun & Hshape & Hroot).
  eexists. split; [exact Hrun|]. repeat split; try done.
Qed.

(** The constructor starts the timer at 500 ms and loads: it returns a
    model whose tree is the mirror of the design's dictionary, that has
    emitted the bracket of one model reset, and whose last observed row
    count is still -1. *)
Theorem init_spec (design : dict) (view : bool) :
  wf_dict design = true ->
  exists st,
    init design view = (Ok tt, st) /\
    tree_shape st = Some (mirror design) /\
    data_dict st = design /\
    paths st = paths_of (Dict design) [] /\
    headers st = ["Name"; "Value"] /\
    _rowCount st = -1 /\
    _view st = view /\
    emitted st = [TimerStart 500; ModelAboutToBeReset; ModelReset] /\
    root_ok st = true.
Proof. apply init_facts. Qed.

Lemma init_spec_witness :
  exists st,
    init D_mixed true = (Ok tt, st) /\
    tree_shape st = Some (mirror D_mixed) /\
    data_dict st = D_mixed /\
    paths st = paths_of (Dict D_mixed) [] /\
    headers st = ["Name"; "Value"] /\
    _rowCount st = -1 /\
    _view st = true /\
    emitted st = [TimerStart 500; ModelAboutToBeReset; ModelReset] /\
    root_ok st = true.
Proof. apply (init_spec D_mixed true). vm_compute. reflexivity. Defined.

(** [refresh] rebuilds whatever the tree was: afterwards the tree is
    the mirror of the dictionary as it is now. The view is told twice
    that the model was reset, once by [endResetModel] inside [load] and
    once by [refresh] itself. *)
Theorem refresh_spec st :
  root_ok st = true -> wf_dict (data_dict st) = true ->
  exists st',
    refresh st = (Ok tt, st') /\
    tree_shape st' = Some (mirror (data_dict st)) /\
    data_dict st' = data_dict st /\
    _rowCount st' = _rowCount st /\
    emitted st' = emitted st ++ [ModelAboutToBeReset; ModelReset; ModelReset].
Proof.
  intros Hroot Hwf.
  destruct (load_shape st Hroot Hwf) as (h' & Hrun & Hshape & _).
  unfold refresh. rewrite (bind_run _ _ _ _ _ Hrun).
  eexists. split; [reflexivity|]. split; [exact Hshape|].
  repeat split. simpl. by rewrite <- !app_assoc.
Qed.

Lemma refresh_spec_witness :
  exists st',
    refresh st_grown = (Ok tt, st') /\
    tree_shape st' = Some (mirror (data_dict st_grown)) /\
    data_dict st' = data_dict st_grown /\
    _rowCount st' = _rowCount st_grown /\
    emitted st' = emitted st_grown ++ [ModelAboutToBeReset; ModelReset; ModelReset].
Proof. apply (refresh_spec st_grown); vm_compute; reflexivity. Defined.

Lemma auto_refresh_quiet st : _rowCount st = 0 -> auto_refresh st = (Ok tt, st).
Proof.
  intros Hs. unfold auto_refresh.
  rewrite (bind_run _ _ _ _ _ (rowCount_probe st)).
  rewrite (bind_run (gets _rowCount) _ st _ _ eq_refl). by rewrite Hs.
Qed.

Lemma auto_refresh_zero st : _rowCount (snd (auto_refresh st)) = 0.
Proof.
  destruct (Z.eq_dec (_rowCount st) 0) as [H0|Hne]; [by rewrite auto_refresh_quiet|].
  unfold auto_refresh.
  rewrite (bind_run _ _ _ _ _ (rowCount_probe st)).
  rewrite (bind_run (gets _rowCount) _ st _ _ eq_refl).
  destruct (Z.eqb_spec (_rowCount st) 0) as [|_]; [done|]. simpl.
  unfold bind, emit, set_rowCount, gets. simpl. by destruct (_view st).
Qed.

(** [auto_refresh] never raises and always leaves the observed row
    count at 0. When the count was 0 already the call changes nothing;
    otherwise it emits the reset signal, and asks the view to resize
    its columns when there is a view. So after one tick every further
    tick is without effect. *)
Theorem auto_refresh_once st :
  fst (auto_refresh st) = Ok tt /\
  _rowCount (snd (auto_refresh st)) = 0 /\
  (_rowCount st = 0 -> auto_refresh st = (Ok tt, st)) /\
  (_rowCount st <> 0 ->
   emitted (snd (auto_refresh st))
   = emitted st ++ ModelReset :: (if _view st then [AutoresizeColumns] else [])) /\
  auto_refresh (snd (auto_refresh st)) = (Ok tt, snd (auto_refresh st)).
Proof.
  split; [|split; [apply auto_refresh_zero|split; [apply auto_refresh_quiet|split]]].
  - unfold auto_refresh.
    rewrite (bind_run _ _ _ _ _ (rowCount_probe st)).
    rewrite (bind_run (gets _rowCount) _ st _ _ eq_refl).
    destruct (negb _); [|done].
    unfold bind, emit, set_rowCount, gets. simpl. by destruct (_view st).
  - intros Hne. unfold auto_refresh.
    rewrite (bind_run _ _ _ _ _ (rowCount_probe st)).
    rewrite (bind_run (gets _rowCount) _ st _ _ eq_refl).
    destruct (Z.eqb_spec (_rowCount st) 0) as [|_]; [done|]. simpl.
    unfold bind, emit, set_rowCount, gets. simpl.
    destruct (_view st); simpl; [|done]. by rewrite <- app_assoc.
  - apply auto_refresh_quiet, auto_refresh_zero.
Qed.

(** ** What [setData] does and does not do *)

Lemma bind_raise {A B} (m : M A) (f : A -> M B) st e st' :
  m st = (Raise e, st') -> bind m f st = (Raise e, st').
Proof. unfold bind. by intros ->. Qed.

Lemma setData_cases st idx v role :
  setData idx v role st = (Ok false, st) \/
  (exists e, setData idx v role st = (Raise e, st)) \/
  (exists r l old d',
      isValid idx = true /\ role = EditRole /\ column idx = 1 /\
      internalPointer idx = Some r /\ store st !! r = Some (Leaf l) /\
      value_in (data_dict st) l = Ok old /\ old <> Scalar v /\
      leaf_write (data_dict st) (path l) (label l) v = Ok d' /\
      setData idx v role st = (Ok true, with_data_dict d' st)).
Proof.
  destruct (isValid idx) eqn:Hv; [|left; unfold setData; by rewrite Hv].
  destruct (decide (role = EditRole)) as [->|Hrole];
    [|left; unfold setData; rewrite Hv; by destruct role].
  destruct (Z.eqb_spec (column idx) 1) as [Hc|Hc];
    [|left; unfold setData; rewrite Hv; simpl;
      by destruct (Z.eqb_spec (column idx) 1)].
  destruct (internalPointer idx) as [r|] eqn:Hp.
  - destruct (store st !! r) as [[b|l]|] eqn:Hr.
    + left. unfold setData. rewrite Hv, Hc. simpl.
      rewrite (bind_run _ _ _ _ _ (nodeFromIndex_run idx st)).
      unfold node_at. rewrite Hv, Hp.
      by rewrite (bind_run _ _ _ _ _ (deref_run _ _ _ Hr)).
    + rewrite (setData_leaf_run st idx r l v Hv Hc Hp Hr).
      destruct (value_in (data_dict st) l) as [old|e] eqn:Hold;
        [|right; left; by exists e].
      destruct (equals old v) eqn:Hd; [by left|].
      apply equals_false in Hd. right.
      destruct (leaf_write (data_dict st) (path l) (label l) v) as [d'|e] eqn:Hw.
      * right. by exists r, l, old, d'.
      * left. by exists e.
    + right. left. exists AttributeError.
      unfold setData. rewrite Hv, Hc. simpl.
      rewrite (bind_run _ _ _ _ _ (nodeFromIndex_run idx st)).
      unfold node_at. rewrite Hv, Hp.
      apply bind_raise. unfold deref. by rewrite Hr.
  - left. unfold setData. rewrite Hv, Hc. simpl.
    rewrite (bind_run _ _ _ _ _ (nodeFromIndex_run idx st)).
    unfold node_at. by rewrite Hv, Hp.
Qed.

(** [setData] changes the dictionary only when it returns [True]: a
    call that returns [False] or raises leaves the whole state as it
    was, and a call returns [True] only for a valid index in column 1
    that stands for a leaf, in the edit role, with a value other than
    the one the leaf reads. *)
Theorem setData_all_or_nothing st idx v role :
  (forall b st', setData idx v role st = (Ok b, st') -> b = false -> st' = st) /\
  (forall e st', setData idx v role st = (Raise e, st') -> st' = st) /\
  (forall st', setData idx v role st = (Ok true, st') ->
     isValid idx = true /\ role = EditRole /\ column idx = 1 /\
     exists r l old, internalPointer idx = Some r /\ store st !! r = Some (Leaf l) /\
                     value l st = (Ok old, st) /\ old <> Scalar v).
Proof.
  destruct (setData_cases st idx v role)
    as [H|[[e H]|(r & l & old & d' & Hv & Hrole & Hc & Hp & Hr & Hold & Hne & Hw & H)]];
    rewrite H; (split; [|split]).
  - by intros b s' [= <- <-] _.
  - by intros e s' [=].
  - by intros s' [=].
  - by intros b s' [=].
  - by intros e' s' [= _ <-].
  - by intros s' [=].
  - by intros b s' [= <- <-] [=].
  - by intros e s' [=].
  - intros s' _. repeat split; try done. exists r, l, old.
    repeat split; try done. by apply value_ok.
Qed.

(** A cell on which [setData] succeeds is one that [flags] reports as
    editable. *)
Theorem setData_needs_editable st idx v role st' :
  setData idx v role st = (Ok true, st') ->
  flags idx st
  = (Ok (Z.lor (Z.lor ItemIsSelectable ItemIsEnabled) ItemIsEditable), st).
Proof.
  intros Hset.
  destruct (setData_cases st idx v role)
    as [H|[[e H]|(r & l & old & d' & Hv & Hrole & Hc & Hp & Hr & Hold & Hne & Hw & H)]];
    [congruence|congruence|].
  unfold flags. rewrite Hc. simpl.
  rewrite (bind_run _ _ _ _ _ (nodeFromIndex_run idx st)).
  unfold node_at. rewrite Hv, Hp.
  by rewrite (bind_run _ _ _ _ _ (deref_run _ _ _ Hr)).
Qed.

Lemma setData_needs_editable_witness :
  flags (mkIndex 0 1 (Some 2%nat) true) st_nested
  = (Ok (Z.lor (Z.lor ItemIsSelectable ItemIsEnabled) ItemIsEditable), st_nested).
Proof.
  apply (setData_needs_editable st_nested (mkIndex 0 1 (Some 2%nat) true) (SInt 7) EditRole
           (with_data_dict [("x", Dict [("y", Scalar (SInt 7))])] st_nested)).
  vm_compute. reflexivity.
Defined.

Lemma assign_nested_dict pre :
  forall d k v d1,
    get_nested_dict_item (Dict d) pre = Ok (Dict d1) ->
    exists d', assign_nested d pre k v = Ok d' /\
               get_nested_dict_item (Dict d') pre = Ok (Dict (setitem d1 k v)).
Proof.
  induction pre as [|x pre IH]; intros d k v d1; simpl.
  - intros [= ->]. by eexists.
  - destruct (getitem d x) as [[s'|d2]|e'] eqn:Hx.
    + by destruct pre.
    + intros H. destruct (IH d2 k v d1 H) as (d' & Ha & Hg).
      rewrite Ha. eexists. split; [done|]. by rewrite getitem_setitem.
    + done.
Qed.

Lemma leaf_write_snoc d pre k lbl v :
  leaf_write d (pre ++ [k]) lbl v = assign_nested d pre k (Scalar v).
Proof.
  unfold leaf_write. destruct (pre ++ [k]) as [|x p0] eqn:Hp; [by destruct pre|].
  rewrite <- Hp. unfold last_item, but_last. by rewrite last_snoc, removelast_last.
Qed.

Lemma get_nested_app v p q :
  get_nested_dict_item v (p ++ q)
  = match get_nested_dict_item v p with
    | Ok w => get_nested_dict_item w q
    | Raise e => Raise e
    end.
Proof.
  revert v. induction p as [|x p IH]; intros v; simpl; [done|].
  destruct v as [s|d]; [done|]. destruct (getitem d x); [apply IH|done].
Qed.

Lemma setitem_keys_old (d : dict) k v w :
  getitem d k = Ok w -> map fst (setitem d k v) = map fst d.
Proof.
  induction d as [|[k' v'] d IH]; simpl; [done|].
  destruct (String.eqb_spec k k') as [->|Hne]; simpl; [done|].
  intros H. by rewrite IH.
Qed.

(** Both the read of the old value and the write of [setData] walk the
    keys of the leaf's path but the last. When a key on the way is
    missing, or the walk runs into a scalar, the exception of that
    lookup ([KeyError], [TypeError]) comes out of [setData], whatever
    the value written, and nothing is changed. *)
Theorem setData_walk_fails st idx r l v pre k :
  isValid idx = true -> column idx = 1 -> internalPointer idx = Some r ->
  store st !! r = Some (Leaf l) ->
  path l = pre ++ [k] ->
  (forall e, get_nested_dict_item (Dict (data_dict st)) pre = Raise e ->
             setData idx v EditRole st = (Raise e, st)) /\
  (forall s, get_nested_dict_item (Dict (data_dict st)) pre = Ok (Scalar s) ->
             setData idx v EditRole st = (Raise TypeError, st)).
Proof.
  intros Hv Hc Hp Hr Hpath.
  rewrite (setData_leaf_run st idx r l v Hv Hc Hp Hr).
  unfold value_in. rewrite Hpath, get_nested_app. split.
  - intros e He. by rewrite He.
  - intros s Hs. by rewrite Hs.
Qed.

Lemma setData_walk_fails_witness :
  (forall e, get_nested_dict_item (Dict (data_dict st_emptied)) ["x"] = Raise e ->
             setData (mkIndex 0 1 (Some 2%nat) true) (SInt 7) EditRole st_emptied
             = (Raise e, st_emptied)) /\
  (forall s, get_nested_dict_item (Dict (data_dict st_emptied)) ["x"] = Ok (Scalar s) ->
             setData (mkIndex 0 1 (Some 2%nat) true) (SInt 7) EditRole st_emptied
             = (Raise TypeError, st_emptied)).
Proof.
  apply (setData_walk_fails st_emptied (mkIndex 0 1 (Some 2%nat) true) 2%nat
           (mkLeafNode "y" (Some 1%nat) ["x"; "y"]) (SInt 7) ["x"] "y").
  - reflexivity.
  - reflexivity.
  - reflexivity.
  - vm_compute. reflexivity.
  - reflexivity.
Defined.

(** When the walk ends in a mapping, what [setData] does is decided by
    the last key of the path in that mapping. If the key is there with
    another value, [setData] returns [True] and the mapping then holds
    the new value under that key, in place: same keys, same order. If
    the key holds the value written, nothing is done. If the key has
    been removed, the read of the old value raises [KeyError] and
    nothing is changed: an entry that is gone is not put back. *)
Theorem setData_assigns st idx r l v pre k d1 :
  isValid idx = true -> column idx = 1 -> internalPointer idx = Some r ->
  store st !! r = Some (Leaf l) ->
  path l = pre ++ [k] ->
  get_nested_dict_item (Dict (data_dict st)) pre = Ok (Dict d1) ->
  (forall old, getitem d1 k = Ok old -> old <> Scalar v ->
     exists st',
       setData idx v EditRole st = (Ok true, st') /\
       get_nested_dict_item (Dict (data_dict st')) pre
       = Ok (Dict (setitem d1 k (Scalar v))) /\
       map fst (setitem d1 k (Scalar v)) = map fst d1 /\
       get_nested_dict_item (Dict (data_dict st')) (path l) = Ok (Scalar v)) /\
  (getitem d1 k = Ok (Scalar v) -> setData idx v EditRole st = (Ok false, st)) /\
  (getitem d1 k = Raise KeyError -> setData idx v EditRole st = (Raise KeyError, st)).
Proof.
  intros Hv Hc Hp Hr Hpath Hd1.
  rewrite (setData_leaf_run st idx r l v Hv Hc Hp Hr).
  unfold value_in. rewrite Hpath, get_nested_app, Hd1. simpl.
  split; [|split].
  - intros old Hold Hne. rewrite Hold.
    rewrite (proj2 (equals_false old v) Hne). rewrite leaf_write_snoc.
    destruct (assign_nested_dict _ _ k (Scalar v) _ Hd1) as (d' & Ha & Hg).
    rewrite Ha. eexists. split; [done|]. split; [done|].
    split; [by apply setitem_keys_old with (w := old)|].
    simpl. rewrite get_nested_app, Hg. simpl. by rewrite getitem_setitem.
  - intros Hold. rewrite Hold. by rewrite (proj2 (equals_true _ _) eq_refl).
  - intros Hold. by rewrite Hold.
Qed.

Lemma setData_assigns_witness :
  (forall old, getitem [("y", Scalar (SInt 2))] "y" = Ok old -> old <> Scalar (SInt 7) ->
     exists st',
       setData (mkIndex 0 1 (Some 2%nat) true) (SInt 7) EditRole st_nested = (Ok true, st') /\
       get_nested_dict_item (Dict (data_dict st')) ["x"]
       = Ok (Dict (setitem [("y", Scalar (SInt 2))] "y" (Scalar (SInt 7)))) /\
       map fst (setitem [("y", Scalar (SInt 2))] "y" (Scalar (SInt 7)))
       = map fst [("y", Scalar (SInt 2))] /\
       get_nested_dict_item (Dict (data_dict st')) ["x"; "y"] = Ok (Scalar (SInt 7))) /\
  (getitem [("y", Scalar (SInt 2))] "y" = Ok (Scalar (SInt 7)) ->
   setData (mkIndex 0 1 (Some 2%nat) true) (SInt 7) EditRole st_nested = (Ok false, st_nested)) /\
  (getitem [("y", Scalar (SInt 2))] "y" = Raise KeyError ->
   setData (mkIndex 0 1 (Some 2%nat) true) (SInt 7) EditRole st_nested
   = (Raise KeyError, st_nested)).
Proof.
  apply (setData_assigns st_nested (mkIndex 0 1 (Some 2%nat) true) 2%nat
           (mkLeafNode "y" (Some 1%nat) ["x"; "y"]) (SInt 7) ["x"] "y"
           [("y", Scalar (SInt 2))]).
  - reflexivity.
  - reflexivity.
  - reflexivity.
  - vm_compute. reflexivity.
  - reflexivity.
  - vm_compute. reflexivity.
Defined.

(** The key ["y"] has been removed from the mapping under ["x"]: the
    leaf that stood for it can be neither written nor shown, and the
    entry is not put back. *)
Lemma removed_key_raises :
  setData (mkIndex 0 1 (Some 2%nat) true) (SInt 7) EditRole st_pruned
  = (Raise KeyError, st_pruned) /\
  data (mkIndex 0 1 (Some 2%nat) true) DisplayRole st_pruned = (Raise KeyError, st_pruned).
Proof. vm_compute. split; reflexivity. Qed.

(** A successful edit shows at once: the cell of the leaf then reads
    the text of the value written, in the display and in the edit role,
    with no reload in between. *)
Theorem setData_then_data st st' idx r l v :
  internalPointer idx = Some r -> store st !! r = Some (Leaf l) -> path l <> [] ->
  setData idx v EditRole st = (Ok true, st') ->
  value l st' = (Ok (Scalar v), st') /\
  data idx DisplayRole st' = (Ok (VStr (str v)), st') /\
  data idx EditRole st' = (Ok (VStr (str v)), st').
Proof.
  intros Hp Hr Hpath Hset.
  destruct (setData_cases st idx v EditRole)
    as [H|[[e H]|(r' & l' & old & d' & Hv & _ & Hc & Hp' & Hr' & Hold & Hne & Hw & H)]];
    [congruence|congruence|].
  rewrite Hp in Hp'. injection Hp' as <-. rewrite Hr in Hr'. injection Hr' as <-.
  rewrite H in Hset. injection Hset as <-.
  destruct (leaf_write_ok _ _ (label l) _ v Hpath Hold) as (d'' & Hw' & Hget).
  rewrite Hw in Hw'. injection Hw' as <-.
  assert (value l (with_data_dict d' st) = (Ok (Scalar v), with_data_dict d' st)) as Hval
    by by apply value_ok.
  split; [done|].
  assert (data idx DisplayRole (with_data_dict d' st)
          = (Ok (VStr (str v)), with_data_dict d' st)) as Hdata.
  { unfold data, data_display. rewrite Hv. simpl.
    rewrite (bind_run _ _ _ _ _ (nodeFromIndex_run idx _)).
    unfold node_at. rewrite Hv, Hp.
    assert (store (with_data_dict d' st) !! r = Some (Leaf l)) as Hr2 by done.
    rewrite (bind_run _ _ _ _ _ (truth_run _ _ _ Hr2)). simpl.
    rewrite (bind_run _ _ _ _ _ (deref_run _ _ _ Hr2)).
    rewrite Hc. simpl. by rewrite (bind_run _ _ _ _ _ Hval). }
  split; [done|]. unfold data. rewrite Hv. simpl. unfold data in Hdata.
  by rewrite Hv in Hdata.
Qed.

Lemma setData_then_data_witness :
  value (mkLeafNode "y" (Some 1%nat) ["x"; "y"]) st_edited
  = (Ok (Scalar (SInt 7)), st_edited) /\
  data (mkIndex 0 1 (Some 2%nat) true) DisplayRole st_edited
  = (Ok (VStr (str (SInt 7))), st_edited) /\
  data (mkIndex 0 1 (Some 2%nat) true) EditRole st_edited
  = (Ok (VStr (str (SInt 7))), st_edited).
Proof.
  apply (setData_then_data st_nested st_edited (mkIndex 0 1 (Some 2%nat) true) 2%nat
           (mkLeafNode "y" (Some 1%nat) ["x"; "y"]) (SInt 7)).
  - reflexivity.
  - vm_compute. reflexivity.
  - discriminate.
  - vm_compute. reflexivity.
Defined.

(** ** Edits keep the shape of the dictionary *)

Lemma setitem_keys_new (d : dict) k v :
  getitem d k = Raise KeyError -> map fst (setitem d k v) = map fst d ++ [k].
Proof.
  induction d as [|[k' v'] d IH]; simpl; [done|].
  destruct (String.eqb_spec k k') as [->|Hne]; simpl; [done|].
  intros H. by rewrite IH.
Qed.

Lemma getitem_error (d : dict) k e : getitem d k = Raise e -> e = KeyError /\ ~ In k (map fst d).
Proof.
  induction d as [|[k' v'] d IH]; simpl.
  - intros [= <-]. tauto.
  - destruct (String.eqb_spec k k') as [->|Hne]; [done|].
    intros H. destruct (IH H) as [-> Hn]. split; [done|]. intros [?|?]; [congruence|done].
Qed.

Lemma setitem_forall (P : pyvalue -> bool) (d : dict) k v :
  forallb (fun kv => P (snd kv)) d = true -> P v = true ->
  forallb (fun kv => P (snd kv)) (setitem d k v) = true.
Proof.
  intros Hd Hv. induction d as [|[k' v'] d IH]; simpl in *.
  - by rewrite Hv.
  - apply andb_prop in Hd as [H1 H2].
    destruct (String.eqb k k'); simpl.
    + by rewrite Hv, H2.
    + by rewrite H1, IH.
Qed.

Lemma setitem_wf (d : dict) k v :
  wf_dict d = true -> wf_value v = true -> wf_dict (setitem d k v) = true.
Proof.
  unfold wf_dict. simpl. intros [Hnd Hall]%andb_prop Hv.
  apply bool_decide_eq_true in Hnd. apply andb_true_intro. split.
  - apply bool_decide_eq_true.
    destruct (getitem d k) as [w|e] eqn:Hk.
    + by rewrite (setitem_keys_old _ _ _ _ Hk).
    + destruct (getitem_error _ _ _ Hk) as [-> Hn].
      rewrite (setitem_keys_new _ _ _ Hk). apply NoDup_app.
      split; [done|]. split; [|apply NoDup_singleton].
      intros x Hx ->%list_elem_of_singleton. apply Hn. by apply list_elem_of_In.
  - by apply setitem_forall.
Qed.

Lemma getitem_wf (d : dict) k v :
  wf_dict d = true -> getitem d k = Ok v -> wf_value v = true.
Proof.
  intros [_ Hall]%wf_value_Dict Hk. apply getitem_Ok_In in Hk.
  rewrite Forall_forall in Hall. apply (Hall (k, v)). by apply list_elem_of_In.
Qed.

Lemma assign_nested_wf pre :
  forall d k v d',
    wf_dict d = true -> wf_value v = true ->
    assign_nested d pre k v = Ok d' -> wf_dict d' = true.
Proof.
  induction pre as [|x pre IH]; intros d k v d' Hwf Hv; simpl.
  - intros [= <-]. by apply setitem_wf.
  - destruct (getitem d x) as [[s|d1]|e] eqn:Hx; try done.
    destruct (assign_nested d1 pre k v) as [d1'|e] eqn:Ha; [|done].
    intros [= <-]. apply setitem_wf; [done|].
    apply (IH d1 k v d1'); [|done|done]. by apply (getitem_wf d x).
Qed.

Lemma leaf_write_wf d p lbl v d' :
  wf_dict d = true -> leaf_write d p lbl v = Ok d' -> wf_dict d' = true.
Proof.
  intros Hwf. destruct p as [|x p0].
  - simpl. intros [= <-]. by apply setitem_wf.
  - destruct (@exists_last _ (x :: p0)) as [pre [k Hp]]; [done|].
    rewrite Hp, leaf_write_snoc. by apply assign_nested_wf.
Qed.

(** ** An invariant of every history *)

Lemma model_inv_intro st :
  root_ok st = true -> wf_dict (data_dict st) = true ->
  headers st = ["Name"; "Value"] -> (_rowCount st = -1 \/ _rowCount st = 0) ->
  model_inv st = true.
Proof.
  intros Hr Hw Hh Hc. unfold model_inv. rewrite Hr, Hw. simpl.
  rewrite (bool_decide_eq_true_2 _ Hh). simpl.
  destruct Hc as [-> | ->]; reflexivity.
Qed.

Lemma model_inv_elim st :
  model_inv st = true ->
  root_ok st = true /\ wf_dict (data_dict st) = true /\
  headers st = ["Name"; "Value"] /\ (_rowCount st = -1 \/ _rowCount st = 0).
Proof.
  unfold model_inv. intros [[[Hr Hw]%andb_prop Hh]%andb_prop Hc]%andb_prop.
  apply bool_decide_eq_true in Hh. repeat split; try done.
  apply orb_prop in Hc as [Hc|Hc]; [left|right]; by apply Z.eqb_eq.
Qed.

Lemma keeps_auto_refresh_rest :
  keeps (fun st => (store st, root st, headers st, data_dict st)) auto_refresh.
Proof.
  unfold auto_refresh. keeps_all; first [apply keeps_rowCount | keeps_prim].
Qed.

Lemma load_keeps_inv st :
  model_inv st = true -> fst (load st) = Ok tt /\ model_inv (snd (load st)) = true.
Proof.
  intros (Hr & Hw & Hh & Hc)%model_inv_elim.
  destruct (load_shape st Hr Hw) as (h' & Hrun & _ & Hroot).
  rewrite Hrun. split; [done|]. by apply model_inv_intro.
Qed.

Lemma act_keeps_inv st a :
  model_inv st = true -> allowed a = true -> model_inv (act st a) = true.
Proof.
  intros Hinv Hok. destruct a as [| | |idx v role|d]; simpl.
  - by apply load_keeps_inv.
  - pose proof Hinv as (Hr & Hw & Hh & Hc)%model_inv_elim.
    destruct (load_shape st Hr Hw) as (h' & Hrun & _ & Hroot).
    unfold refresh. rewrite (bind_run _ _ _ _ _ Hrun). by apply model_inv_intro.
  - pose proof Hinv as (Hr & Hw & Hh & Hc)%model_inv_elim.
    pose proof (keeps_auto_refresh_rest st) as Hk. simpl in Hk.
    injection Hk as Hs Hrt Hhd Hd.
    apply model_inv_intro.
    + unfold root_ok. by rewrite Hs, Hrt.
    + by rewrite Hd.
    + by rewrite Hhd.
    + right. apply auto_refresh_zero.
  - destruct (setData_cases st idx v role)
      as [H|[[e H]|(r & l & old & d' & _ & _ & _ & _ & _ & _ & _ & Hw' & H)]];
      rewrite H; simpl; [done|done|].
    pose proof Hinv as (Hr & Hw & Hh & Hc)%model_inv_elim.
    apply model_inv_intro; try done.
    by apply (leaf_write_wf _ _ _ _ _ Hw Hw').
  - pose proof Hinv as (Hr & Hw & Hh & Hc)%model_inv_elim.
    by apply model_inv_intro.
Qed.

Lemma history_keeps_inv l :
  forall st, model_inv st = true -> forallb allowed l = true ->
             model_inv (fold_left act l st) = true.
Proof.
  induction l as [|a l IH]; intros st Hinv Hall; simpl; [done|].
  simpl in Hall. apply andb_prop in Hall as [Ha Hall].
  apply IH; [by apply act_keeps_inv|done].
Qed.

(** Whatever is done to a model after its construction (calls of
    [load], [refresh], [auto_refresh] and [setData] with any arguments,
    and changes of the dictionary's content from outside), its root
    stays the root branch, it has the two headers and so two columns,
    and its observed row count is -1 or 0, never the number of rows;
    and [load] and [refresh] run to the end from there. *)
Theorem history_invariant (design : dict) (view : bool) (l : list action) :
  wf_dict design = true -> forallb allowed l = true ->
  model_inv (fold_left act l (snd (init design view))) = true /\
  fst (load (fold_left act l (snd (init design view)))) = Ok tt /\
  fst (refresh (fold_left act l (snd (init design view)))) = Ok tt /\
  forall idx,
    columnCount idx (fold_left act l (snd (init design view)))
    = (Ok 2, fold_left act l (snd (init design view))).
Proof.
  intros Hwf Hall.
  destruct (init_facts design view Hwf)
    as (st0 & Hinit & _ & Hd & _ & Hh & Hc & _ & _ & Hr).
  rewrite Hinit. simpl.
  assert (model_inv st0 = true) as Hinv0.
  { apply model_inv_intro; try done; [by rewrite Hd|by left]. }
  pose proof (history_keeps_inv l st0 Hinv0 Hall) as Hinv.
  set (st := fold_left act l st0) in *.
  split; [done|]. split; [by apply load_keeps_inv|].
  pose proof Hinv as (Hr' & Hw' & Hh' & Hc')%model_inv_elim.
  split.
  - destruct (load_shape st Hr' Hw') as (h' & Hrun & _).
    unfold refresh. by rewrite (bind_run _ _ _ _ _ Hrun).
  - intros idx. unfold columnCount.
    rewrite (bind_run (gets headers) _ st _ _ eq_refl). by rewrite Hh'.
Qed.

Lemma history_invariant_witness :
  model_inv (fold_left act [ActTick; ActOutside D_mixed; ActTick;
                            ActSetData (mkIndex 0 1 (Some 2%nat) true) (SInt 7) EditRole;
                            ActRefresh]
                       (snd (init D_nested true))) = true /\
  fst (load (fold_left act [ActTick; ActOutside D_mixed; ActTick;
                            ActSetData (mkIndex 0 1 (Some 2%nat) true) (SInt 7) EditRole;
                            ActRefresh]
                       (snd (init D_nested true)))) = Ok tt /\
  fst (refresh (fold_left act [ActTick; ActOutside D_mixed; ActTick;
                               ActSetData (mkIndex 0 1 (Some 2%nat) true) (SInt 7) EditRole;
                               ActRefresh]
                          (snd (init D_nested true)))) = Ok tt /\
  forall idx,
    columnCount idx (fold_left act [ActTick; ActOutside D_mixed; ActTick;
                                    ActSetData (mkIndex 0 1 (Some 2%nat) true) (SInt 7) EditRole;
                                    ActRefresh]
                               (snd (init D_nested true)))
    = (Ok 2, fold_left act [ActTick; ActOutside D_mixed; ActTick;
                            ActSetData (mkIndex 0 1 (Some 2%nat) true) (SInt 7) EditRole;
                            ActRefresh]
                       (snd (init D_nested true))).
Proof.
  apply (history_invariant D_nested true
           [ActTick; ActOutside D_mixed; ActTick;
            ActSetData (mkIndex 0 1 (Some 2%nat) true) (SInt 7) EditRole;
            ActRefresh]); vm_compute; reflexivity.
Defined.

(** ** An edit changes one recorded leaf *)

Lemma map_upd_id q v (l : list leafpath) :
  (forall p, In p l -> fst p <> q) -> map (upd q v) l = l.
Proof.
  induction l as [|p l IH]; simpl; [done|]. intros H.
  rewrite IH; [|intros p' Hp'; apply H; by right].
  unfold upd. rewrite bool_decide_eq_false_2; [done|]. apply H. by left.
Qed.

Lemma paths_other_key v cur k x rest p :
  In p (paths_of v (cur ++ [k])) -> k <> x -> fst p <> cur ++ x :: rest.
Proof.
  intros Hin Hne Heq. apply paths_of_prefix in Hin as [rel Hrel].
  rewrite Hrel, <- app_assoc in Heq. apply app_inv_head in Heq.
  simpl in Heq. congruence.
Qed.

Lemma paths_upd_setitem (d : dict) cur x w w' rest v :
  NoDup (map fst d) -> getitem d x = Ok w ->
  paths_of w' (cur ++ [x]) = map (upd (cur ++ x :: rest) v) (paths_of w (cur ++ [x])) ->
  paths_of (Dict (setitem d x w')) cur
  = map (upd (cur ++ x :: rest) v) (paths_of (Dict d) cur).
Proof.
  intros Hnd Hget Hw. simpl.
  induction d as [|[k' v'] d IH]; simpl in *; [done|].
  apply NoDup_cons in Hnd as [Hk' Hnd].
  destruct (String.eqb_spec x k') as [->|Hne]; simpl; rewrite map_app.
  - injection Hget as ->. rewrite Hw. f_equal.
    symmetry. apply map_upd_id. intros p Hp.
    apply in_flat_map in Hp as ([k'' v''] & Hin & Hp). simpl in Hp.
    apply (paths_other_key _ _ _ _ _ _ Hp). intros ->.
    apply Hk'. apply list_elem_of_In. change k' with (fst (k', v'')). by apply in_map.
  - rewrite (IH Hnd Hget). f_equal.
    symmetry. apply map_upd_id. intros p Hp.
    apply (paths_other_key _ _ _ _ _ _ Hp). congruence.
Qed.

Lemma assign_nested_paths pre :
  forall (d : dict) cur k s v d',
    wf_dict d = true ->
    get_nested_dict_item (Dict d) (pre ++ [k]) = Ok (Scalar s) ->
    assign_nested d pre k (Scalar v) = Ok d' ->
    paths_of (Dict d') cur = map (upd (cur ++ pre ++ [k]) v) (paths_of (Dict d) cur).
Proof.
  induction pre as [|x pre IH]; intros d cur k s v d' Hwf Hget Ha.
  - simpl in Ha. injection Ha as <-. simpl in Hget.
    destruct (getitem d k) as [w|e] eqn:Hk; [|done]. injection Hget as ->.
    apply wf_value_Dict in Hwf as [Hnd _].
    apply (paths_upd_setitem d cur k (Scalar s) (Scalar v) [] v Hnd Hk).
    simpl. unfold upd. simpl. by rewrite bool_decide_eq_true_2.
  - simpl in Ha, Hget.
    destruct (getitem d x) as [[s'|d1]|e] eqn:Hx; try done.
    destruct (assign_nested d1 pre k (Scalar v)) as [d1'|e] eqn:Ha1; [|done].
    injection Ha as <-.
    pose proof (getitem_wf d x _ Hwf Hx) as Hwf1.
    apply wf_value_Dict in Hwf as [Hnd _].
    apply (paths_upd_setitem d cur x (Dict d1) (Dict d1') (pre ++ [k]) v Hnd Hx).
    rewrite (IH d1 (cur ++ [x]) k s v d1' Hwf1 Hget Ha1).
    by rewrite <- app_assoc.
Qed.

(** In the model that [load] leaves, a successful edit of a leaf keeps
    the keys of the dictionary distinct and changes the recorded paths
    in one place only: the same key paths in the same order, with the
    new value at the leaf's path. A later [load] therefore builds a
    tree that flattens to the old list with that one value replaced. *)
Theorem edit_keeps_shape st0 st t r l idx v :
  root_ok st0 = true -> wf_dict (data_dict st0) = true ->
  load st0 = (Ok tt, st) -> tree st = Some t ->
  In (ALeaf r l) (subtrees t) ->
  isValid idx = true -> column idx = 1 -> internalPointer idx = Some r ->
  value l st <> (Ok (Scalar v), st) ->
  exists st1 st2 s2,
    setData idx v EditRole st = (Ok true, st1) /\
    wf_dict (data_dict st1) = true /\
    paths_of (Dict (data_dict st1)) []
    = map (upd (path l) v) (paths_of (Dict (data_dict st)) []) /\
    load st1 = (Ok tt, st2) /\
    tree_shape st2 = Some s2 /\
    flatten s2 = map reads (map (upd (path l) v) (paths st)).
Proof.
  intros Hroot Hwf Hload Htree Hin Hvalid Hcol Hptr Hne.
  destruct (load_tree st0 Hroot Hwf)
    as (st' & t1 & Hrun & Hinv & Herase & Hd & _ & Hpaths & Hroot').
  rewrite Hload in Hrun. injection Hrun as <-.
  rewrite (tree_inv_tree _ _ Hinv) in Htree. injection Htree as ->.
  rewrite <- Hd in Herase, Hwf, Hpaths.
  destruct (loaded_leaf st t r l Hinv Herase Hin) as (Hr & s & Hget & _).
  rewrite (setData_leaf_run st idx r l v Hvalid Hcol Hptr Hr), Hget.
  rewrite (proj2 (equals_false (Scalar s) v)); [|intros Heq; apply Hne; by rewrite value_run, Hget, Heq].
  unfold value_in in Hget.
  destruct (path l) as [|x p0] eqn:Hp; [done|].
  destruct (@exists_last _ (x :: p0)) as [pre [k Hk]]; [done|].
  rewrite Hk in *. rewrite leaf_write_snoc.
  destruct (assign_nested_ok pre _ k _ (Scalar v) Hget) as (d' & Ha & _).
  rewrite Ha.
  pose proof (assign_nested_wf pre _ k (Scalar v) d' Hwf eq_refl Ha) as Hwf'.
  pose proof (assign_nested_paths pre _ [] k _ v d' Hwf Hget Ha) as Hps.
  simpl in Hps.
  destruct (load_tree (with_data_dict d' st) Hroot' Hwf')
    as (st2 & t2 & Hrun2 & Hinv2 & Herase2 & Hd2 & _).
  exists (with_data_dict d' st), st2, (mirror d').
  split; [done|]. split; [done|]. split; [done|]. split; [done|].
  split.
  { unfold tree_shape. rewrite (tree_inv_tree _ _ Hinv2), Hd2. simpl.
    f_equal. exact Herase2. }
  rewrite flatten_mirror. simpl. by rewrite Hps, Hpaths.
Qed.

Lemma edit_keeps_shape_witness :
  exists st1 st2 s2,
    setData (mkIndex 0 1 (Some 2%nat) true) (SInt 7) EditRole st_nested = (Ok true, st1) /\
    wf_dict (data_dict st1) = true /\
    paths_of (Dict (data_dict st1)) []
    = map (upd ["x"; "y"] (SInt 7)) (paths_of (Dict (data_dict st_nested)) []) /\
    load st1 = (Ok tt, st2) /\
    tree_shape st2 = Some s2 /\
    flatten s2 = map reads (map (upd ["x"; "y"] (SInt 7)) (paths st_nested)).
Proof.
  apply (edit_keeps_shape (snd (_start_timer (fresh D_nested true)))
           st_nested
           (ABranch 0 "" None
              [ABranch 1 "x" (Some 0%nat)
                 [ALeaf 2 (mkLeafNode "y" (Some 1%nat) ["x"; "y"])]])
           2%nat (mkLeafNode "y" (Some 1%nat) ["x"; "y"])
           (mkIndex 0 1 (Some 2%nat) true) (SInt 7)).
  - vm_compute. reflexivity.
  - vm_compute. reflexivity.
  - vm_compute. reflexivity.
  - vm_compute. reflexivity.
  - simpl. right. right. by left.
  - reflexivity.
  - reflexivity.
  - reflexivity.
  - discriminate.
Defined.

(** ** Invariants of a loaded tree *)

Lemma mirror_value_unfold k items prefix :
  mirror_value k (Dict items) prefix
  = match mirror_items items (prefix ++ [k]) with
    | [] => []
    | sub => [SBranch k sub]
    end.
Proof. reflexivity. Qed.

Lemma mirror_items_all (P : list string -> shape -> bool) items :
  Forall (fun kv => forall k prefix,
                      forallb (P prefix) (mirror_value k (snd kv) prefix) = true) items ->
  forall prefix, forallb (P prefix) (mirror_items items prefix) = true.
Proof.
  unfold mirror_items. induction 1 as [|[k v] items Hv _ IH]; intros prefix; simpl; [done|].
  simpl in Hv. rewrite forallb_app. by rewrite (Hv k prefix), IH.
Qed.

Lemma mirror_value_spelled v :
  forall k prefix, forallb (spelled prefix) (mirror_value k v prefix) = true.
Proof.
  induction v as [s|items IH] using pyvalue_ind; intros k prefix.
  - simpl. by rewrite bool_decide_eq_true_2.
  - rewrite mirror_value_unfold.
    pose proof (mirror_items_all spelled items IH (prefix ++ [k])) as Hsub.
    destruct (mirror_items items (prefix ++ [k])) as [|s sub]; [done|].
    rewrite forallb_single. exact Hsub.
Qed.

Lemma mirror_value_populated v :
  forall k (prefix : list string),
    forallb ((fun _ : list string => populated) prefix) (mirror_value k v prefix) = true.
Proof.
  induction v as [s|items IH] using pyvalue_ind; intros k prefix; [done|].
  rewrite mirror_value_unfold.
  pose proof (mirror_items_all (fun _ => populated) items IH (prefix ++ [k])) as Hsub.
  destruct (mirror_items items (prefix ++ [k])) as [|s sub]; [done|].
  rewrite forallb_single. simpl in *. exact Hsub.
Qed.

(** After [load], the key path of every leaf is the list of names of
    the branches above it followed by its own label (so it is never
    empty, and the write of [setData] always goes through the path),
    and every branch below the root has at least one child. *)
Theorem load_paths_spell st :
  root_ok st = true -> wf_dict (data_dict st) = true ->
  exists st' s,
    load st = (Ok tt, st') /\
    tree_shape st' = Some s /\
    forallb (spelled []) (kids_of s) = true /\
    forallb populated (kids_of s) = true.
Proof.
  intros Hroot Hwf.
  destruct (load_tree st Hroot Hwf) as (st' & t & Hrun & Hinv & Herase & Hd & _).
  exists st', (erase (data_dict st) t). split; [done|].
  unfold tree_shape. rewrite (tree_inv_tree _ _ Hinv), Hd. split; [done|].
  rewrite Herase. simpl. split.
  - apply (mirror_items_all spelled). apply Forall_forall. intros kv _.
    apply mirror_value_spelled.
  - apply (mirror_items_all (fun _ => populated)). apply Forall_forall. intros kv _.
    apply mirror_value_populated.
Qed.

Lemma load_paths_spell_witness :
  exists st' s,
    load (fresh D_mixed true) = (Ok tt, st') /\
    tree_shape st' = Some s /\
    forallb (spelled []) (kids_of s) = true /\
    forallb populated (kids_of s) = true.
Proof. apply (load_paths_spell (fresh D_mixed true)); vm_compute; reflexivity. Defined.

(** ** Recorded paths are distinct *)

Lemma paths_of_NoDup v :
  wf_value v = true -> forall cur, NoDup (map fst (paths_of v cur)).
Proof.
  induction v as [s|items IH] using pyvalue_ind; intros Hwf cur.
  - apply NoDup_singleton.
  - apply wf_value_Dict in Hwf as [Hnd Hwf]. simpl.
    induction IH as [|[k v] items Hv _ IHi]; simpl; [constructor|].
    apply NoDup_cons in Hnd as [Hk Hnd]. apply Forall_cons in Hwf as [Hwfv Hwf].
    rewrite map_app. apply NoDup_app. split; [exact (Hv Hwfv (cur ++ [k]))|].
    split; [|apply IHi; [exact Hnd|exact Hwf]].
    intros q Hq Hq'. apply list_elem_of_In in Hq, Hq'.
    apply in_map_iff in Hq as (p & <- & Hp).
    apply in_map_iff in Hq' as (p' & Heq & Hp').
    apply in_flat_map in Hp' as ([k' v'] & Hin & Hp'). simpl in Hp'.
    apply paths_of_prefix in Hp as [rel Hrel].
    apply (paths_other_key _ _ _ k rel _ Hp').
    + intros Hkk. subst k'. apply Hk. apply list_elem_of_In.
      apply in_map_iff. exists (k, v'). split; [done|exact Hin].
    + rewrite Heq, Hrel. by rewrite <- app_assoc.
Qed.

(** [getPaths] appends to the recorded paths, in item order, one path
    per scalar of the dictionary: the appended key paths are pairwise
    distinct and none is empty. *)
Theorem getPaths_distinct (d : dict) st :
  wf_dict d = true ->
  exists ps,
    getPaths d [] st = (Ok tt, mkModel (data_dict st) (store st) (root st) (headers st)
                                       (paths st ++ ps) (_rowCount st) (_view st)
                                       (emitted st)) /\
    ps = paths_of (Dict d) [] /\
    NoDup (map fst ps) /\
    Forall (fun p => fst p <> []) ps.
Proof.
  intros Hwf. exists (paths_of (Dict d) []). split; [done|]. split; [done|].
  split; [by apply paths_of_NoDup|].
  apply Forall_forall. intros p Hp. apply list_elem_of_In in Hp.
  destruct (paths_of_Dict_under _ _ _ Hp) as (r & lbl & ->). simpl. by destruct r.
Qed.

Lemma getPaths_distinct_witness :
  exists ps,
    getPaths D_mixed [] st_flat
    = (Ok tt, mkModel (data_dict st_flat) (store st_flat) (root st_flat) (headers st_flat)
                      (paths st_flat ++ ps) (_rowCount st_flat) (_view st_flat)
                      (emitted st_flat)) /\
    ps = paths_of (Dict D_mixed) [] /\
    NoDup (map fst ps) /\
    Forall (fun p => fst p <> []) ps.
Proof. apply (getPaths_distinct D_mixed st_flat). vm_compute. reflexivity. Defined.

(** ** Rows of the root *)

Lemma shape_ind (P : shape -> Prop) :
  (forall lbl p v, P (SLeaf lbl p v)) ->
  (forall nm kids, Forall P kids -> P (SBranch nm kids)) ->
  forall s, P s.
Proof.
  intros Hl Hb. fix IH 1. intros [lbl p v|nm kids]; [apply Hl|].
  apply Hb. induction kids as [|k kids IHk]; constructor; [apply IH|apply IHk].
Qed.

Lemma populated_flatten s :
  forall prefix, populated s = true -> flatten_below prefix s <> [].
Proof.
  induction s as [lbl p v|nm kids IH] using shape_ind; intros prefix; [done|].
  simpl. destruct kids as [|k kids]; [done|]. simpl.
  intros [Hk _]%andb_prop. apply Forall_cons in IH as [IHk _].
  specialize (IHk (prefix ++ [nm]) Hk). by destruct (flatten_below (prefix ++ [nm]) k).
Qed.

Lemma paths_of_length v : forall cur cur', length (paths_of v cur) = length (paths_of v cur').
Proof.
  induction v as [s|items IH] using pyvalue_ind; intros cur cur'; [done|].
  simpl. induction IH as [|[k v] items Hv _ IHi]; simpl; [done|].
  simpl in Hv. rewrite !length_app. by rewrite (Hv (cur ++ [k]) (cur' ++ [k])), IHi.
Qed.

Lemma holds_scalar_length v cur :
  holds_scalar v = match paths_of v cur with [] => false | _ :: _ => true end.
Proof.
  unfold holds_scalar. pose proof (paths_of_length v [] cur) as H.
  destruct (paths_of v []), (paths_of v cur); done.
Qed.

Lemma mirror_value_count k v prefix :
  length (mirror_value k v prefix) = if holds_scalar v then 1%nat else 0%nat.
Proof.
  rewrite (holds_scalar_length v (prefix ++ [k])).
  pose proof (flatten_mirror_value k v prefix) as Hf.
  pose proof (mirror_value_populated v k prefix) as Hpop. simpl in Hpop.
  destruct v as [s|items]; [done|].
  rewrite mirror_value_unfold in *.
  destruct (mirror_items items (prefix ++ [k])) as [|s sub].
  - by destruct (paths_of (Dict items) (prefix ++ [k])).
  - rewrite forallb_single in Hpop. apply (populated_flatten _ prefix) in Hpop.
    cbn [flat_map] in Hf. rewrite app_nil_r in Hf.
    destruct (paths_of (Dict items) (prefix ++ [k])); [|done].
    by rewrite Hf in Hpop.
Qed.

Lemma mirror_items_count (d : dict) prefix :
  length (mirror_items d prefix)
  = length (List.filter (fun kv => holds_scalar (snd kv)) d).
Proof.
  unfold mirror_items. induction d as [|[k v] d IH]; simpl; [done|].
  rewrite length_app, mirror_value_count, IH. by destruct (holds_scalar v).
Qed.

Lemma root_rows st h' kids' :
  rep h' None (ABranch (root st) "" None kids') ->
  rowCount QModelIndex_null (with_store h' st) = (Ok (Z.of_nat (length kids')), with_store h' st).
Proof.
  intros (_ & Hr & _)%rep_branch. unfold rowCount.
  rewrite (bind_run _ _ _ _ _ (nodeFromIndex_run _ _)).
  change (node_at QModelIndex_null (with_store h' st)) with (Some (root st)).
  cbv beta iota.
  assert (store (with_store h' st) !! root st
          = Some (Branch (mkBranchNode "" None (map entry kids')))) as Hr' by done.
  rewrite (bind_run _ _ _ _ _ (deref_run _ _ _ Hr')). simpl. by rewrite length_map.
Qed.

(** After [load], the row count of the root (the invalid index) is the
    number of top-level keys whose value is a scalar or a mapping that
    holds a scalar at some depth; the other top-level keys have no
    row. *)
Theorem rowCount_root st :
  root_ok st = true -> wf_dict (data_dict st) = true ->
  exists st',
    load st = (Ok tt, st') /\
    rowCount QModelIndex_null st'
    = (Ok (Z.of_nat (length (List.filter (fun kv => holds_scalar (snd kv)) (data_dict st)))),
       st').
Proof.
  intros Hroot Hwf.
  destruct (load_spec st Hroot Hwf) as (h' & kids' & Hrun & Hrep & _ & Herase).
  eexists. split; [exact Hrun|].
  rewrite <- mirror_items_count with (prefix := []), <- Herase, length_map.
  exact (root_rows (mkModel (data_dict st) (store st) (root st) (headers st)
                            (paths_of (Dict (data_dict st)) []) (_rowCount st) (_view st)
                            ((emitted st ++ [ModelAboutToBeReset]) ++ [ModelReset]))
                   h' kids' Hrep).
Qed.

Lemma rowCount_root_witness :
  exists st',
    load (fresh D_mixed true) = (Ok tt, st') /\
    rowCount QModelIndex_null st'
    = (Ok (Z.of_nat (length (List.filter (fun kv => holds_scalar (snd kv))
                                         (data_dict (fresh D_mixed true))))),
       st').
Proof. apply (rowCount_root (fresh D_mixed true)); vm_compute; reflexivity. Defined.

(** A dictionary without any scalar (the empty one, or one of empty
    mappings only) loads into a root without children: its row count
    is 0, and [index] fails its first assertion whatever row, column
    and parent it is given. *)
Theorem load_without_scalars st :
  root_ok st = true -> wf_dict (data_dict st) = true ->
  paths_of (Dict (data_dict st)) [] = [] ->
  exists st',
    load st = (Ok tt, st') /\
    tree_shape st' = Some (SBranch "" []) /\
    rowCount QModelIndex_null st' = (Ok 0, st') /\
    forall r c p, index r c p st' = (Raise AssertionError, st').
Proof.
  intros Hroot Hwf Hnone.
  destruct (load_spec st Hroot Hwf) as (h' & kids' & Hrun & Hrep & Hnd & Herase).
  pose proof (build_dict _ Hwf) as Hb. rewrite Hnone in Hb.
  unfold build in Hb. simpl in Hb. injection Hb as Hb. rewrite <- Hb in Herase.
  destruct kids' as [|k kids']; [|done].
  set (st' := mkModel (data_dict st) h' (root st) (headers st)
                      (paths_of (Dict (data_dict st)) []) (_rowCount st) (_view st)
                      ((emitted st ++ [ModelAboutToBeReset]) ++ [ModelReset])) in *.
  exists st'. split; [done|].
  assert (tree_inv st' (ABranch (root st) "" None [])) as Hinv by done.
  split; [unfold tree_shape; by rewrite (tree_inv_tree _ _ Hinv)|].
  split; [exact (root_rows st' h' [] Hrep)|].
  intros r c p. apply rep_branch in Hrep as (_ & Hr & _).
  assert (store st' !! root st' = Some (Branch (mkBranchNode "" None []))) as Hr' by done.
  unfold index. rewrite (bind_run (gets root) _ st' _ _ eq_refl).
  by rewrite (bind_run _ _ _ _ _ (truth_run _ _ _ Hr')).
Qed.

Lemma load_without_scalars_witness :
  exists st',
    load (fresh D_hollow true) = (Ok tt, st') /\
    tree_shape st' = Some (SBranch "" []) /\
    rowCount QModelIndex_null st' = (Ok 0, st') /\
    forall r c p, index r c p st' = (Raise AssertionError, st').
Proof. apply (load_without_scalars (fresh D_hollow true)); vm_compute; reflexivity. Defined.

(** ** What a cell shows *)

Lemma populated_subtrees d t :
  populated (erase d t) = true ->
  forall s, In s (subtrees t) -> populated (erase d s) = true.
Proof.
  induction t as [r l|r nm par kids IH] using atree_ind; intros Hpop s.
  - simpl. by intros [<-|[]].
  - simpl. intros [<-|Hin]; [done|].
    simpl in Hpop. apply andb_prop in Hpop as [_ Hall].
    apply in_flat_map in Hin as (k & Hk & Hs).
    rewrite Forall_forall in IH. apply (IH k); [by apply list_elem_of_In| |done].
    rewrite forallb_forall in Hall. apply Hall. by apply in_map.
Qed.

Lemma loaded_branch st t r nm par kids :
  tree_inv st t -> erase (data_dict st) t = mirror (data_dict st) ->
  In (ABranch r nm par kids) (subtrees t) ->
  store st !! r = Some (Branch (mkBranchNode nm par (map entry kids))) /\
  (r <> root st -> kids <> []).
Proof.
  intros (Href & Hrep & _) Herase Hin. split.
  - destruct (rep_subtree _ _ _ _ Hrep Hin) as [pr' (_ & Hr & _)%rep_branch]. done.
  - intros Hne. destruct t as [r0 l0|r0 nm0 par0 kids0]; [done|].
    simpl in Hin, Href. destruct Hin as [[= -> _ _ _]|Hin]; [done|].
    apply in_flat_map in Hin as (k & Hk & Hs).
    assert (populated (erase (data_dict st) k) = true) as Hpop.
    { simpl in Herase. injection Herase as _ Hkids.
      assert (forallb populated (mirror_items (data_dict st) []) = true) as Hall.
      { apply (mirror_items_all (fun _ => populated)).
        apply Forall_forall. intros kv _. apply mirror_value_populated. }
      rewrite <- Hkids in Hall. rewrite forallb_forall in Hall.
      apply Hall. by apply in_map. }
    pose proof (populated_subtrees _ k Hpop _ Hs) as Hs'. simpl in Hs'.
    by destruct kids.
Qed.

(** In the model that [load] leaves, a leaf reads as its value the
    scalar the dictionary holds at the leaf's path; the display role of
    the leaf's cell is its label in column 0 and the text of that value
    in column 1, and null in any other column; the edit role gives the
    same. The cell of a branch below the root is its name in column 0
    and the empty string elsewhere. *)
Theorem data_shows st0 st t idx r :
  root_ok st0 = true -> wf_dict (data_dict st0) = true ->
  load st0 = (Ok tt, st) -> tree st = Some t ->
  isValid idx = true -> internalPointer idx = Some r ->
  (forall l, In (ALeaf r l) (subtrees t) ->
     exists s,
       get_nested_dict_item (Dict (data_dict st)) (path l) = Ok (Scalar s) /\
       value l st = (Ok (Scalar s), st) /\
       data idx DisplayRole st
       = (Ok (if column idx =? 0 then VStr (label l)
              else if column idx =? 1 then VStr (str s)
              else QVariant_null), st) /\
       data idx EditRole st = data idx DisplayRole st) /\
  (forall nm par kids, In (ABranch r nm par kids) (subtrees t) -> r <> root st ->
     data idx DisplayRole st = (Ok (VStr (if column idx =? 0 then nm else "")), st) /\
     data idx EditRole st = data idx DisplayRole st).
Proof.
  intros Hroot Hwf Hload Htree Hvalid Hptr.
  destruct (load_tree st0 Hroot Hwf) as (st' & t1 & Hrun & Hinv & Herase & Hd & _).
  rewrite Hload in Hrun. injection Hrun as <-.
  rewrite (tree_inv_tree _ _ Hinv) in Htree. injection Htree as ->.
  rewrite <- Hd in Herase, Hwf.
  assert (nodeFromIndex idx st = (Ok (Some r), st)) as Hn.
  { rewrite nodeFromIndex_run. unfold node_at. by rewrite Hvalid, Hptr. }
  assert (data idx EditRole st = data idx DisplayRole st) as Hedit.
  { unfold data. by rewrite Hvalid. }
  split.
  - intros l Hin. destruct (loaded_leaf st t r l Hinv Herase Hin) as (Hr & s & Hget & _).
    exists s. split; [done|]. split; [by apply value_ok|]. split; [|done].
    unfold data, data_display. rewrite Hvalid. simpl.
    rewrite (bind_run _ _ _ _ _ Hn), (bind_run _ _ _ _ _ (truth_run _ _ _ Hr)). simpl.
    rewrite (bind_run _ _ _ _ _ (deref_run _ _ _ Hr)).
    destruct (column idx =? 0); [done|]. destruct (column idx =? 1); [|done].
    by rewrite (bind_run _ _ _ _ _ (proj2 (value_ok st l _) Hget)).
  - intros nm par kids Hin Hne.
    destruct (loaded_branch st t r nm par kids Hinv Herase Hin) as [Hr Hkids].
    split; [|done]. unfold data, data_display. rewrite Hvalid. simpl.
    rewrite (bind_run _ _ _ _ _ Hn), (bind_run _ _ _ _ _ (truth_run _ _ _ Hr)). simpl.
    destruct kids as [|k kids]; [by destruct (Hkids Hne)|]. simpl.
    rewrite (bind_run _ _ _ _ _ (deref_run _ _ _ Hr)).
    by destruct (column idx =? 0).
Qed.

Lemma data_shows_witness :
  (forall l, In (ALeaf 2 l)
                (subtrees (ABranch 0 "" None
                   [ABranch 1 "x" (Some 0%nat)
                      [ALeaf 2 (mkLeafNode "y" (Some 1%nat) ["x"; "y"])]])) ->
     exists s,
       get_nested_dict_item (Dict (data_dict st_nested)) (path l) = Ok (Scalar s) /\
       value l st_nested = (Ok (Scalar s), st_nested) /\
       data (mkIndex 0 1 (Some 2%nat) true) DisplayRole st_nested
       = (Ok (if column (mkIndex 0 1 (Some 2%nat) true) =? 0 then VStr (label l)
              else if column (mkIndex 0 1 (Some 2%nat) true) =? 1 then VStr (str s)
              else QVariant_null), st_nested) /\
       data (mkIndex 0 1 (Some 2%nat) true) EditRole st_nested
       = data (mkIndex 0 1 (Some 2%nat) true) DisplayRole st_nested) /\
  (forall nm par kids,
     In (ABranch 2 nm par kids)
        (subtrees (ABranch 0 "" None
           [ABranch 1 "x" (Some 0%nat)
              [ALeaf 2 (mkLeafNode "y" (Some 1%nat) ["x"; "y"])]])) ->
     2%nat <> root st_nested ->
     data (mkIndex 0 1 (Some 2%nat) true) DisplayRole st_nested
     = (Ok (VStr (if column (mkIndex 0 1 (Some 2%nat) true) =? 0 then nm else "")), st_nested) /\
     data (mkIndex 0 1 (Some 2%nat) true) EditRole st_nested
     = data (mkIndex 0 1 (Some 2%nat) true) DisplayRole st_nested).
Proof.
  apply (data_shows (snd (_start_timer (fresh D_nested true))) st_nested
           (ABranch 0 "" None
              [ABranch 1 "x" (Some 0%nat)
                 [ALeaf 2 (mkLeafNode "y" (Some 1%nat) ["x"; "y"])]])
           (mkIndex 0 1 (Some 2%nat) true) 2%nat).
  - vm_compute. reflexivity.
  - vm_compute. reflexivity.
  - vm_compute. reflexivity.
  - vm_compute. reflexivity.
  - reflexivity.
  - reflexivity.
Defined.

(** ** Headers *)

(** [headerData] never raises. For the display role it returns a
    header exactly for the horizontal sections from 0 up to the column
    count, and null for every other section, and for the vertical
    orientation; for the font role of a horizontal section it returns a
    bold font. *)
Theorem headerData_total st sec o role :
  (exists v, headerData sec o role st = (Ok v, st)) /\
  ((exists h, headerData sec o role st = (Ok (VStr h), st)) <->
   o = Horizontal /\ role = DisplayRole /\ 0 <= sec < Z.of_nat (length (headers st))) /\
  (forall idx, columnCount idx st = (Ok (Z.of_nat (length (headers st))), st)) /\
  (o = Horizontal -> role = FontRole -> headerData sec o role st = (Ok (VFont true), st)) /\
  (o = Vertical -> headerData sec o role st = (Ok QVariant_null, st)).
Proof.
  assert (forall idx, columnCount idx st = (Ok (Z.of_nat (length (headers st))), st)) as Hcc.
  { intros idx. unfold columnCount. by rewrite (bind_run (gets headers) _ st _ _ eq_refl). }
  split; [|split; [|split; [done|split]]].
  - destruct o, role; simpl; try by eexists.
    rewrite (bind_run (gets headers) _ st _ _ eq_refl).
    destruct (Z.leb_spec 0 sec), (Z.ltb_spec sec (Z.of_nat (length (headers st))));
      simpl; try by eexists.
    destruct (lookup_lt_is_Some_2 (headers st) (Z.to_nat sec)) as [h Hh]; [lia|].
    rewrite Hh. by eexists.
  - split.
    + intros [h Hh]. destruct o, role; simpl in Hh; try discriminate Hh.
      rewrite (bind_run (gets headers) _ st _ _ eq_refl) in Hh.
      destruct (Z.leb_spec 0 sec), (Z.ltb_spec sec (Z.of_nat (length (headers st))));
        simpl in Hh; try discriminate Hh.
      done.
    + intros (-> & -> & Hsec). simpl.
      rewrite (bind_run (gets headers) _ st _ _ eq_refl).
      destruct (Z.leb_spec 0 sec), (Z.ltb_spec sec (Z.of_nat (length (headers st))));
        simpl; try lia.
      destruct (lookup_lt_is_Some_2 (headers st) (Z.to_nat sec)) as [h Hh]; [lia|].
      rewrite Hh. by eexists.
  - by intros -> ->.
  - by intros ->.
Qed.

(** ** Children and their parent *)

Lemma subtree_addr t s : In s (subtrees t) -> In (aref s) (addrs t).
Proof.
  induction t as [r l|r nm par kids IH] using atree_ind.
  - simpl. intros [<-|[]]. by left.
  - simpl. intros [<-|Hin]; [by left|]. right.
    apply in_flat_map in Hin as (k & Hk & Hs). apply in_flat_map.
    exists k. split; [done|]. rewrite Forall_forall in IH.
    apply IH; [by apply list_elem_of_In|done].
Qed.

Lemma subtree_trans t s u : In s (subtrees t) -> In u (subtrees s) -> In u (subtrees t).
Proof.
  induction t as [r l|r nm par kids IH] using atree_ind.
  - simpl. intros [<-|[]]. done.
  - simpl. intros [<-|Hin] Hu; [done|]. right.
    apply in_flat_map in Hin as (k & Hk & Hs). apply in_flat_map.
    exists k. split; [done|]. rewrite Forall_forall in IH.
    apply IH; [by apply list_elem_of_In|done|done].
Qed.

Lemma kid_subtree r nm par kids k :
  In k kids -> In k (subtrees (ABranch r nm par kids)).
Proof.
  intros Hk. simpl. right. apply in_flat_map. exists k. split; [done|].
  destruct k; simpl; by left.
Qed.

Lemma childAtRow_row st g row b :
  childAtRow g row st = (Ok (Some b), st) -> 0 <= row.
Proof.
  unfold childAtRow, bind, deref.
  destruct (store st !! g) as [[br|l]|]; try done. unfold ret.
  destruct (Z.leb_spec 0 row); [done|]. simpl. by intros [=].
Qed.

(** In the model that [load] leaves, let an index stand for a branch
    of the tree (the invalid index for the root). Its row count is the
    number of children of the branch; for every row below that count
    and every column from 0 on, [index] returns an index for the child
    at that row, and [parent] of that index stands for the branch
    again. *)
Theorem index_then_parent st0 st t p b nm par kids row col :
  root_ok st0 = true -> wf_dict (data_dict st0) = true ->
  load st0 = (Ok tt, st) -> tree st = Some t ->
  node_at p st = Some b -> In (ABranch b nm par kids) (subtrees t) ->
  0 <= row < Z.of_nat (length kids) -> 0 <= col ->
  rowCount p st = (Ok (Z.of_nat (length kids)), st) /\
  exists k i,
    kids !! Z.to_nat row = Some k /\
    index row col p st = (Ok (createIndex row col (Some (aref k))), st) /\
    parent (createIndex row col (Some (aref k))) st = (Ok i, st) /\
    node_at i st = Some b.
Proof.
  intros Hroot Hwf Hload Htree Hnode Hin Hrow Hcol.
  destruct (load_tree st0 Hroot Hwf) as (st' & t1 & Hrun & Hinv & Herase & Hd & _).
  rewrite Hload in Hrun. injection Hrun as <-.
  rewrite (tree_inv_tree _ _ Hinv) in Htree. injection Htree as ->.
  rewrite <- Hd in Herase.
  destruct (loaded_branch st t b nm par kids Hinv Herase Hin) as [Hb Hkids].
  split.
  { unfold rowCount. rewrite (bind_run _ _ _ _ _ (nodeFromIndex_run p st)), Hnode.
    rewrite (bind_run _ _ _ _ _ (deref_run _ _ _ Hb)). simpl. by rewrite length_map. }
  destruct (lookup_lt_is_Some_2 kids (Z.to_nat row)) as [k Hk]; [lia|].
  assert (In k kids) as Hkin.
  { apply list_elem_of_In. by eapply list_elem_of_lookup_2. }
  (* the root has children *)
  destruct t as [r0 l0|r0 nm0 par0 kids0]; [done|].
  pose proof Hinv as (Href & Hrep & _). simpl in Href.
  assert (kids0 <> []) as Hroot0.
  { simpl in Hin. destruct Hin as [[= _ _ _ ->]|Hin0].
    - intros ->. simpl in Hrow. lia.
    - intros ->. done. }
  assert (store st !! root st = Some (Branch (mkBranchNode nm0 par0 (map entry kids0))))
    as Hr0.
  { apply rep_branch in Hrep as (_ & Hr & _). by rewrite <- Href. }
  exists k.
  assert (index row col p st = (Ok (createIndex row col (Some (aref k))), st)) as Hindex.
  { unfold index. rewrite (bind_run (gets root) _ st _ _ eq_refl).
    rewrite (bind_run _ _ _ _ _ (truth_run _ _ _ Hr0)). simpl.
    destruct kids0 as [|k0 kids0]; [done|]. simpl.
    rewrite (bind_run _ _ _ _ _ (nodeFromIndex_run p st)), Hnode.
    assert (childAtRow b row st = (Ok (Some (aref k)), st)) as Hc.
    { unfold childAtRow. rewrite (bind_run _ _ _ _ _ (deref_run _ _ _ Hb)). simpl.
      rewrite length_map.
      destruct (Z.leb_spec 0 row); [|lia].
      destruct (Z.ltb_spec row (Z.of_nat (length kids))); [|lia]. simpl.
      by rewrite list_lookup_fmap, Hk. }
    by rewrite (bind_run _ _ _ _ _ Hc). }
  assert (node_at (createIndex row col (Some (aref k))) st = Some (aref k)) as Hnk.
  { unfold node_at, isValid. simpl.
    destruct (Z.leb_spec 0 row); [|lia]. destruct (Z.leb_spec 0 col); [|lia]. done. }
  assert (In (aref k) (addrs (ABranch r0 nm0 par0 kids0))) as Haddr.
  { apply subtree_addr. apply (subtree_trans _ _ _ Hin). by apply kid_subtree. }
  destruct (parent_answer st _ _ _ Hinv Hnk Haddr) as (n & Hn & Hmatch).
  destruct (rep_kid _ _ _ _ _ _ _ _ Hrep Hin Hkin) as [_ Hrepk].
  destruct (rep_node _ _ _ Hrepk) as (n' & Hn' & Hpar).
  rewrite Hn in Hn'. injection Hn' as <-. rewrite Hpar in Hmatch.
  destruct Hmatch as (pn & Hpn & Hmatch).
  destruct (node_parent pn) as [g|].
  - destruct Hmatch as (row' & Hparent & Hchild).
    exists (createIndex row' 0 (Some b)). split; [done|]. split; [done|].
    split; [done|]. pose proof (childAtRow_row _ _ _ _ Hchild).
    unfold node_at, isValid. simpl. by destruct (Z.leb_spec 0 row'); [|lia].
  - destruct Hmatch as [-> Hparent].
    exists QModelIndex_null. by repeat split.
Qed.

Lemma index_then_parent_witness :
  rowCount (mkIndex 0 0 (Some 1%nat) true) st_nested = (Ok (Z.of_nat (length
    [ALeaf 2 (mkLeafNode "y" (Some 1%nat) ["x"; "y"])])), st_nested) /\
  exists k i,
    [ALeaf 2 (mkLeafNode "y" (Some 1%nat) ["x"; "y"])] !! Z.to_nat 0 = Some k /\
    index 0 1 (mkIndex 0 0 (Some 1%nat) true) st_nested
    = (Ok (createIndex 0 1 (Some (aref k))), st_nested) /\
    parent (createIndex 0 1 (Some (aref k))) st_nested = (Ok i, st_nested) /\
    node_at i st_nested = Some 1%nat.
Proof.
  apply (index_then_parent (snd (_start_timer (fresh D_nested true))) st_nested
           (ABranch 0 "" None
              [ABranch 1 "x" (Some 0%nat)
                 [ALeaf 2 (mkLeafNode "y" (Some 1%nat) ["x"; "y"])]])
           (mkIndex 0 0 (Some 1%nat) true) 1%nat "x" (Some 0%nat)
           [ALeaf 2 (mkLeafNode "y" (Some 1%nat) ["x"; "y"])] 0 1).
  - vm_compute. reflexivity.
  - vm_compute. reflexivity.
  - vm_compute. reflexivity.
  - vm_compute. reflexivity.
  - reflexivity.
  - simpl. right. by left.
  - simpl. lia.
  - lia.
Defined.

(** ** Leaves keep their key path *)

Lemma maintains_bind (P : model -> Prop) {A C} (m : M A) (k : A -> M C) :
  maintains P m -> (forall a, maintains P (k a)) -> maintains P (bind m k).
Proof.
  intros Hm Hk st HP. unfold bind. specialize (Hm st HP).
  destruct (m st) as [[a|e] st']; simpl in *; [|done].
  by apply Hk.
Qed.

Lemma maintains_lift (P : model -> Prop) {A C} (r : result A) (k : A -> M C) :
  (forall a, r = Ok a -> maintains P (k a)) -> maintains P (bind (lift r) k).
Proof.
  intros Hk st HP. unfold bind, lift. destruct r as [a|e]; [|done]. by apply Hk.
Qed.

Lemma maintains_keeps {A} (m : M A) :
  keeps store m -> maintains (fun st => leaves_ok st = true) m.
Proof. intros Hk st HP. unfold leaves_ok. by rewrite Hk. Qed.

Lemma leaves_ok_lookup st r n :
  leaves_ok st = true -> store st !! r = Some n -> leaf_ok n = true.
Proof.
  unfold leaves_ok. rewrite forallb_forall. intros Hall Hr.
  apply Hall. apply list_elem_of_In. by eapply list_elem_of_lookup_2.
Qed.

Lemma forallb_insert {A} (f : A -> bool) (l : list A) i x :
  forallb f l = true -> f x = true -> forallb f (<[i := x]> l) = true.
Proof.
  revert i. induction l as [|y l IH]; intros i; simpl; [done|].
  intros [Hy Hl]%andb_prop Hx. destruct i as [|i]; simpl.
  - by rewrite Hx, Hl.
  - by rewrite Hy, IH.
Qed.

Lemma leaf_ok_set_parent p n : leaf_ok (set_parent p n) = leaf_ok n.
Proof. by destruct n. Qed.

Lemma maintains_new n :
  leaf_ok n = true -> maintains (fun st => leaves_ok st = true) (new n).
Proof.
  intros Hn st HP. unfold leaves_ok in *. simpl.
  rewrite forallb_app, HP. simpl. by rewrite Hn.
Qed.

Lemma maintains_insertChild r c :
  maintains (fun st => leaves_ok st = true) (insertChild r c).
Proof.
  intros st HP. unfold insertChild, bind, deref.
  destruct (store st !! r) as [[b|l]|] eqn:Hr; simpl; [|done|done].
  destruct (store st !! c) as [cn|] eqn:Hc; simpl; [|done].
  assert (forallb leaf_ok (<[c := set_parent (Some r) cn]> (store st)) = true) as H1.
  { apply forallb_insert; [done|].
    rewrite leaf_ok_set_parent. by apply (leaves_ok_lookup st c). }
  destruct (<[c := set_parent (Some r) cn]> (store st) !! r) as [[b'|l']|]; simpl; try done.
  unfold leaves_ok. simpl. by apply forallb_insert.
Qed.

Lemma maintains_find_or_create r key :
  maintains (fun st => leaves_ok st = true) (find_or_create r key).
Proof.
  assert (maintains (fun st => leaves_ok st = true)
            (do b' <- BranchNode_new key; run insertChild r b'; ret b')) as Hnew.
  { apply maintains_bind; [by apply maintains_new|intros b'].
    apply maintains_bind; [apply maintains_insertChild|intros _].
    apply maintains_keeps, keeps_ret. }
  unfold find_or_create.
  apply maintains_bind; [apply maintains_keeps, keeps_childWithKey|intros found].
  apply maintains_bind; [apply maintains_keeps, keeps_truth|intros t].
  destruct found as [b|]; [|done]. destruct t; [|done].
  apply maintains_keeps, keeps_ret.
Qed.

Lemma maintains_load_descend keys :
  forall r b, maintains (fun st => leaves_ok st = true) (load_descend keys r b).
Proof.
  induction keys as [|k keys IH]; intros r b; simpl.
  - apply maintains_keeps, keeps_ret.
  - apply maintains_bind; [apply maintains_find_or_create|intros a; apply IH].
Qed.

Lemma maintains_load_attach p r b :
  maintains (fun st => leaves_ok st = true) (load_attach p r b).
Proof.
  unfold load_attach.
  apply maintains_bind; [apply maintains_keeps, keeps_truth|intros t].
  apply maintains_bind.
  { apply maintains_keeps. destruct (negb t); [apply keeps_ret|].
    destruct b; apply keeps_ret. }
  intros target.
  apply maintains_bind.
  { apply maintains_keeps. unfold insertChild_of. keeps_all. }
  intros _. apply maintains_lift. intros lbl Hl.
  apply maintains_bind; [|intros leaf; apply maintains_insertChild].
  apply maintains_new. simpl. apply bool_decide_eq_true.
  unfold last_item in Hl. destruct (last (fst p)); [|done]. by injection Hl as ->.
Qed.

Lemma maintains_load_path p :
  maintains (fun st => leaves_ok st = true) (load_path p).
Proof.
  unfold load_path.
  apply maintains_bind; [apply maintains_keeps, keeps_gets|intros r0].
  apply maintains_bind; [apply maintains_load_descend|intros rb].
  apply maintains_load_attach.
Qed.

Lemma maintains_for_each {A} (P : model -> Prop) (l : list A) (body : A -> M unit) :
  (forall x, maintains P (body x)) -> maintains P (for_each l body).
Proof.
  intros Hb. induction l as [|x l IH]; simpl; [by intros st|].
  apply maintains_bind; [apply Hb|intros _; apply IH].
Qed.

Lemma maintains_clear_root_children :
  maintains (fun st => leaves_ok st = true) clear_root_children.
Proof.
  intros st HP. unfold clear_root_children, bind, gets, deref. simpl.
  destruct (store st !! root st) as [[b|l]|]; simpl; try done.
  unfold leaves_ok. simpl. by apply forallb_insert.
Qed.

Lemma maintains_load : maintains (fun st => leaves_ok st = true) load.
Proof.
  unfold load.
  apply maintains_bind; [apply maintains_keeps; keeps_prim|intros _].
  apply maintains_bind; [apply maintains_keeps; keeps_prim|intros _].
  apply maintains_bind; [apply maintains_clear_root_children|intros _].
  apply maintains_bind; [apply maintains_keeps, keeps_gets|intros d].
  apply maintains_bind; [apply maintains_keeps; keeps_prim|intros _].
  apply maintains_bind; [apply maintains_keeps, keeps_gets|intros ps].
  apply maintains_bind; [|intros _; apply maintains_keeps; keeps_prim].
  apply maintains_for_each. intros p. apply maintains_load_path.
Qed.

Lemma maintains_act a st : leaves_ok st = true -> leaves_ok (act st a) = true.
Proof.
  intros HP. destruct a as [| | |idx v role|d]; simpl.
  - by apply maintains_load.
  - assert (maintains (fun st => leaves_ok st = true) refresh) as Hm; [|by apply Hm].
    unfold refresh.
    apply maintains_bind; [apply maintains_load|intros _; apply maintains_keeps; keeps_prim].
  - unfold leaves_ok.
    pose proof (keeps_auto_refresh_tree st) as Hk. injection Hk as -> _ _. done.
  - unfold leaves_ok.
    pose proof (keeps_setData_tree idx v role st) as Hk. injection Hk as -> _ _. done.
  - done.
Qed.

(** Whatever is done to a model after its construction, every leaf
    object it has ever built, in the current tree or left over from an
    earlier one, carries a key path that ends in the leaf's label; in
    particular no leaf has an empty key path, and [setData] never takes
    the branch for a leaf without one. *)
Theorem history_leaf_paths (design : dict) (view : bool) (acts : list action) r l :
  store (fold_left act acts (snd (init design view))) !! r = Some (Leaf l) ->
  last (path l) = Some (label l) /\ path l <> [].
Proof.
  assert (maintains (fun st => leaves_ok st = true) (run _start_timer; load)) as Hinit.
  { apply maintains_bind; [apply maintains_keeps; keeps_prim|intros _; apply maintains_load]. }
  assert (leaves_ok (snd (init design view)) = true) as H0 by (by apply Hinit).
  assert (forall st, leaves_ok st = true -> leaves_ok (fold_left act acts st) = true) as Hall.
  { induction acts as [|a acts IH]; intros st HP; simpl; [done|].
    apply IH. by apply maintains_act. }
  intros Hr. pose proof (leaves_ok_lookup _ _ _ (Hall _ H0) Hr) as Hok.
  simpl in Hok. apply bool_decide_eq_true in Hok. split; [done|].
  intros Hnil. by rewrite Hnil in Hok.
Qed.

Lemma history_leaf_paths_witness :
  last (path (mkLeafNode "y" (Some 3%nat) ["x"; "y"]))
  = Some (label (mkLeafNode "y" (Some 3%nat) ["x"; "y"])) /\
  path (mkLeafNode "y" (Some 3%nat) ["x"; "y"]) <> [].
Proof.
  apply (history_leaf_paths D_nested true
           [ActSetData (mkIndex 0 1 (Some 2%nat) true) (SInt 7) EditRole; ActTick; ActLoad]
           4%nat (mkLeafNode "y" (Some 3%nat) ["x"; "y"])).
  vm_compute. reflexivity.
Defined.
